(** * Mandrel generator: a shallow embedding of the G-code generator

    The embedded program is the typed generator (MovePoint / DimensionPoint /
    Section classes, the [global] constants, the emitter [state], the motion
    and cycle emitters, the segmenter [interpolatePoints] and [genCode]).

    Numbers.  A JavaScript number is modelled by [number]: a finite value is
    an exact rational, and the three special values NaN, +Infinity and
    -Infinity are kept because the program produces them on ordinary runs
    ([Math.max()] of no arguments, arithmetic on [undefined]).  This model
    carries what is proved of the emitted text, of the emitter state and of
    the shape of the data.  It does not round: what depends on the rounding
    of binary doubles -- how many passes a contour gets, where a synthesized
    boundary point lies, whether a fractional index is still fractional --
    is stated over the module [Double], which embeds the [Section]
    constructor, [interpolatePoints] and [genMultiPassPoints] again over
    binary64 floats. *)

From Stdlib Require Import ZArith QArith Qround Qabs Qminmax Lqa Lia List String Ascii Bool.
From Stdlib Require Import DecimalString Sorted Permutation.
From Stdlib Require Floats.
Import ListNotations.

Local Open Scope Q_scope.

(* ================================================================== *)
(** ** JavaScript numbers and the array operations the program uses    *)
(* ================================================================== *)

Module JS.

Inductive number : Type :=
| Fin (q : Q)
| PosInf
| NegInf
| NaN.

(** A value of type [number | undefined]. *)
Definition value := option number.
Definition undefined : value := None.

(** ToNumber on [number | undefined]: [undefined] becomes NaN. *)
Definition toNumber (v : value) : number :=
  match v with Some x => x | None => NaN end.

Definition ofZ (z : Z) : number := Fin (inject_Z z).

Definition neg (x : number) : number :=
  match x with
  | Fin q => Fin (- q)
  | PosInf => NegInf
  | NegInf => PosInf
  | NaN => NaN
  end.

Definition add (x y : number) : number :=
  match x, y with
  | NaN, _ | _, NaN => NaN
  | Fin a, Fin b => Fin (a + b)
  | PosInf, NegInf | NegInf, PosInf => NaN
  | PosInf, _ | _, PosInf => PosInf
  | NegInf, _ | _, NegInf => NegInf
  end.

Definition sub (x y : number) : number := add x (neg y).

(** Sign of a rational as a comparison with zero. *)
Definition signQ (q : Q) : comparison := q ?= 0.

Definition infOfSign (c : comparison) : number :=
  match c with Gt => PosInf | Lt => NegInf | Eq => NaN end.

Definition signOf (x : number) : comparison :=
  match x with
  | Fin q => signQ q
  | PosInf => Gt
  | NegInf => Lt
  | NaN => Eq
  end.

Definition mulSign (a b : comparison) : comparison :=
  match a, b with
  | Eq, _ | _, Eq => Eq
  | Gt, c => c
  | Lt, c => CompOpp c
  end.

Definition mul (x y : number) : number :=
  match x, y with
  | NaN, _ | _, NaN => NaN
  | Fin a, Fin b => Fin (a * b)
  | _, _ => infOfSign (mulSign (signOf x) (signOf y))
  end.

(** Division: a finite value over zero is an infinity of the dividend's sign
    (zero over zero is NaN); a finite value over an infinity is zero. *)
Definition div (x y : number) : number :=
  match x, y with
  | NaN, _ | _, NaN => NaN
  | Fin a, Fin b =>
      if Qeq_bool b 0 then infOfSign (signQ a) else Fin (a / b)
  | Fin _, _ => Fin 0
  | _, Fin b =>
      match signQ b with
      | Lt => neg x
      | _ => x
      end
  | _, _ => NaN
  end.

(** [x < y]; false whenever an operand is NaN. *)
Definition ltb (x y : number) : bool :=
  match x, y with
  | NaN, _ | _, NaN => false
  | Fin a, Fin b => match a ?= b with Lt => true | _ => false end
  | NegInf, NegInf => false
  | NegInf, _ => true
  | _, PosInf => match x with PosInf => false | _ => true end
  | _, _ => false
  end.

Definition gtb (x y : number) : bool := ltb y x.

(** [x === y] and [x == y] on numbers. *)
Definition eqb (x y : number) : bool :=
  match x, y with
  | Fin a, Fin b => Qeq_bool a b
  | PosInf, PosInf | NegInf, NegInf => true
  | _, _ => false
  end.

(** [x === y] on [number | undefined]. *)
Definition strictEq (x y : value) : bool :=
  match x, y with
  | None, None => true
  | Some a, Some b => eqb a b
  | _, _ => false
  end.

(** Truncation of a rational toward zero. *)
Definition Qtrunc (q : Q) : Z := Z.quot (Qnum q) (Zpos (Qden q)).

Definition ceil (x : number) : number :=
  match x with Fin q => ofZ (Qceiling q) | _ => x end.

Definition floor (x : number) : number :=
  match x with Fin q => ofZ (Qfloor q) | _ => x end.

(** [x % 1]: the remainder has the sign of the dividend. *)
Definition rem1 (x : number) : number :=
  match x with
  | Fin q => Fin (q - inject_Z (Qtrunc q))
  | _ => NaN
  end.

(** Truthiness of a number in a condition. *)
Definition truthy (x : number) : bool :=
  match x with
  | Fin q => negb (Qeq_bool q 0)
  | NaN => false
  | _ => true
  end.

Definition max2 (x y : number) : number :=
  match x, y with
  | NaN, _ | _, NaN => NaN
  | _, _ => if ltb x y then y else x
  end.

Definition min2 (x y : number) : number :=
  match x, y with
  | NaN, _ | _, NaN => NaN
  | _, _ => if ltb y x then y else x
  end.

(** [Math.max(...l)] and [Math.min(...l)]. *)
Definition mathMax (l : list number) : number := fold_right max2 NegInf l.
Definition mathMin (l : list number) : number := fold_right min2 PosInf l.

(** [+x.toFixed(d)]: [x] rounded to [d] decimals, ties away from zero. *)
Definition roundHalfAway (q : Q) : Z :=
  match (q ?= 0)%Q with
  | Lt => (- Qfloor (- q + (1 # 2))%Q)%Z
  | _ => Qfloor (q + (1 # 2))%Q
  end.

Definition toFixed (d : nat) (x : number) : number :=
  match x with
  | Fin q =>
      let s := inject_Z (10 ^ Z.of_nat d) in
      Fin (inject_Z (roundHalfAway (q * s)) / s)
  | _ => x
  end.

(** *** Arrays *)

(** The array index denoted by a number, when it is one. *)
Definition asIndex (x : number) : option nat :=
  match x with
  | Fin q =>
      if Qeq_bool q (inject_Z (Qfloor q)) && (0 <=? Qfloor q)%Z
      then Some (Z.to_nat (Qfloor q)) else None
  | _ => None
  end.

(** [l[i]] read as a number: an index that is not in the array reads
    [undefined], which arithmetic turns into NaN. *)
Definition getNum (l : list number) (i : number) : number :=
  match asIndex i with
  | Some n => toNumber (nth_error l n)
  | None => NaN
  end.

Fixpoint findIndexFrom {A} (p : A -> bool) (l : list A) (i : Z) : Z :=
  match l with
  | [] => (-1)%Z
  | a :: l' => if p a then i else findIndexFrom p l' (i + 1)%Z
  end.

(** [l.findIndex(p)] *)
Definition findIndex {A} (p : A -> bool) (l : list A) : Z := findIndexFrom p l 0.

(** [l.indexOf(v)] on an array of numbers (strict equality). *)
Definition indexOf (l : list number) (v : number) : Z :=
  findIndex (fun e => eqb e v) l.

(** A relative index of [slice] on an array of length [len]. *)
Definition relIndex (len : Z) (x : number) : Z :=
  match x with
  | NaN => 0
  | NegInf => 0
  | PosInf => len
  | Fin q =>
      let t := Qtrunc q in
      if (t <? 0)%Z then Z.max (len + t) 0 else Z.min t len
  end.

(** [l.slice(s, e)] *)
Definition slice {A} (l : list A) (s e : number) : list A :=
  let len := Z.of_nat (List.length l) in
  let k := relIndex len s in
  let final := relIndex len e in
  firstn (Z.to_nat (final - k)) (skipn (Z.to_nat k) l).

(** Stable sort with a comparator returning a number (a NaN result counts
    as zero), as [Array.prototype.sort]. *)
Fixpoint insertBy {A} (cmp : A -> A -> number) (a : A) (l : list A) : list A :=
  match l with
  | [] => [a]
  | b :: l' =>
      if ltb (Fin 0) (cmp a b) then b :: insertBy cmp a l' else a :: b :: l'
  end.

Definition sortBy {A} (cmp : A -> A -> number) (l : list A) : list A :=
  fold_right (insertBy cmp) [] l.

End JS.

Import JS.

Declare Scope js_scope.
Delimit Scope js_scope with js.
Infix "+" := add : js_scope.
Infix "-" := sub : js_scope.
Infix "*" := mul : js_scope.
Infix "/" := div : js_scope.
Infix "<?" := ltb : js_scope.
Infix ">?" := gtb : js_scope.

(* ================================================================== *)
(** ** Data model                                                      *)
(* ================================================================== *)

(** [class MovePoint]: a sparse target.  [axesPresent] is fixed by the
    constructor to [x !== undefined] (and so on) and never written again,
    so it is a function of the three coordinates.  The constructor throws
    only when called with no argument at all, which no call site does. *)
Module MovePoint.
Record t : Type := mk { x : value; y : value; z : value }.

Definition present (v : value) : bool :=
  match v with Some _ => true | None => false end.

Definition axesPresent_x (p : t) : bool := present (x p).
Definition axesPresent_y (p : t) : bool := present (y p).
Definition axesPresent_z (p : t) : bool := present (z p).
End MovePoint.

(** [class DimensionPoint] *)
Module DimensionPoint.
Record t : Type := mk { x : number; z : number }.

Definition getMovePoint (p : t) : MovePoint.t :=
  MovePoint.mk (Some (x p)) undefined (Some (z p)).
End DimensionPoint.

(** The [global] constants. *)
Record Global : Type := {
  depths_max : number;
  depths_min : number;
  xClearance : number;
  zClearance : number;
  colletShift : number;
  feed : number;
  rpm : number;
  stickout : number;
  decimals : nat;
  G75Functional : bool
}.

(** The constants as shipped. *)
Definition global : Global := {|
  depths_max := Fin 0.040;
  depths_min := Fin 0.010;
  xClearance := Fin 0.010;
  zClearance := Fin 0.100;
  colletShift := Fin 0.050;
  feed := Fin 0.002;
  rpm := Fin 1500;
  stickout := Fin 1.000;
  decimals := 4;
  G75Functional := false
|}.

(** [class Section] (the name is a keyword here). *)
Record MSection : Type := {
  points : list DimensionPoint.t;
  machiningPoints : list DimensionPoint.t;
  length : number;
  maxDiameter : number
}.

(** The emitter state [var state]. *)
Record Position : Type := { pos_x : value; pos_y : value; pos_z : value }.

Record State : Type := {
  lastGCode : string;
  lastFeed : number;
  position : Position
}.

Definition state0 : State := {|
  lastGCode := "None";
  lastFeed := Fin (-1);
  position := {| pos_x := undefined; pos_y := undefined; pos_z := undefined |}
|}.

(* ================================================================== *)
(** ** Effects: the emitter state, exceptions, loops that never exit   *)
(* ================================================================== *)

Inductive Error : Type :=
| RangeError (msg : string)
| TypeError (msg : string).

Definition message (e : Error) : string :=
  match e with RangeError m | TypeError m => m end.

(** The outcome of running a piece of the program: it returns, it throws,
    or it never returns. *)
Inductive Result (A : Type) : Type :=
| Ret (a : A)
| Throw (e : Error)
| Diverge.

Arguments Ret {A} a.
Arguments Throw {A} e.
Arguments Diverge {A}.

Definition M (A : Type) : Type := State -> Result A * State.

Definition ret {A} (a : A) : M A := fun st => (Ret a, st).

Definition bind {A B} (m : M A) (f : A -> M B) : M B :=
  fun st =>
    match m st with
    | (Ret a, st') => f a st'
    | (Throw e, st') => (Throw e, st')
    | (Diverge, st') => (Diverge, st')
    end.

Definition throw {A} (e : Error) : M A := fun st => (Throw e, st).
Definition diverge {A} : M A := fun st => (Diverge, st).
Definition get : M State := fun st => (Ret st, st).

Declare Scope gen_scope.
Delimit Scope gen_scope with gen.
Notation "x <- c ;; k" := (bind c (fun x => k))
  (at level 61, c at next level, right associativity) : gen_scope.

Local Open Scope string_scope.

(** The line terminator. *)
Definition nl : string := String (ascii_of_nat 10) EmptyString.

(** [l.forEach(a => { code += f(a) })] *)
Fixpoint appendEach {A} (f : A -> M string) (l : list A) : M string :=
  match l with
  | [] => ret ""
  | a :: l' =>
      (s <- f a ;; r <- appendEach f l' ;; ret (s ++ r))%gen
  end.

(** The values taken by [i] in [for (let i = from; i < bound; i++)];
    [None] when the loop never exits. *)
Definition loopIndices (from : Z) (bound : number) : option (list Z) :=
  match bound with
  | Fin q => Some (map (fun k => (from + Z.of_nat k)%Z)
                       (seq 0 (Z.to_nat (Qceiling q - from))))
  | PosInf => None
  | _ => Some []
  end.

(* ================================================================== *)
(** ** The generator                                                   *)
(* ================================================================== *)

Section Generator.

(** The text of a number inside a string ([Number::toString]); the shortest
    round-trip printing of doubles is left to the host language. *)
Variable numToString : number -> string.

(** The constants in force. *)
Variable g : Global.

Local Open Scope gen_scope.

(** ["X" + (+v.toFixed(global.decimals))] *)
Definition fmt (v : number) : string := numToString (toFixed (decimals g) v).

(** *** Command emitter *)

(** The guard shared by both motion emitters: of the present axes, none
    differs from [state.position]. *)
Definition atPosition (point : MovePoint.t) (st : State) : bool :=
  (negb (MovePoint.axesPresent_x point)
     || strictEq (MovePoint.x point) (pos_x (position st)))
  && (negb (MovePoint.axesPresent_y point)
     || strictEq (MovePoint.y point) (pos_y (position st)))
  && (negb (MovePoint.axesPresent_z point)
     || strictEq (MovePoint.z point) (pos_z (position st))).

(** The mode word, printed unless it was the last one printed. *)
Definition modeWord (code : string) (st : State) : string :=
  if negb (String.eqb (lastGCode st) code) then "G" ++ code else "".

(** One axis word, printed where the axis is present and new. *)
Definition axisWord (letter : string) (v cur : value) : string :=
  if MovePoint.present v && negb (strictEq v cur)
  then letter ++ fmt (toNumber v) else "".

Definition axisWords (point : MovePoint.t) (st : State) : string :=
  axisWord "X" (MovePoint.x point) (pos_x (position st))
  ++ axisWord "Y" (MovePoint.y point) (pos_y (position st))
  ++ axisWord "Z" (MovePoint.z point) (pos_z (position st)).

(** The feed word, printed if a feed is given and changed. *)
Definition feedWord (f : value) (st : State) : string :=
  match f with
  | Some v => if negb (eqb v (lastFeed st)) then "F" ++ fmt v else ""
  | None => ""
  end.

Definition commentWord (comment : option string) : string :=
  match comment with
  | Some c => "(" ++ c ++ ")"
  | None => ""
  end.

Definition rapidPosition (point : MovePoint.t) (comment : option string)
  : M string :=
  fun st =>
    if atPosition point st then (Ret "", st)
    else
      let code :=
        modeWord "00" st ++ axisWords point st ++ commentWord comment ++ nl in
      (Ret code,
       {| lastGCode := "00"; lastFeed := Fin (-1); position := position st |}).

Definition linearInterpolation (point : MovePoint.t) (f : value)
  (comment : option string) : M string :=
  fun st =>
    if atPosition point st then (Ret "", st)
    else
      let code :=
        modeWord "01" st ++ axisWords point st ++ feedWord f st
        ++ commentWord comment ++ nl in
      (Ret code,
       {| lastGCode := "01";
          lastFeed := match f with None => Fin (-1) | Some v => v end;
          position := position st |}).

(** [state.lastGCode = "None"] *)
Definition resetLastGCode : M unit :=
  fun st =>
    (Ret tt,
     {| lastGCode := "None"; lastFeed := lastFeed st; position := position st |}).

Definition boxCycle (startPoint endPoint : DimensionPoint.t)
  (finishBufferRadius f : number) (comment : option string) : M string :=
  code <- rapidPosition (DimensionPoint.getMovePoint startPoint) None ;;
  let code :=
    code ++ "G74"
    ++ "X" ++ fmt (DimensionPoint.x endPoint)
    ++ "X" ++ fmt (DimensionPoint.z endPoint)
    ++ "I" ++ fmt (depths_max g / Fin 2)%js
    ++ "U" ++ fmt finishBufferRadius
    ++ "F" ++ fmt f
    ++ commentWord comment ++ nl in
  _ <- resetLastGCode ;;
  ret code.

Definition taperSubroutine (id : number) (pts : list DimensionPoint.t)
  : string :=
  fold_right
    (fun point rest =>
       "X" ++ fmt (DimensionPoint.x point)
       ++ "Z" ++ fmt (DimensionPoint.z point) ++ nl ++ rest)
    ("RF" ++ nl) pts.

(** *** Simulated contour cycle *)

Definition genMultiPassPoints (pts : list DimensionPoint.t)
  (startX I : number) : option (list (list DimensionPoint.t)) :=
  let xVals := map DimensionPoint.x pts in
  let numPasses := ceil ((startX - mathMin xVals) / (Fin 2 * I))%js in
  let xDeltas := map (fun val => ((startX - val) / numPasses)%js) xVals in
  match loopIndices 1 numPasses with
  | None => None
  | Some passIndices =>
      Some (map (fun i =>
                   map (fun dp =>
                          DimensionPoint.mk (startX - ofZ i * fst dp)%js
                                            (DimensionPoint.z (snd dp)))
                       (combine xDeltas pts))
                passIndices
            ++ [pts])%list
  end.

Definition basicTaper (pts : list MovePoint.t) (f : number) : M string :=
  st <- get ;;
  let startZ := pos_z (position st) in
  code <- appendEach (fun point => linearInterpolation point (Some f) None) pts ;;
  a <- linearInterpolation
         (MovePoint.mk
            (Some (mathMax (map (fun point => toNumber (MovePoint.x point)) pts)
                   + xClearance g)%js)
            undefined undefined)
         undefined None ;;
  b <- rapidPosition (MovePoint.mk undefined undefined startZ) None ;;
  ret (code ++ a ++ b).

(** The finish-spaced copy of a contour point:
    [new DimensionPoint(point.x + 2 * U, point.z)]. *)
Definition finishSpaced (U : number) (point : DimensionPoint.t)
  : DimensionPoint.t :=
  DimensionPoint.mk (DimensionPoint.x point + Fin 2 * U)%js
                    (DimensionPoint.z point).

(** The body of [simG75]: the local string [code] it assembles. *)
Definition simG75_code (pts : list DimensionPoint.t) (I U F : number)
  : M string :=
  let finishSpacedPoints := map (finishSpaced U) pts in
  let maxDiam := mathMax (map DimensionPoint.x finishSpacedPoints) in
  let clearZ := mathMin (map DimensionPoint.z finishSpacedPoints) in
  st <- get ;;
  let origPoint :=
    MovePoint.mk (pos_x (position st)) (pos_y (position st))
                 (pos_z (position st)) in
  let code :=
    match MovePoint.x origPoint with
    | Some ox =>
        if (maxDiam <? ox)%js
        then "G74X" ++ numToString maxDiam ++ "Z" ++ numToString clearZ
             ++ "I" ++ numToString I ++ "U" ++ numToString (Fin 0)
             ++ "F" ++ numToString F ++ nl
        else ""
    | None => ""
    end in
  match genMultiPassPoints (map (finishSpaced U) pts) maxDiam I with
  | None => diverge
  | Some passes =>
      body <- appendEach
                (fun pass =>
                   a <- basicTaper (map DimensionPoint.getMovePoint pass) F ;;
                   b <- linearInterpolation
                          (MovePoint.mk (Some (maxDiam + xClearance g)%js)
                                        undefined undefined)
                          (Some F) None ;;
                   c <- rapidPosition
                          (MovePoint.mk undefined undefined
                             (Some (toNumber (MovePoint.z origPoint)
                                    + zClearance g)%js))
                          None ;;
                   ret (a ++ b ++ c))
                passes ;;
      back <- linearInterpolation origPoint (Some F) None ;;
      ret (code ++ body ++ back)
  end.

(** [simG75] has no [return]: the call evaluates to [undefined] and the
    assembled string is dropped. *)
Definition simG75 (pts : list DimensionPoint.t) (I U F : number)
  : M (option string) :=
  _ <- simG75_code pts I U F ;;
  ret None.

(** [code += v] for a value that is a string or [undefined]. *)
Definition appendValue (code : string) (v : option string) : string :=
  code ++ match v with Some s => s | None => "undefined" end.

Definition contourCycle (startPoint : DimensionPoint.t)
  (pts : list DimensionPoint.t) (subroutineID finishBufferRadius f : number)
  (comment : option string) : M string :=
  if G75Functional g then
    code <- linearInterpolation (DimensionPoint.getMovePoint startPoint)
              (Some f) (Some "Beginning G75 contour cycle") ;;
    let code :=
      code ++ "G75"
      ++ "I" ++ fmt (depths_max g / Fin 2)%js
      ++ "U" ++ fmt finishBufferRadius
      ++ "F" ++ fmt f
      ++ commentWord comment ++ nl in
    _ <- resetLastGCode ;;
    ret (code ++ taperSubroutine subroutineID pts)
  else
    code <- linearInterpolation (DimensionPoint.getMovePoint startPoint)
              (Some f)
              (Some ("Simulated G75 Contour cycle"
                     ++ match comment with
                        | None => ""
                        | Some c => " - " ++ c
                        end)) ;;
    v <- simG75 pts (depths_max g / Fin 2)%js finishBufferRadius f ;;
    ret (appendValue code v).

(** *** Sections *)

(** [new Section(points)] *)
Definition newSection (pts : list DimensionPoint.t) : MSection :=
  let len := mathMax (map DimensionPoint.z pts) in
  let copies :=
    map (fun point =>
           DimensionPoint.mk (DimensionPoint.x point)
                             (neg (DimensionPoint.z point) + len)%js) pts in
  let sorted :=
    sortBy (fun a b => (DimensionPoint.z b - DimensionPoint.z a)%js) copies in
  {| points := pts;
     machiningPoints :=
       map (fun point =>
              DimensionPoint.mk (DimensionPoint.x point)
                                (DimensionPoint.z point - stickout g)%js) sorted;
     length := len;
     maxDiameter := mathMax (map DimensionPoint.x pts) |}.

Definition rangeErrorMessage : string :=
  "Provided taper includes diameter(s) exceeding provided start diameter, taper will not be accurate!".

(** What reading [.x] of [machiningPoints[0]] throws on an empty section
    (the wording is the engine's). *)
Definition typeErrorMessage : string :=
  "Cannot read properties of undefined (reading 'x')".

Definition sectionCycle (startDiameter : number) (section : MSection)
  (subroutineID : number) : M string :=
  if (maxDiameter section >? startDiameter)%js
  then throw (RangeError rangeErrorMessage)
  else
    let code := "G94F" ++ numToString (rpm g * feed g)%js ++ nl in
    match machiningPoints section with
    | [] => throw (TypeError typeErrorMessage)
    | first :: _ =>
        a <- linearInterpolation
               (MovePoint.mk (Some (DimensionPoint.x first + xClearance g)%js)
                             undefined (Some (DimensionPoint.z first)))
               undefined None ;;
        let code := code ++ a ++ "M01(Move stock to appropriate position)" ++ nl in
        b <- linearInterpolation
               (MovePoint.mk (Some (startDiameter + xClearance g)%js) undefined
                  (Some (length section - stickout g + zClearance g)%js))
               undefined None ;;
        let code :=
          code ++ b ++ "M03S" ++ numToString (rpm g) ++ nl
          ++ "G95F" ++ numToString (feed g) ++ nl in
        c <- contourCycle
               (DimensionPoint.mk (startDiameter + xClearance g)%js
                  (length section - stickout g + zClearance g)%js)
               (machiningPoints section) subroutineID
               (depths_max g / Fin 4)%js (feed g) None ;;
        d <- basicTaper
               (map DimensionPoint.getMovePoint (machiningPoints section))
               (feed g) ;;
        e <- rapidPosition
               (MovePoint.mk (Some (startDiameter + xClearance g)%js) undefined
                             (Some (zClearance g)))
               None ;;
        ret (code ++ c ++ d ++ e ++ "M05" ++ nl)
    end.

(** *** Segmenter *)

(** [organizedPoints]: one point per element of [xPoints]; a missing z
    reads [undefined] and only ever enters a subtraction, hence NaN. *)
Fixpoint organize (xPoints zPoints : list number) : list DimensionPoint.t :=
  match xPoints with
  | [] => []
  | x :: xs =>
      DimensionPoint.mk x (toNumber (hd_error zPoints))
      :: organize xs (tl zPoints)
  end.

(** The end of section [i]: the (possibly fractional) [endIndex] and the
    [endPoint] pair. *)
Definition sectionEnd (xPoints zPoints : list number) (i : Z)
  : number * (number * number) :=
  let boundary := (ofZ (i + 1) * stickout g)%js in
  if (indexOf zPoints boundary =? -1)%Z then
    let firstIndexInNext :=
      ofZ (findIndex (fun element => (element >? boundary)%js) zPoints) in
    let before := (firstIndexInNext - Fin 1)%js in
    let endIndex :=
      (before
       + (boundary - getNum zPoints before)
         / (getNum zPoints firstIndexInNext - getNum zPoints before))%js in
    (endIndex,
     ((getNum xPoints before
       + rem1 endIndex * (getNum xPoints firstIndexInNext - getNum xPoints before))%js,
      (getNum zPoints before
       + rem1 endIndex * (getNum zPoints firstIndexInNext - getNum zPoints before))%js))
  else
    let endIndex := ofZ (indexOf zPoints boundary) in
    (endIndex, (getNum xPoints endIndex, getNum zPoints endIndex)).

(** [includedPoints] of one section, with z taken relative to [shift]. *)
Definition includedPoints (organizedPoints : list DimensionPoint.t)
  (shift startIndex : number) (startPoint : number * number)
  (endIndex : number) (endPoint : option (number * number))
  : list DimensionPoint.t :=
  ((if truthy (rem1 startIndex)
    then [DimensionPoint.mk (fst startPoint) (snd startPoint - shift)%js]
    else [])
   ++ map (fun point =>
             DimensionPoint.mk (DimensionPoint.x point)
                               (DimensionPoint.z point - shift)%js)
          (slice organizedPoints (ceil startIndex) (floor endIndex + Fin 1)%js)
   ++ match endPoint with
      | Some e =>
          if truthy (rem1 endIndex)
          then [DimensionPoint.mk (fst e) (snd e - shift)%js]
          else []
      | None => []
      end)%list.

(** The loop over all but the last section; returns the sections pushed and
    the start index and point left for the last one. *)
Fixpoint sectionLoop (xPoints zPoints : list number) (idx : list Z)
  (startIndex : number) (startPoint : number * number)
  : list MSection * (number * (number * number)) :=
  match idx with
  | [] => ([], (startIndex, startPoint))
  | i :: rest =>
      let '(endIndex, endPoint) := sectionEnd xPoints zPoints i in
      let section :=
        newSection
          (includedPoints (organize xPoints zPoints)
             (ofZ i * stickout g)%js startIndex startPoint endIndex
             (Some endPoint)) in
      let '(sections, final) :=
        sectionLoop xPoints zPoints rest endIndex endPoint in
      (section :: sections, final)
  end.

(** [interpolatePoints]; [None] when the section loop never exits. *)
Definition interpolatePoints (xPoints zPoints : list number)
  : option (list MSection) :=
  let fullLength := mathMax zPoints in
  let numSections := ceil (fullLength / stickout g)%js in
  let organizedPoints := organize xPoints zPoints in
  match loopIndices 0 (numSections - Fin 1)%js with
  | None => None
  | Some idx =>
      let '(sections, (startIndex, startPoint)) :=
        sectionLoop xPoints zPoints idx (Fin 0)
          (toNumber (hd_error xPoints), toNumber (hd_error zPoints)) in
      let endIndex := ofZ (Z.of_nat (List.length organizedPoints) - 1) in
      Some (sections
            ++ [newSection
                  (includedPoints organizedPoints
                     ((numSections - Fin 1) * stickout g)%js
                     startIndex startPoint endIndex None)])%list
  end.

(** *** Program assembly *)

(** A cell of the caller's range: a number, or an empty / non-numeric cell.
    (Numeric text cells are outside the model.) *)
Inductive Cell : Type :=
| CNum (v : number)
| CBlank.

(** The filter [element !== "" && !isNaN(element) && !isNaN(parseFloat(element))],
    keeping the numbers it lets through. *)
Definition numericCells (cells : list Cell) : list number :=
  flat_map (fun c =>
              match c with
              | CNum NaN => []
              | CNum v => [v]
              | CBlank => []
              end) cells.

(** The three readings of [new Date()] that the header prints. *)
Record Date : Type := { getMonth : Z; getDate : Z; getFullYear : Z }.

Definition unequalMessage : string :=
  "Diameters and locations contain unqual numbers of valid data points.".

(** The comparator of the sort by z. *)
Definition byZ (a b : DimensionPoint.t) : number :=
  if (DimensionPoint.z a <? DimensionPoint.z b)%js then Fin (-1)
  else if eqb (DimensionPoint.z a) (DimensionPoint.z b) then Fin 0
  else Fin 1.

(** Cleaning of the two input ranges: either the early error message, or the
    diameters and locations with the two counts of dropped cells. *)
Definition cleanInput (diameterList : list (list Cell))
  (optLocationList : option (list (list Cell)))
  : string + (list number * list number * (Z * Z)) :=
  let diameterList := List.concat diameterList in
  let diameterPoints := numericCells diameterList in
  let numDiametersRemoved :=
    (Z.of_nat (List.length diameterList)
     - Z.of_nat (List.length diameterPoints))%Z in
  match optLocationList with
  | None =>
      inr (diameterPoints,
           map (fun i => (ofZ (Z.of_nat i) * Fin (25 # 100))%js)
               (seq 0 (List.length diameterPoints)),
           (numDiametersRemoved, (-1)%Z))
  | Some optLocationList =>
      let optLocationList := List.concat optLocationList in
      let locationPoints := numericCells optLocationList in
      let numPointsRemoved :=
        (Z.of_nat (List.length optLocationList)
         - Z.of_nat (List.length locationPoints))%Z in
      if negb (List.length locationPoints =? List.length diameterPoints)%nat
      then inl unequalMessage
      else
        let tempObjects :=
          sortBy byZ
            (map (fun dz => DimensionPoint.mk (fst dz) (snd dz))
                 (combine diameterPoints locationPoints)) in
        inr (map DimensionPoint.x tempObjects,
             map DimensionPoint.z tempObjects,
             (numDiametersRemoved, numPointsRemoved))
  end.

(** The orientation step.  The diameters are reversed in place; the
    callback of [locationPoints.forEach] evaluates [-point + taperLength]
    as a statement and stores it nowhere, so the locations stay as they
    are. *)
Definition orientPoints (diameterPoints locationPoints : list number)
  : list number * list number :=
  if (toNumber (hd_error diameterPoints)
      >? toNumber (hd_error (rev diameterPoints)))%js
  then (rev diameterPoints, locationPoints)
  else (diameterPoints, locationPoints).

Definition plural (n : Z) : string := if (1 <? n)%Z then "s" else "".

Definition notes (numDiametersRemoved numPointsRemoved : Z) : string :=
  if (0 <? numDiametersRemoved)%Z || (0 <? numPointsRemoved)%Z then
    if (numDiametersRemoved =? numPointsRemoved)%Z then
      "(NOTE - " ++ numToString (ofZ numDiametersRemoved)
      ++ " non-numeric or empty data pair" ++ plural numDiametersRemoved
      ++ " ignored.)" ++ nl
    else
      (if (0 <? numDiametersRemoved)%Z then
         "(NOTE - " ++ numToString (ofZ numDiametersRemoved)
         ++ " non-numeric or empty diameter" ++ plural numDiametersRemoved
         ++ " ignored.)" ++ nl
       else "")
      ++ (if (0 <? numPointsRemoved)%Z then
            "(NOTE - " ++ numToString (ofZ numPointsRemoved)
            ++ " non-numeric or empty point location" ++ plural numPointsRemoved
            ++ " ignored.)" ++ nl
          else "")
  else "".

(** The header comment that carries the generation date. *)
Definition dateLine (date : Date) : string :=
  "(Executed " ++ numToString (ofZ (getMonth date + 1)) ++ "."
  ++ numToString (ofZ (getDate date)) ++ "."
  ++ numToString (ofZ (getFullYear date)) ++ ")" ++ nl.

Definition headBefore (stockDiameter : number) (counts : Z * Z) : string :=
  notes (fst counts) (snd counts)
  ++ "(OMalley Brass)" ++ nl
  ++ "(" ++ numToString (stickout g) ++ " inch part stickout)" ++ nl
  ++ "(" ++ numToString stockDiameter ++ " inch diameter stock)" ++ nl
  ++ "(T1 OD Cutter)" ++ nl
  ++ "(Code generation by Jeremy Peplinski)" ++ nl.

Definition headAfter : string :=
  "G72G90G97G95F" ++ numToString (feed g) ++ nl ++ "T1" ++ nl.

(** The loop over the sections, from index [i], appending to [codeText]. *)
Fixpoint sectionsFrom (stockDiameter : number) (sections : list MSection)
  (i : Z) (codeText : string) : M string :=
  match sections with
  | [] => ret codeText
  | section :: rest =>
      let codeText :=
        codeText ++ "(Section " ++ numToString (ofZ (i + 1)) ++ ")" ++ nl in
      code <- sectionCycle stockDiameter section (ofZ ((i + 1) * 100)) ;;
      sectionsFrom stockDiameter rest (i + 1) (codeText ++ code)
  end.

(** [try { body } catch (err) { return err.message }], then the rest. *)
Definition tryOrMessage (body : M string) (rest : string -> string)
  : M string :=
  fun st =>
    match body st with
    | (Ret codeText, st') => (Ret (rest codeText), st')
    | (Throw err, st') => (Ret (message err), st')
    | (Diverge, st') => (Diverge, st')
    end.

(** Code generation from the sections on. *)
Definition assemble (stockDiameter : number) (sections : list MSection)
  (counts : Z * Z) (date : Date) : M string :=
  let codeText :=
    headBefore stockDiameter counts ++ dateLine date ++ headAfter in
  tryOrMessage (sectionsFrom stockDiameter sections 0 codeText)
               (fun codeText => codeText ++ "M30" ++ nl).

Definition genCode (stockDiameter : number) (diameterList : list (list Cell))
  (optLocationList : option (list (list Cell))) (date : Date) : M string :=
  match cleanInput diameterList optLocationList with
  | inl msg => ret msg
  | inr (diameterPoints, locationPoints, counts) =>
      let '(diameterPoints, locationPoints) :=
        orientPoints diameterPoints locationPoints in
      match interpolatePoints diameterPoints locationPoints with
      | None => diverge
      | Some sections => assemble stockDiameter sections counts date
      end
  end.

(** *** Parts of the file that the program does not call *)

(** [Section.prototype.getLengthOffsetPoint]: the point at [index] with its
    z taken back by the section length; reading [.x] of a missing element
    throws. *)
Definition getLengthOffsetPoint (section : MSection) (index : number)
  : Result DimensionPoint.t :=
  match asIndex index with
  | Some n =>
      match nth_error (points section) n with
      | Some point =>
          Ret (DimensionPoint.mk (DimensionPoint.x point)
                                 (DimensionPoint.z point - length section)%js)
      | None => Throw (TypeError typeErrorMessage)
      end
  | None => Throw (TypeError typeErrorMessage)
  end.

(** The data of [testGenCode]. *)
Definition testGenCode_diameterPoints : list Q :=
  [0.335; 0.340; 0.345; 0.348; 0.350; 0.353; 0.355; 0.360; 0.366].

Definition testGenCode_locations : list Q :=
  [0.00; 0.25; 0.50; 0.75; 1.00; 1.25; 1.50; 1.75; 2.00].

(** A flat array of numbers as [genCode] receives it: [[].concat(...a)]
    leaves a flat array as it is, as it does an array of one-cell rows. *)
Definition flat (l : list Q) : list (list Cell) :=
  map (fun q => [CNum (Fin q)]) l.

(** [testGenCode]: the text that [genCode] returns is dropped. *)
Definition testGenCode (date : Date) : M unit :=
  _ <- genCode (Fin 0.5) (flat testGenCode_diameterPoints)
         (Some (flat testGenCode_locations)) date ;;
  ret tt.

End Generator.


(* ================================================================== *)
(** ** The arithmetic of the segmenter and of the pass subdivision on
       binary doubles                                                  *)
(* ================================================================== *)

(** The program computes on IEEE 754 binary64 numbers.  The functions whose
    result depends on how a quotient, a product or a sum is rounded -- the
    [Section] constructor, [interpolatePoints] and [genMultiPassPoints] --
    are embedded a second time in the module [Double], statement for
    statement as above, over the kernel's binary64 floats: [+], [-], [*],
    [/] and the comparisons are the IEEE operations (round to nearest, ties
    to even), and the integer functions ([Math.ceil], [Math.floor], [% 1],
    array indices, loop counters) are computed from the exact value of the
    float. *)
Module Double.

Definition number : Set := PrimFloat.float.

Definition value := option number.
Definition undefined : value := None.

Definition NaN : number := PrimFloat.nan.
Definition PosInf : number := PrimFloat.infinity.
Definition NegInf : number := PrimFloat.neg_infinity.

(** Arithmetic on [undefined] goes through NaN. *)
Definition toNumber (v : value) : number :=
  match v with Some x => x | None => NaN end.

(** The double of an integer; exact up to 2^53 in absolute value. *)
Definition ofZ (z : Z) : number :=
  match z with
  | Z0 => PrimFloat.zero
  | Zpos _ => PrimFloat.of_uint63 (Uint63.of_Z z)
  | Zneg p => PrimFloat.opp (PrimFloat.of_uint63 (Uint63.of_Z (Zpos p)))
  end.

(** The double nearest to the decimal [n / d], as a numeric literal of the
    source denotes it. *)
Definition decimal (n d : Z) : number := PrimFloat.div (ofZ n) (ofZ d).

Definition neg (x : number) : number := PrimFloat.opp x.
Definition add (x y : number) : number := PrimFloat.add x y.
Definition sub (x y : number) : number := PrimFloat.sub x y.
Definition mul (x y : number) : number := PrimFloat.mul x y.
Definition div (x y : number) : number := PrimFloat.div x y.
Definition ltb (x y : number) : bool := PrimFloat.ltb x y.
Definition gtb (x y : number) : bool := PrimFloat.ltb y x.

(** [x === y] on numbers. *)
Definition eqb (x y : number) : bool := PrimFloat.eqb x y.

(** The exact value of a finite double. *)
Definition exact (x : number) : option Q :=
  match FloatOps.Prim2SF x with
  | SpecFloat.S754_zero _ => Some 0
  | SpecFloat.S754_finite s m e =>
      Some ((if s then - inject_Z (Zpos m) else inject_Z (Zpos m)) * 2 ^ e)
  | _ => None
  end.

(** Rounding to an integer by [round]; a double of absolute value 2^52 or
    more is an integer already.  A zero result keeps the sign of [x]. *)
Definition integral (round : Q -> Z) (x : number) : number :=
  match exact x with
  | Some q =>
      if PrimFloat.ltb (PrimFloat.abs x) (ofZ (2 ^ 52)) then
        let n := round q in
        if (n =? 0)%Z
        then (if PrimFloat.get_sign x then PrimFloat.neg_zero else PrimFloat.zero)
        else ofZ n
      else x
  | None => x
  end.

Definition ceil (x : number) : number := integral Qceiling x.
Definition floor (x : number) : number := integral Qfloor x.
Definition trunc (x : number) : number := integral Qtrunc x.

(** [x % 1]: the remainder has the sign of the dividend and is exact. *)
Definition rem1 (x : number) : number :=
  match exact x with
  | Some _ => sub x (trunc x)
  | None => NaN
  end.

(** Truthiness of a number in a condition. *)
Definition truthy (x : number) : bool :=
  negb (PrimFloat.is_nan x) && negb (eqb x PrimFloat.zero).

Definition max2 (x y : number) : number :=
  if PrimFloat.is_nan x || PrimFloat.is_nan y then NaN
  else if ltb x y then y else x.

Definition min2 (x y : number) : number :=
  if PrimFloat.is_nan x || PrimFloat.is_nan y then NaN
  else if ltb y x then y else x.

(** [Math.max(...l)] and [Math.min(...l)]. *)
Definition mathMax (l : list number) : number := fold_right max2 NegInf l.
Definition mathMin (l : list number) : number := fold_right min2 PosInf l.

(** The array index denoted by a number, when it is one. *)
Definition asIndex (x : number) : option nat :=
  match exact x with
  | Some q =>
      if Qeq_bool q (inject_Z (Qfloor q)) && (0 <=? Qfloor q)%Z
      then Some (Z.to_nat (Qfloor q)) else None
  | None => None
  end.

(** [l[i]] read as a number. *)
Definition getNum (l : list number) (i : number) : number :=
  match asIndex i with
  | Some n => toNumber (nth_error l n)
  | None => NaN
  end.

(** [l.indexOf(v)] on an array of numbers (strict equality). *)
Definition indexOf (l : list number) (v : number) : Z :=
  findIndex (fun e => eqb e v) l.

(** A relative index of [slice] on an array of length [len]. *)
Definition relIndex (len : Z) (x : number) : Z :=
  match exact x with
  | Some q =>
      let t := Qtrunc q in
      if (t <? 0)%Z then Z.max (len + t) 0 else Z.min t len
  | None =>
      if PrimFloat.is_nan x || PrimFloat.get_sign x then 0%Z else len
  end.

(** [l.slice(s, e)] *)
Definition slice {A} (l : list A) (s e : number) : list A :=
  let len := Z.of_nat (List.length l) in
  let k := relIndex len s in
  let final := relIndex len e in
  firstn (Z.to_nat (final - k)) (skipn (Z.to_nat k) l).

(** Stable sort with a comparator returning a number. *)
Fixpoint insertBy {A} (cmp : A -> A -> number) (a : A) (l : list A) : list A :=
  match l with
  | [] => [a]
  | b :: l' =>
      if ltb PrimFloat.zero (cmp a b) then b :: insertBy cmp a l' else a :: b :: l'
  end.

Definition sortBy {A} (cmp : A -> A -> number) (l : list A) : list A :=
  fold_right (insertBy cmp) [] l.

(** The values taken by [i] in [for (let i = from; i < bound; i++)], for
    [from] at most 2^53; [None] when the loop never exits ([i++] leaves
    2^53 unchanged, so a bound above it is never reached). *)
Definition loopIndices (from : Z) (bound : number) : option (list Z) :=
  match exact bound with
  | Some q =>
      if (2 ^ 53 <? Qceiling q)%Z then None
      else Some (map (fun k => (from + Z.of_nat k)%Z)
                     (seq 0 (Z.to_nat (Qceiling q - from))))
  | None =>
      if PrimFloat.is_nan bound || PrimFloat.get_sign bound then Some [] else None
  end.

Declare Scope double_scope.
Delimit Scope double_scope with double.
Infix "+" := add : double_scope.
Infix "-" := sub : double_scope.
Infix "*" := mul : double_scope.
Infix "/" := div : double_scope.
Infix "<?" := ltb : double_scope.
Infix ">?" := gtb : double_scope.

(** [class DimensionPoint] *)
Module DimensionPoint.
Record t : Type := mk { x : number; z : number }.
End DimensionPoint.

(** [class Section] *)
Record MSection : Type := {
  points : list DimensionPoint.t;
  machiningPoints : list DimensionPoint.t;
  length : number;
  maxDiameter : number
}.

Section Arithmetic.

(** [global.stickout] *)
Variable stickout : number.

(** [new Section(points)] *)
Definition newSection (pts : list DimensionPoint.t) : MSection :=
  let len := mathMax (map DimensionPoint.z pts) in
  let copies :=
    map (fun point =>
           DimensionPoint.mk (DimensionPoint.x point)
                             (neg (DimensionPoint.z point) + len)%double) pts in
  let sorted :=
    sortBy (fun a b => (DimensionPoint.z b - DimensionPoint.z a)%double) copies in
  {| points := pts;
     machiningPoints :=
       map (fun point =>
              DimensionPoint.mk (DimensionPoint.x point)
                                (DimensionPoint.z point - stickout)%double) sorted;
     length := len;
     maxDiameter := mathMax (map DimensionPoint.x pts) |}.

(** [organizedPoints] *)
Fixpoint organize (xPoints zPoints : list number) : list DimensionPoint.t :=
  match xPoints with
  | [] => []
  | x :: xs =>
      DimensionPoint.mk x (toNumber (hd_error zPoints))
      :: organize xs (tl zPoints)
  end.

(** The end of section [i]: [endIndex] and the [endPoint] pair. *)
Definition sectionEnd (xPoints zPoints : list number) (i : Z)
  : number * (number * number) :=
  let boundary := (ofZ (i + 1) * stickout)%double in
  if (indexOf zPoints boundary =? -1)%Z then
    let firstIndexInNext :=
      ofZ (findIndex (fun element => (element >? boundary)%double) zPoints) in
    let before := (firstIndexInNext - ofZ 1)%double in
    let endIndex :=
      (before
       + (boundary - getNum zPoints before)
         / (getNum zPoints firstIndexInNext - getNum zPoints before))%double in
    (endIndex,
     ((getNum xPoints before
       + rem1 endIndex
         * (getNum xPoints firstIndexInNext - getNum xPoints before))%double,
      (getNum zPoints before
       + rem1 endIndex
         * (getNum zPoints firstIndexInNext - getNum zPoints before))%double))
  else
    let endIndex := ofZ (indexOf zPoints boundary) in
    (endIndex, (getNum xPoints endIndex, getNum zPoints endIndex)).

(** [includedPoints] of one section, with z taken relative to [shift]. *)
Definition includedPoints (organizedPoints : list DimensionPoint.t)
  (shift startIndex : number) (startPoint : number * number)
  (endIndex : number) (endPoint : option (number * number))
  : list DimensionPoint.t :=
  ((if truthy (rem1 startIndex)
    then [DimensionPoint.mk (fst startPoint) (snd startPoint - shift)%double]
    else [])
   ++ map (fun point =>
             DimensionPoint.mk (DimensionPoint.x point)
                               (DimensionPoint.z point - shift)%double)
          (slice organizedPoints (ceil startIndex) (floor endIndex + ofZ 1)%double)
   ++ match endPoint with
      | Some e =>
          if truthy (rem1 endIndex)
          then [DimensionPoint.mk (fst e) (snd e - shift)%double]
          else []
      | None => []
      end)%list.

(** The loop over all but the last section. *)
Fixpoint sectionLoop (xPoints zPoints : list number) (idx : list Z)
  (startIndex : number) (startPoint : number * number)
  : list MSection * (number * (number * number)) :=
  match idx with
  | [] => ([], (startIndex, startPoint))
  | i :: rest =>
      let '(endIndex, endPoint) := sectionEnd xPoints zPoints i in
      let section :=
        newSection
          (includedPoints (organize xPoints zPoints)
             (ofZ i * stickout)%double startIndex startPoint endIndex
             (Some endPoint)) in
      let '(sections, final) :=
        sectionLoop xPoints zPoints rest endIndex endPoint in
      (section :: sections, final)
  end.

(** [interpolatePoints]; [None] when the section loop never exits. *)
Definition interpolatePoints (xPoints zPoints : list number)
  : option (list MSection) :=
  let fullLength := mathMax zPoints in
  let numSections := ceil (fullLength / stickout)%double in
  let organizedPoints := organize xPoints zPoints in
  match loopIndices 0 (numSections - ofZ 1)%double with
  | None => None
  | Some idx =>
      let '(sections, (startIndex, startPoint)) :=
        sectionLoop xPoints zPoints idx (ofZ 0)
          (toNumber (hd_error xPoints), toNumber (hd_error zPoints)) in
      let endIndex := ofZ (Z.of_nat (List.length organizedPoints) - 1) in
      Some (sections
            ++ [newSection
                  (includedPoints organizedPoints
                     ((numSections - ofZ 1) * stickout)%double
                     startIndex startPoint endIndex None)])%list
  end.

End Arithmetic.

(** The finish-spaced copy of a contour point:
    [new DimensionPoint(point.x + 2 * U, point.z)]. *)
Definition finishSpaced (U : number) (point : DimensionPoint.t)
  : DimensionPoint.t :=
  DimensionPoint.mk (DimensionPoint.x point + ofZ 2 * U)%double
                    (DimensionPoint.z point).

(** [genMultiPassPoints]; [None] when the pass loop never exits. *)
Definition genMultiPassPoints (pts : list DimensionPoint.t)
  (startX I : number) : option (list (list DimensionPoint.t)) :=
  let xVals := map DimensionPoint.x pts in
  let numPasses := ceil ((startX - mathMin xVals) / (ofZ 2 * I))%double in
  let xDeltas := map (fun val => ((startX - val) / numPasses)%double) xVals in
  match loopIndices 1 numPasses with
  | None => None
  | Some passIndices =>
      Some (map (fun i =>
                   map (fun dp =>
                          DimensionPoint.mk (startX - ofZ i * fst dp)%double
                                            (DimensionPoint.z (snd dp)))
                       (combine xDeltas pts))
                passIndices
            ++ [pts])%list
  end.

(** *** Vocabulary of the statements on doubles *)

(** The integer a double stands for, when it stands for one. *)
Definition integer (x : number) : option Z :=
  match exact x with
  | Some q =>
      if Qeq_bool q (inject_Z (Qceiling q)) then Some (Qceiling q) else None
  | None => None
  end.

(** The pass subdivision as [simG75] asks for it: the finish-spaced contour,
    started from its own largest x. *)
Definition simPasses (U I : number) (pts : list DimensionPoint.t)
  : option (list (list DimensionPoint.t)) :=
  genMultiPassPoints (map (finishSpaced U) pts)
    (mathMax (map DimensionPoint.x (map (finishSpaced U) pts))) I.

(** [numPasses] in that call: [Math.ceil((startX - Math.min(...xVals)) /
    (2 * I))] over the finish-spaced contour. *)
Definition numPasses (U I : number) (pts : list DimensionPoint.t) : number :=
  let xVals := map DimensionPoint.x (map (finishSpaced U) pts) in
  ceil ((mathMax xVals - mathMin xVals) / (ofZ 2 * I))%double.

End Double.
(* ================================================================== *)
(** ** A decimal printer for concrete runs                             *)
(* ================================================================== *)

(** Up to [fuel] digits of the decimal expansion of a fraction in [0,1). *)
Fixpoint fracDigits (fuel : nat) (r : Q) : string :=
  match fuel with
  | O => ""
  | S fuel' =>
      if Qeq_bool r 0 then ""
      else
        let r10 := r * 10 in
        let d := Qfloor r10 in
        NilZero.string_of_uint (N.to_uint (Z.to_N d))
        ++ fracDigits fuel' (Qred (r10 - inject_Z d))
  end.

(** Prints a terminating decimal exactly, as the host language prints the
    decimals of the examples below. *)
Definition showNumber (x : number) : string :=
  match x with
  | NaN => "NaN"
  | PosInf => "Infinity"
  | NegInf => "-Infinity"
  | Fin q =>
      let a := Qabs q in
      let whole := Qfloor a in
      let frac := fracDigits 20 (Qred (a - inject_Z whole)) in
      (if Qle_bool 0 q then "" else "-")
      ++ NilZero.string_of_uint (N.to_uint (Z.to_N whole))
      ++ (if String.eqb frac "" then "" else "." ++ frac)
  end.

(* ================================================================== *)
(** ** Vocabulary of the statements                                    *)
(* ================================================================== *)

(** [m] leaves [state.position] alone, whatever its outcome. *)
Definition keepsPosition {A} (m : M A) : Prop :=
  forall st, position (snd (m st)) = position st.

(** [m] returns a value (it neither throws nor loops). *)
Definition returns {A} (m : M A) : Prop :=
  forall st, exists a, fst (m st) = Ret a.

(** A number that is neither NaN nor an infinity. *)
Definition finite (x : number) : Prop :=
  match x with Fin _ => True | _ => False end.

(** A point given by two rationals, as a point of the program. *)
Definition pointQ (p : Q * Q) : DimensionPoint.t :=
  DimensionPoint.mk (Fin (fst p)) (Fin (snd p)).

(** Largest and smallest element of a non-empty list of rationals. *)
Fixpoint Qmaxl (a : Q) (l : list Q) : Q :=
  match l with
  | [] => a
  | b :: l' => Qmax a (Qmaxl b l')
  end.

Fixpoint Qminl (a : Q) (l : list Q) : Q :=
  match l with
  | [] => a
  | b :: l' => Qmin a (Qminl b l')
  end.

(** The offset contour in the spec's words: every x increased by 2 U. *)
Definition offsetContour (U : Q) (pts : list (Q * Q)) : list (Q * Q) :=
  map (fun p => (fst p + 2 * U, snd p)%Q) pts.

(** N = ceil((startX - min x) / (2 I)) over the offset contour, startX being
    its largest x. *)
Definition passCount (U I : Q) (pts : list (Q * Q)) : Z :=
  match map fst (offsetContour U pts) with
  | [] => 0%Z
  | a :: l => Qceiling ((Qmaxl a l - Qminl a l) / (2 * I))
  end.


(** The pass subdivision as [simG75] asks for it: the finish-spaced contour,
    started from its own largest x. *)
Definition simPasses (U I : number) (pts : list DimensionPoint.t)
  : option (list (list DimensionPoint.t)) :=
  genMultiPassPoints (map (finishSpaced U) pts)
    (mathMax (map DimensionPoint.x (map (finishSpaced U) pts))) I.

(** The comment carried by the entry move of the simulated contour cycle. *)
Definition simulatedComment (comment : option string) : string :=
  "Simulated G75 Contour cycle"
  ++ match comment with None => "" | Some c => " - " ++ c end.

(** A state in which no position is known and the last command was not a
    linear move: the initial state is one, and so is the state left by a
    completed section. *)
Definition Quiet (st : State) : Prop :=
  position st = position state0 /\ lastGCode st <> "01".

(** Two outcomes of [genCode] that agree except for the date line. *)
Definition sameButDate (numToString : number -> string) (d1 d2 : Date)
  (o1 o2 : Result string) : Prop :=
  (exists msg, o1 = Ret msg /\ o2 = Ret msg)
  \/ (exists before after,
        o1 = Ret (before ++ dateLine numToString d1 ++ after)
        /\ o2 = Ret (before ++ dateLine numToString d2 ++ after)).

(** The diameters and locations that [genCode] hands to the segmenter. *)
Definition segmenterInput (diameterList : list (list Cell))
  (optLocationList : option (list (list Cell)))
  : option (list number * list number) :=
  match cleanInput diameterList optLocationList with
  | inl _ => None
  | inr (diameterPoints, locationPoints, _) =>
      Some (orientPoints diameterPoints locationPoints)
  end.

(** A range of one row of numeric cells. *)
Definition row (l : list Q) : list (list Cell) := [map (fun q => CNum (Fin q)) l].

(** Two sections of a one-inch part for concrete runs: the first fits a
    half-inch stock, the second does not. *)
Definition fittingSection : MSection :=
  newSection global (map pointQ [(0.3, 0); (0.4, 1)]).

Definition oversizeSection : MSection :=
  newSection global (map pointQ [(0.4, 0); (0.6, 1)]).

Definition someDate : Date :=
  {| getMonth := 10; getDate := 2; getFullYear := 2026 |}.

(** [m] never throws. *)
Definition neverThrows {A} (m : M A) : Prop :=
  forall st e, fst (m st) <> Throw e.

Definition mapResult {A B} (f : A -> B) (r : Result A) : Result B :=
  match r with
  | Ret a => Ret (f a)
  | Throw e => Throw e
  | Diverge => Diverge
  end.

(** The end index that the segmenter computes for a boundary [b] lying
    between the measured positions [zp] (at index [n]) and [zn] (next). *)
Definition fractionalIndex (n : nat) (b zp zn : Q) : Q :=
  (inject_Z (Z.of_nat (S n)) + - (1)) + (b + - zp) / (zn + - zp).

(** The boundary that closes section [i] of a part cut every [L]. *)
Definition boundary (L : Q) (i : Z) : Q := inject_Z (i + 1) * L.

(** Numeric equality of points and of lists of points ([===] on both
    coordinates). *)
Definition samePoint (p q : DimensionPoint.t) : bool :=
  eqb (DimensionPoint.x p) (DimensionPoint.x q)
  && eqb (DimensionPoint.z p) (DimensionPoint.z q).

Fixpoint samePoints (l1 l2 : list DimensionPoint.t) : bool :=
  match l1, l2 with
  | [], [] => true
  | p :: l1', q :: l2' => samePoint p q && samePoints l1' l2'
  | _, _ => false
  end.

Definition noPoint : DimensionPoint.t := DimensionPoint.mk NaN NaN.

(** Measured points in ascending order of position, strictly. *)
Definition ascending (pts : list (Q * Q)) : Prop :=
  StronglySorted (fun p q => snd p < snd q) pts.

(** Position tests on a measured point. *)
Definition zBelow (b : Q) (p : Q * Q) : bool := negb (Qle_bool b (snd p)).
Definition zUpTo (b : Q) (p : Q * Q) : bool := Qle_bool (snd p) b.
Definition zWithin (b b' : Q) (p : Q * Q) : bool :=
  Qle_bool b (snd p) && Qle_bool (snd p) b'.

(** The same measured point: equal diameter and equal position. *)
Definition sameMeasure (p q : Q * Q) : bool :=
  Qeq_bool (fst q) (fst p) && Qeq_bool (snd q) (snd p).

(** What the segmenter knows of a boundary [b] once it has located it: an
    index that counts the measured points below and up to [b], fractional
    exactly when no measured point stands at [b], in which case the point
    kept with it is a synthesized point at position [b]. *)
Definition Cut (pts : list (Q * Q)) (b : Q) (index : number)
  (point : number * number) : Prop :=
  exists q,
    index = Fin q /\ 0 <= q
    /\ Qceiling q = Z.of_nat (List.length (filter (zBelow b) pts))
    /\ (Qfloor q + 1)%Z = Z.of_nat (List.length (filter (zUpTo b) pts))
    /\ (truthy (rem1 index) = true ->
        Forall (fun p => ~ snd p == b) pts
        /\ exists x' z', point = (Fin x', Fin z') /\ z' == b)
    /\ (truthy (rem1 index) = false -> exists p, In p pts /\ snd p == b).

(** The same for the end of a section, whose end point is absent for the
    last section. *)
Definition EndCut (pts : list (Q * Q)) (b : Q) (index : number)
  (point : option (number * number)) : Prop :=
  match point with
  | Some ep => Cut pts b index ep
  | None =>
      exists q,
        index = Fin q /\ 0 <= q
        /\ (Qfloor q + 1)%Z = Z.of_nat (List.length (filter (zUpTo b) pts))
        /\ exists p, In p pts /\ snd p == b
  end.

(** A boundary point of a section in absolute coordinates: none when a
    measured point stands at the boundary, one synthesized point otherwise. *)
Definition BoundaryPart (pts : list (Q * Q)) (b : Q) (part : list (Q * Q))
  : Prop :=
  (part = [] /\ exists p, In p pts /\ snd p == b)
  \/ (exists x' z', part = [(x', z')] /\ z' == b
                    /\ Forall (fun p => ~ snd p == b) pts).

(** The points of the section between [b] and [b'], in absolute
    coordinates. *)
Definition SectionContent (pts : list (Q * Q)) (b b' : Q)
  (content : list (Q * Q)) : Prop :=
  exists startPart endPart,
    content = (startPart ++ filter (zWithin b b') pts ++ endPart)%list
    /\ BoundaryPart pts b startPart
    /\ BoundaryPart pts b' endPart.

(** A point of a section taken back by [c] along z. *)
Definition shifted (c : Q) (p : Q * Q) : DimensionPoint.t :=
  pointQ (fst p, snd p + - c).

(** A section of the program that holds the content of the span from [b]
    to [b'], each point taken back by (a number equal to) [b]. *)
Definition SectionOK (pts : list (Q * Q)) (b b' : Q) (section : MSection)
  : Prop :=
  exists c content,
    c == b
    /\ points section = map (shifted c) content
    /\ SectionContent pts b b' content.

(** The largest position of a list of measured points. *)
Definition maxZ (pts : list (Q * Q)) : Q :=
  match map snd pts with
  | [] => 0
  | a :: l => Qmaxl a l
  end.

(** The upper end of section [k] out of [n], in absolute position. *)
Definition sectionUpper (L : Q) (pts : list (Q * Q)) (n k : nat) : Q :=
  if (S k <? n)%nat then inject_Z (Z.of_nat k + 1) * L else maxZ pts.

(** The lower end of section [k], in absolute position. *)
Definition sectionLower (L : Q) (k : nat) : Q := inject_Z (Z.of_nat k) * L.

(** A point of a section is the measured point [p] once the section's z
    offset is undone: same diameter, same absolute position. *)
Definition appearsAt (p : Q * Q) (offset : Q) (d : DimensionPoint.t) : bool :=
  eqb (DimensionPoint.x d) (Fin (fst p))
  && eqb (DimensionPoint.z d + Fin offset)%js (Fin (snd p)).

(** How many times the measured point [p] appears in a section. *)
Definition occurrences (p : Q * Q) (offset : Q) (section : MSection) : nat :=
  List.length (filter (appearsAt p offset) (points section)).

(** The positions of a section increase strictly. *)
Definition increasing (zs : list number) : Prop :=
  StronglySorted (fun a b => (a <? b)%js = true) zs.

(** Three measurements for concrete runs: one stands on the boundary at
    1.0, the boundary at 2.0 falls between the last two. *)
Definition measuredPart : list (Q * Q) := [(0.30, 0); (0.35, 1.0); (0.40, 2.5)].

(* ================================================================== *)
(** ** Vocabulary for the pass subdivision and the printed text        *)
(* ================================================================== *)

(** The shipped constants with the native contour cycle switched on. *)
Definition nativeGlobal : Global := {|
  depths_max := depths_max global;
  depths_min := depths_min global;
  xClearance := xClearance global;
  zClearance := zClearance global;
  colletShift := colletShift global;
  feed := feed global;
  rpm := rpm global;
  stickout := stickout global;
  decimals := decimals global;
  G75Functional := true
|}.

Section Text.

Variable numToString : number -> string.
Variable g : Global.

(** The X and Z words of a target. *)
Definition xzWords (x z : number) : string :=
  "X" ++ fmt numToString g x ++ "Z" ++ fmt numToString g z.

(** One line of two axis words per contour point. *)
Definition contourLines (pts : list DimensionPoint.t) : string :=
  fold_right
    (fun point rest =>
       xzWords (DimensionPoint.x point) (DimensionPoint.z point) ++ nl ++ rest)
    "" pts.

(** The lines of a taper along [first :: rest]: the first line with the
    given mode and feed words, one line per further point, and the move
    out to the largest diameter plus the clearance. *)
Definition taperText (mode feedword : string) (first : DimensionPoint.t)
  (rest : list DimensionPoint.t) : string :=
  mode ++ xzWords (DimensionPoint.x first) (DimensionPoint.z first)
  ++ feedword ++ nl
  ++ contourLines rest
  ++ "X" ++ fmt numToString g
              (mathMax (map DimensionPoint.x (first :: rest)) + xClearance g)%js
  ++ nl.

(** The text of the contour cycle inside a section. *)
Definition cycleText (stockDiameter : number) (section : MSection) : string :=
  xzWords (stockDiameter + xClearance g)%js
          (length section - stickout g + zClearance g)%js
  ++ "F" ++ fmt numToString g (feed g)
  ++ (if G75Functional g then
        "(Beginning G75 contour cycle)" ++ nl
        ++ "G75"
        ++ "I" ++ fmt numToString g (depths_max g / Fin 2)%js
        ++ "U" ++ fmt numToString g (depths_max g / Fin 4)%js
        ++ "F" ++ fmt numToString g (feed g) ++ nl
        ++ contourLines (machiningPoints section) ++ "RF" ++ nl
      else
        "(Simulated G75 Contour cycle)" ++ nl ++ "undefined").

(** The text of one section, for a section that has a machining point. *)
Definition sectionText (stockDiameter : number) (section : MSection) : string :=
  match machiningPoints section with
  | [] => ""
  | first :: rest =>
      "G94F" ++ numToString (rpm g * feed g)%js ++ nl
      ++ "G01" ++ xzWords (DimensionPoint.x first + xClearance g)%js
                          (DimensionPoint.z first) ++ nl
      ++ "M01(Move stock to appropriate position)" ++ nl
      ++ xzWords (stockDiameter + xClearance g)%js
                 (length section - stickout g + zClearance g)%js ++ nl
      ++ "M03S" ++ numToString (rpm g) ++ nl
      ++ "G95F" ++ numToString (feed g) ++ nl
      ++ cycleText stockDiameter section
      ++ taperText "G01"
           (if G75Functional g then "" else "F" ++ fmt numToString g (feed g))
           first rest
      ++ "G00" ++ xzWords (stockDiameter + xClearance g)%js (zClearance g) ++ nl
      ++ "M05" ++ nl
  end.

(** The sections of a program, numbered from [i + 1]. *)
Fixpoint sectionsText (stockDiameter : number) (sections : list MSection)
  (i : Z) : string :=
  match sections with
  | [] => ""
  | section :: rest =>
      "(Section " ++ numToString (ofZ (i + 1)) ++ ")" ++ nl
      ++ sectionText stockDiameter section
      ++ sectionsText stockDiameter rest (i + 1)
  end.

(** A whole program. *)
Definition programText (stockDiameter : number) (sections : list MSection)
  (counts : Z * Z) (date : Date) : string :=
  headBefore numToString g stockDiameter counts
  ++ dateLine numToString date
  ++ headAfter numToString g
  ++ sectionsText stockDiameter sections 0
  ++ "M30" ++ nl.

(** The emitter state after a rapid move. *)
Definition afterRapid (st : State) : State :=
  {| lastGCode := "00"; lastFeed := Fin (-1); position := position st |}.

End Text.

(** A point whose diameter is a finite number between [lo] and [hi]. *)
Definition diameterWithin (lo hi : Q) (d : DimensionPoint.t) : Prop :=
  exists x, DimensionPoint.x d = Fin x /\ lo <= x /\ x <= hi.

(** A section that the section cycle can cut from the given stock: it
    passes the diameter check, has a point, and its contour cycle returns
    (the native cycle always does, the simulated one when its pass loop
    exits). *)
Definition machinable (g : Global) (stockDiameter : number)
  (section : MSection) : Prop :=
  (maxDiameter section >? stockDiameter)%js = false
  /\ machiningPoints section <> []
  /\ (G75Functional g = true
      \/ exists passes,
           simPasses (depths_max g / Fin 4)%js (depths_max g / Fin 2)%js
             (machiningPoints section) = Some passes).

(** The measurements of [testGenCode] as points, for concrete runs. *)
Definition testPoints : list (Q * Q) :=
  combine testGenCode_diameterPoints testGenCode_locations.

(** Two targets for concrete runs of the emitter. *)
Definition targetX : MovePoint.t :=
  MovePoint.mk (Some (Fin 1)) undefined undefined.

Definition targetXZ : MovePoint.t :=
  MovePoint.mk (Some (Fin 2)) undefined (Some (Fin 3)).

(** A contour of three points for concrete runs. *)
Definition taperedContour : list (Q * Q) :=
  [(0.30, 0); (0.35, -0.5); (0.40, -1)].

(** The first section of the [testGenCode] measurements. *)
Definition testSection : MSection :=
  newSection global
    (map pointQ [(0.335, 0); (0.340, 0.25); (0.345, 0.5); (0.348, 0.75);
                 (0.350, 1)]).

(** Measurements as doubles, for concrete runs: the part of [measuredPart],
    measured at 0, 1.0 and 2.5; and six diameters whose last position,
    1.0000000000000002, is the double next above the first boundary. *)
Definition measuredDiameters : list Double.number :=
  [Double.decimal 30 100; Double.decimal 35 100; Double.decimal 40 100].

Definition measuredPositions : list Double.number :=
  [Double.ofZ 0; Double.ofZ 1; Double.decimal 25 10].

Definition steppedDiameters : list Double.number :=
  [Double.decimal 30 100; Double.decimal 31 100; Double.decimal 32 100;
   Double.decimal 33 100; Double.decimal 34 100; Double.decimal 40 100].

Definition steppedPositions : list Double.number :=
  [Double.ofZ 0; Double.decimal 1 10; Double.decimal 2 10;
   Double.decimal 3 10; Double.decimal 4 10;
   PrimFloat.next_up (Double.ofZ 1)].

(** A contour of two diameters as doubles, given in hundredths. *)
Definition contourOf (d1 d2 : Z) : list Double.DimensionPoint.t :=
  [Double.DimensionPoint.mk (Double.decimal d1 100) (Double.ofZ 0);
   Double.DimensionPoint.mk (Double.decimal d2 100) (Double.ofZ (-1))].
(* ================================================================== *)
(** ** Facts about strings and the effect monad                        *)
(* ================================================================== *)

Lemma append_assoc (a b c : string) : (a ++ b) ++ c = a ++ (b ++ c).
Proof. induction a as [|ch a IH]; simpl; [reflexivity | now rewrite IH]. Qed.

Lemma append_empty_r (a : string) : a ++ "" = a.
Proof. induction a as [|ch a IH]; simpl; [reflexivity | now rewrite IH]. Qed.

Lemma keepsPosition_ret {A} (a : A) : keepsPosition (ret a).
Proof. intros st; reflexivity. Qed.

Lemma keepsPosition_bind {A B} (m : M A) (f : A -> M B) :
  keepsPosition m -> (forall a, keepsPosition (f a)) -> keepsPosition (bind m f).
Proof.
  intros Hm Hf st. unfold bind. specialize (Hm st).
  destruct (m st) as [[a|e|] st1]; simpl in *; try assumption.
  now rewrite Hf.
Qed.

Lemma returns_ret {A} (a : A) : returns (ret a).
Proof. intros st; now exists a. Qed.

Lemma returns_bind {A B} (m : M A) (f : A -> M B) :
  returns m -> (forall a, returns (f a)) -> returns (bind m f).
Proof.
  intros Hm Hf st. unfold bind. destruct (Hm st) as [a Ha].
  destruct (m st) as [r st1]; simpl in Ha; subst r. apply Hf.
Qed.

Lemma keepsPosition_appendEach {A} (f : A -> M string) (l : list A) :
  (forall a, keepsPosition (f a)) -> keepsPosition (appendEach f l).
Proof.
  intros Hf; induction l as [|a l IH]; simpl.
  - apply keepsPosition_ret.
  - apply keepsPosition_bind; [apply Hf|]. intros s.
    apply keepsPosition_bind; [apply IH|]. intros r. apply keepsPosition_ret.
Qed.

Lemma returns_appendEach {A} (f : A -> M string) (l : list A) :
  (forall a, returns (f a)) -> returns (appendEach f l).
Proof.
  intros Hf; induction l as [|a l IH]; simpl.
  - apply returns_ret.
  - apply returns_bind; [apply Hf|]. intros s.
    apply returns_bind; [apply IH|]. intros r. apply returns_ret.
Qed.

Lemma keepsPosition_get : keepsPosition get.
Proof. intros st; reflexivity. Qed.

Lemma returns_get : returns get.
Proof. intros st; now exists st. Qed.

Create HintDb emitter.

(** Structural proof steps for the two properties above. *)
Ltac keeps_position :=
  repeat first [ solve [auto with emitter]
               | apply keepsPosition_appendEach; intros ?
               | apply keepsPosition_bind; [|intros ?] ].

Ltac returns_value :=
  repeat first [ solve [auto with emitter]
               | apply returns_appendEach; intros ?
               | apply returns_bind; [|intros ?] ].

#[local] Hint Resolve keepsPosition_ret keepsPosition_get returns_ret returns_get
  : emitter.

(* ================================================================== *)
(** ** The command emitter                                             *)
(* ================================================================== *)

Section EmitterFacts.

Variable numToString : number -> string.
Variable g : Global.

Local Abbreviation rapid := (rapidPosition numToString g).
Local Abbreviation linear := (linearInterpolation numToString g).

Lemma rapidPosition_keepsPosition point comment :
  keepsPosition (rapid point comment).
Proof.
  intros st. unfold rapidPosition.
  destruct (atPosition point st); reflexivity.
Qed.

Lemma linearInterpolation_keepsPosition point f comment :
  keepsPosition (linear point f comment).
Proof.
  intros st. unfold linearInterpolation.
  destruct (atPosition point st); reflexivity.
Qed.

Lemma rapidPosition_returns point comment :
  returns (rapid point comment).
Proof.
  intros st. unfold rapidPosition.
  destruct (atPosition point st); eexists; reflexivity.
Qed.

Lemma linearInterpolation_returns point f comment :
  returns (linear point f comment).
Proof.
  intros st. unfold linearInterpolation.
  destruct (atPosition point st); eexists; reflexivity.
Qed.

(** The contract of [rapidPosition] as the code has it: a no-op that
    touches nothing when no present axis differs from [state.position];
    otherwise one line, the mode remembered as ["00"] and the feed
    forgotten.  [state.position] is read and never written. *)
Lemma rapidPosition_contract point comment st :
  rapid point comment st
  = if atPosition point st then (Ret "", st)
    else (Ret (modeWord "00" st ++ axisWords numToString g point st
               ++ commentWord comment ++ nl),
          {| lastGCode := "00"; lastFeed := Fin (-1);
             position := position st |}).
Proof. reflexivity. Qed.

Lemma linearInterpolation_contract point f comment st :
  linear point f comment st
  = if atPosition point st then (Ret "", st)
    else (Ret (modeWord "01" st ++ axisWords numToString g point st
               ++ feedWord numToString g f st ++ commentWord comment ++ nl),
          {| lastGCode := "01";
             lastFeed := match f with None => Fin (-1) | Some v => v end;
             position := position st |}).
Proof. reflexivity. Qed.

(** An axis that is present can never equal an unset position. *)
Lemma atPosition_unset_x point st :
  pos_x (position st) = undefined ->
  MovePoint.axesPresent_x point = true ->
  atPosition point st = false.
Proof.
  intros Hpos Hx. unfold atPosition. rewrite Hpos, Hx.
  unfold MovePoint.axesPresent_x in Hx.
  destruct (MovePoint.x point); [reflexivity | discriminate].
Qed.

Lemma atPosition_unset_z point st :
  pos_z (position st) = undefined ->
  MovePoint.axesPresent_z point = true ->
  atPosition point st = false.
Proof.
  intros Hpos Hz. unfold atPosition. rewrite Hpos, Hz.
  unfold MovePoint.axesPresent_z in Hz.
  destruct (MovePoint.z point); [simpl | discriminate].
  now rewrite !andb_false_r.
Qed.

End EmitterFacts.

(* ================================================================== *)
(** ** Finite numbers                                                  *)
(* ================================================================== *)

Lemma finite_inv x : finite x -> exists q, x = Fin q.
Proof. destruct x; simpl; intros H; try contradiction. now eexists. Qed.

Lemma max2_finite a b : finite a -> finite b -> finite (max2 a b).
Proof.
  destruct a, b; simpl; try contradiction; intros _ _.
  now destruct (q ?= q0)%Q.
Qed.

Lemma min2_finite a b : finite a -> finite b -> finite (min2 a b).
Proof.
  destruct a, b; simpl; try contradiction; intros _ _.
  now destruct (q0 ?= q)%Q.
Qed.

Lemma mathMax_finite l : l <> [] -> Forall finite l -> finite (mathMax l).
Proof.
  induction l as [|a l IH]; [congruence|]. intros _ Hall.
  inversion Hall as [|? ? Ha Hl]; subst. simpl.
  destruct l as [|b l].
  - destruct a; simpl in *; try contradiction. exact I.
  - apply max2_finite; [assumption | apply IH; [discriminate | assumption]].
Qed.

Lemma mathMin_finite l : l <> [] -> Forall finite l -> finite (mathMin l).
Proof.
  induction l as [|a l IH]; [congruence|]. intros _ Hall.
  inversion Hall as [|? ? Ha Hl]; subst. simpl.
  destruct l as [|b l].
  - destruct a; simpl in *; try contradiction. exact I.
  - apply min2_finite; [assumption | apply IH; [discriminate | assumption]].
Qed.

Lemma Qeq_bool_false_iff a b : Qeq_bool a b = false <-> ~ a == b.
Proof.
  split.
  - intros H E. apply Qeq_bool_iff in E. congruence.
  - intros H. destruct (Qeq_bool a b) eqn:E; [|reflexivity].
    apply Qeq_bool_iff in E. contradiction.
Qed.

Lemma div_finite a b : ~ b == 0 -> div (Fin a) (Fin b) = Fin (a / b).
Proof. intros H. simpl. apply Qeq_bool_false_iff in H. now rewrite H. Qed.

(* ================================================================== *)
(** ** The contour cycle                                               *)
(* ================================================================== *)

Section CycleFacts.

Variable numToString : number -> string.
Variable g : Global.

Local Abbreviation rapid := (rapidPosition numToString g).
Local Abbreviation linear := (linearInterpolation numToString g).

#[local] Hint Resolve rapidPosition_keepsPosition linearInterpolation_keepsPosition
  rapidPosition_returns linearInterpolation_returns : emitter.

Lemma basicTaper_keepsPosition pts f :
  keepsPosition (basicTaper numToString g pts f).
Proof.
  unfold basicTaper.
  keeps_position.
Qed.

Lemma basicTaper_returns pts f : returns (basicTaper numToString g pts f).
Proof.
  unfold basicTaper.
  returns_value.
Qed.

#[local] Hint Resolve basicTaper_keepsPosition basicTaper_returns : emitter.

Lemma diverge_keepsPosition {A} : keepsPosition (@diverge A).
Proof. intros st; reflexivity. Qed.

Lemma simG75_code_keepsPosition pts I U F :
  keepsPosition (simG75_code numToString g pts I U F).
Proof.
  unfold simG75_code. apply keepsPosition_bind; [auto with emitter|].
  intros st0. destruct (genMultiPassPoints _ _ _); [|apply diverge_keepsPosition].
  keeps_position.
Qed.

(** The simulated cycle returns unless the pass loop never exits. *)
Lemma simG75_code_outcome pts I U F st :
  match simPasses U I pts with
  | Some _ => exists code, fst (simG75_code numToString g pts I U F st) = Ret code
  | None => fst (simG75_code numToString g pts I U F st) = Diverge
  end.
Proof.
  unfold simPasses, simG75_code. unfold bind at 1, get.
  destruct (genMultiPassPoints _ _ I) as [passes|]; [|reflexivity].
  apply returns_bind; [|intros ?]; returns_value.
Qed.

End CycleFacts.

(* ================================================================== *)
(** ** Pass subdivision                                                *)
(* ================================================================== *)

Lemma max2_Fin a b : max2 (Fin a) (Fin b) = Fin (Qmax a b).
Proof.
  unfold Qmax, GenericMinMax.gmax. simpl. now destruct (a ?= b)%Q.
Qed.

Lemma min2_Fin a b : min2 (Fin a) (Fin b) = Fin (Qmin a b).
Proof.
  unfold Qmin, GenericMinMax.gmin. simpl.
  rewrite <- (Qcompare_antisym a b). now destruct (a ?= b)%Q.
Qed.

Lemma mathMax_Fin a l : mathMax (map Fin (a :: l)) = Fin (Qmaxl a l).
Proof.
  revert a; induction l as [|b l IH]; intros a; [reflexivity|].
  change (max2 (Fin a) (mathMax (map Fin (b :: l))) = Fin (Qmaxl a (b :: l))).
  rewrite IH. apply max2_Fin.
Qed.

Lemma mathMin_Fin a l : mathMin (map Fin (a :: l)) = Fin (Qminl a l).
Proof.
  revert a; induction l as [|b l IH]; intros a; [reflexivity|].
  change (min2 (Fin a) (mathMin (map Fin (b :: l))) = Fin (Qminl a (b :: l))).
  rewrite IH. apply min2_Fin.
Qed.

Lemma finishSpaced_pointQ U p :
  finishSpaced (Fin U) (pointQ p) = pointQ (fst p + 2 * U, snd p)%Q.
Proof. reflexivity. Qed.

Lemma finishSpaced_contour U pts :
  map (finishSpaced (Fin U)) (map pointQ pts) = map pointQ (offsetContour U pts).
Proof.
  unfold offsetContour. rewrite !map_map. apply map_ext. intros p.
  apply finishSpaced_pointQ.
Qed.

Lemma pointQ_xs pts : map DimensionPoint.x (map pointQ pts) = map Fin (map fst pts).
Proof. rewrite !map_map. reflexivity. Qed.

Lemma pointQ_zs pts : map DimensionPoint.z (map pointQ pts) = map Fin (map snd pts).
Proof. rewrite !map_map. reflexivity. Qed.

(** C4 as stated fails on a contour of constant diameter: N is 0 and the
    subdivision still holds one pass, the offset contour itself. *)
Lemma flat_contour_has_one_pass :
  passCount 0.01 0.02 [(0.3, 0); (0.3, -1)] = 0%Z
  /\ simPasses (Fin 0.01) (Fin 0.02) (map pointQ [(0.3, 0); (0.3, -1)])
     = Some [map (finishSpaced (Fin 0.01)) (map pointQ [(0.3, 0); (0.3, -1)])]
  /\ List.length [map (finishSpaced (Fin 0.01)) (map pointQ [(0.3, 0); (0.3, -1)])]
     <> Z.to_nat 0.
Proof. split; [reflexivity|]. split; [reflexivity | discriminate]. Qed.

(* ================================================================== *)
(** ** The contour cycle under the simulated policy                    *)
(* ================================================================== *)

Lemma genMultiPassPoints_returns pts startX I :
  ceil ((startX - mathMin (map DimensionPoint.x pts)) / (Fin 2 * I))%js <> PosInf ->
  exists passes, genMultiPassPoints pts startX I = Some passes.
Proof.
  intros H. unfold genMultiPassPoints.
  destruct (ceil _) as [q| | |] eqn:E; simpl; try (eexists; reflexivity).
  congruence.
Qed.

Lemma finishSpaced_xs_finite U pts :
  finite U ->
  Forall (fun point => finite (DimensionPoint.x point)) pts ->
  Forall finite (map DimensionPoint.x (map (finishSpaced U) pts)).
Proof.
  intros HU Hall. rewrite map_map. apply Forall_map.
  eapply Forall_impl; [|exact Hall]. intros p. simpl.
  destruct U, (DimensionPoint.x p); simpl in *; intros Hp;
    (contradiction || exact I).
Qed.

(** With finite diameters, a finite allowance and a positive depth the pass
    loop exits. *)
Lemma simPasses_returns (U I : Q) pts :
  0 < I ->
  Forall (fun point => finite (DimensionPoint.x point)) pts ->
  exists passes, simPasses (Fin U) (Fin I) pts = Some passes.
Proof.
  intros HI Hall. unfold simPasses. apply genMultiPassPoints_returns.
  pose proof (finishSpaced_xs_finite (Fin U) pts Logic.I Hall) as Hfin.
  assert (Hne : ~ 2 * I == 0) by (intros E; lra).
  change (Fin 2 * Fin I)%js with (Fin (2 * I)).
  destruct (map DimensionPoint.x (map (finishSpaced (Fin U)) pts)) as [|a l] eqn:E.
  - simpl. unfold signQ. destruct (2 * I ?= 0)%Q eqn:C; simpl; try discriminate.
    apply Qlt_alt in C. lra.
  - assert (Hnil : a :: l <> []) by discriminate.
    destruct (finite_inv _ (mathMax_finite _ Hnil Hfin)) as [hi ->].
    destruct (finite_inv _ (mathMin_finite _ Hnil Hfin)) as [lo ->].
    change (Fin hi - Fin lo)%js with (Fin (hi - lo)).
    rewrite (div_finite _ _ Hne). discriminate.
Qed.

Section ContourCycle.

Variable numToString : number -> string.
Variable g : Global.

Lemma contourCycle_simulated_outcome startPoint pts subroutineID
  finishBufferRadius f comment st line st1 :
  G75Functional g = false ->
  linearInterpolation numToString g (DimensionPoint.getMovePoint startPoint)
    (Some f) (Some (simulatedComment comment)) st = (Ret line, st1) ->
  match simPasses finishBufferRadius (depths_max g / Fin 2)%js pts with
  | Some _ =>
      fst (contourCycle numToString g startPoint pts subroutineID
             finishBufferRadius f comment st) = Ret (line ++ "undefined")
  | None =>
      fst (contourCycle numToString g startPoint pts subroutineID
             finishBufferRadius f comment st) = Diverge
  end.
Proof.
  intros Hflag Hline.
  assert (E : contourCycle numToString g startPoint pts subroutineID
                finishBufferRadius f comment st
              = let (r, st2) :=
                  simG75_code numToString g pts (depths_max g / Fin 2)%js
                    finishBufferRadius f st1 in
                (match r with
                 | Ret _ => Ret (line ++ "undefined")
                 | Throw e => Throw e
                 | Diverge => Diverge
                 end, st2)).
  { unfold contourCycle. rewrite Hflag. fold (simulatedComment comment).
    unfold bind at 1. rewrite Hline. unfold simG75, bind.
    destruct (simG75_code numToString g pts _ finishBufferRadius f st1)
      as [[code|e|] st2]; reflexivity. }
  rewrite E.
  pose proof (simG75_code_outcome numToString g pts
                (depths_max g / Fin 2)%js finishBufferRadius f st1) as Hout.
  destruct (simG75_code numToString g pts _ finishBufferRadius f st1)
    as [r st2].
  revert Hout.
  destruct (simPasses finishBufferRadius (depths_max g / Fin 2)%js pts);
    simpl; intros Hout.
  - destruct Hout as [code ->]. reflexivity.
  - subst r. reflexivity.
Qed.

(** C5: with [G75Functional] off, the text returned by [contourCycle] is
    the entry linear-move line followed by the literal "undefined": the
    string assembled by [simG75] is dropped because [simG75] returns
    nothing.  The call returns whenever the pass loop exits, which it does
    for finite diameters, a finite allowance and a positive maximal depth
    (as shipped). *)
Theorem contourCycle_simulated_text startPoint pts subroutineID
  finishBufferRadius f comment st :
  G75Functional g = false ->
  exists line,
    fst (linearInterpolation numToString g
           (DimensionPoint.getMovePoint startPoint) (Some f)
           (Some (simulatedComment comment)) st) = Ret line
    /\ (fst (contourCycle numToString g startPoint pts subroutineID
               finishBufferRadius f comment st) = Ret (line ++ "undefined")
        \/ fst (contourCycle numToString g startPoint pts subroutineID
                  finishBufferRadius f comment st) = Diverge)
    /\ (forall d, depths_max g = Fin d -> 0 < d ->
        finite finishBufferRadius ->
        Forall (fun point => finite (DimensionPoint.x point)) pts ->
        fst (contourCycle numToString g startPoint pts subroutineID
               finishBufferRadius f comment st) = Ret (line ++ "undefined")).
Proof.
  intros Hflag.
  destruct (linearInterpolation numToString g
              (DimensionPoint.getMovePoint startPoint) (Some f)
              (Some (simulatedComment comment)) st) as [r st1] eqn:Hlin.
  destruct (linearInterpolation_returns numToString g
              (DimensionPoint.getMovePoint startPoint) (Some f)
              (Some (simulatedComment comment)) st) as [line Hline].
  rewrite Hlin in Hline. simpl in Hline. subst r.
  pose proof (contourCycle_simulated_outcome startPoint pts subroutineID
                finishBufferRadius f comment st line st1 Hflag Hlin) as Hout.
  exists line. split; [reflexivity|]. split.
  - destruct (simPasses _ _ pts); [now left | now right].
  - intros d Hd Hpos HU Hall. rewrite Hd in Hout.
    destruct (finite_inv _ HU) as [u ->].
    assert (Hhalf : (Fin d / Fin 2)%js = Fin (d / 2)) by reflexivity.
    rewrite Hhalf in Hout.
    destruct (simPasses_returns u (d / 2) pts) as [passes Hp];
      [apply Qlt_shift_div_l; lra | exact Hall |].
    now rewrite Hp in Hout.
Qed.

End ContourCycle.

Lemma contourCycle_simulated_text_witness :
  G75Functional global = false
  /\ depths_max global = Fin 0.040
  /\ 0 < 0.040
  /\ fst (contourCycle showNumber global
            (DimensionPoint.mk (Fin 0.51) (Fin 0.1))
            (map pointQ [(0.3, 0); (0.4, -1)]) (Fin 100) (Fin 0.01)
            (Fin 0.002) None state0)
     = Ret ("G01X0.51Z0.1F0.002(Simulated G75 Contour cycle)" ++ nl
            ++ "undefined").
Proof.
  split; [reflexivity|]. split; [reflexivity|]. split; [reflexivity|].
  destruct (contourCycle_simulated_text showNumber global
              (DimensionPoint.mk (Fin 0.51) (Fin 0.1))
              (map pointQ [(0.3, 0); (0.4, -1)]) (Fin 100) (Fin 0.01)
              (Fin 0.002) None state0 eq_refl) as (line & Hline & _ & Hret).
  rewrite (Hret 0.040 eq_refl eq_refl Logic.I).
  - vm_compute in Hline. injection Hline as <-. reflexivity.
  - repeat constructor.
Defined.

(** The shipped cycle on a two-point contour, in full. *)
Example contourCycle_shipped_run :
  fst (contourCycle showNumber global (DimensionPoint.mk (Fin 0.51) (Fin 0.1))
         (map pointQ [(0.3, 0); (0.4, -1)]) (Fin 100) (Fin 0.01) (Fin 0.002)
         None state0)
  = Ret ("G01X0.51Z0.1F0.002(Simulated G75 Contour cycle)" ++ nl ++ "undefined").
Proof. vm_compute. reflexivity. Qed.

(* ================================================================== *)
(** ** Elision in the command emitter                                  *)
(* ================================================================== *)

Lemma eqb_refl (x : number) : x <> NaN -> eqb x x = true.
Proof.
  destruct x; simpl; try reflexivity; [|congruence].
  intros _. apply Qeq_bool_iff. reflexivity.
Qed.

(** C6: [rapidPosition] at the target (x = 1, z = 2) from the initial state
    prints the line and forgets the feed, but [state.position] is still
    unset afterwards: the code reads [state.position] and never writes it,
    so the last-known position is not updated for the present axes. *)
Theorem rapidPosition_leaves_position_unset :
  rapidPosition showNumber global
    (MovePoint.mk (Some (Fin 1)) undefined (Some (Fin 2))) None state0
  = (Ret ("G00X1Z2" ++ nl),
     {| lastGCode := "00";
        lastFeed := Fin (-1);
        position :=
          {| pos_x := undefined; pos_y := undefined; pos_z := undefined |} |}).
Proof. vm_compute. reflexivity. Qed.

Section Elision.

Variable numToString : number -> string.
Variable g : Global.

(** Of two consecutive [linearInterpolation] calls given the same feed (any
    number but NaN), when the first call emits a line the second call's
    line holds no feed word (nor the mode word): it is empty, or the axis
    words and the comment alone. *)
Lemma linearInterpolation_feed_not_repeated p1 p2 f c1 c2 st :
  f <> NaN ->
  atPosition p1 st = false ->
  fst (linearInterpolation numToString g p2 (Some f) c2
         (snd (linearInterpolation numToString g p1 (Some f) c1 st)))
  = Ret ""
  \/ fst (linearInterpolation numToString g p2 (Some f) c2
            (snd (linearInterpolation numToString g p1 (Some f) c1 st)))
     = Ret (axisWords numToString g p2
              (snd (linearInterpolation numToString g p1 (Some f) c1 st))
            ++ commentWord c2 ++ nl).
Proof.
  intros Hf Hp1. rewrite (linearInterpolation_contract _ _ p1), Hp1.
  simpl snd. rewrite linearInterpolation_contract.
  destruct (atPosition p2 _); [now left | right].
  unfold modeWord, feedWord. simpl lastGCode. simpl lastFeed.
  rewrite (eqb_refl f Hf). reflexivity.
Qed.

(** The cycle emitters that reset the remembered mode. *)
Lemma boxCycle_resets_mode startPoint endPoint finishBufferRadius f comment st :
  lastGCode (snd (boxCycle numToString g startPoint endPoint
                    finishBufferRadius f comment st)) = "None".
Proof.
  unfold boxCycle, bind.
  destruct (rapidPosition numToString g _ None st) as [r st1] eqn:E.
  pose proof (rapidPosition_returns numToString g
                (DimensionPoint.getMovePoint startPoint) None st) as [a Ha].
  rewrite E in Ha. simpl in Ha. subst r. reflexivity.
Qed.

Lemma contourCycle_native_resets_mode startPoint pts subroutineID
  finishBufferRadius f comment st :
  G75Functional g = true ->
  lastGCode (snd (contourCycle numToString g startPoint pts subroutineID
                    finishBufferRadius f comment st)) = "None".
Proof.
  intros Hflag. unfold contourCycle, bind. rewrite Hflag.
  destruct (linearInterpolation numToString g _ (Some f) _ st) as [r st1] eqn:E.
  pose proof (linearInterpolation_returns numToString g
                (DimensionPoint.getMovePoint startPoint) (Some f)
                (Some "Beginning G75 contour cycle") st) as [a Ha].
  rewrite E in Ha. simpl in Ha. subst r. reflexivity.
Qed.

(** After a reset, a motion command that emits anything restates its mode. *)
Lemma modeWord_after_reset code st :
  lastGCode st = "None" -> code <> "None" -> modeWord code st = "G" ++ code.
Proof.
  intros H Hc. unfold modeWord. rewrite H.
  destruct (String.eqb_spec "None" code); [congruence | reflexivity].
Qed.

(** A target with an axis is never at an unknown position. *)
Lemma atPosition_unknown point st :
  position st = position state0 ->
  MovePoint.axesPresent_x point || MovePoint.axesPresent_y point
  || MovePoint.axesPresent_z point = true ->
  atPosition point st = false.
Proof.
  intros Hpos Haxis. unfold atPosition. rewrite Hpos.
  unfold MovePoint.axesPresent_x, MovePoint.axesPresent_y,
    MovePoint.axesPresent_z in *.
  destruct (MovePoint.x point), (MovePoint.y point), (MovePoint.z point);
    simpl in *; try reflexivity; discriminate.
Qed.

(** The linear half of the elision rule as the program meets it: where no
    position is known, two consecutive linear moves to targets with an
    axis, given the same feed, print the feed word once. *)
Lemma linearInterpolation_same_feed p1 p2 f c1 c2 st :
  f <> NaN ->
  position st = position state0 ->
  MovePoint.axesPresent_x p1 || MovePoint.axesPresent_y p1
  || MovePoint.axesPresent_z p1 = true ->
  fst (linearInterpolation numToString g p2 (Some f) c2
         (snd (linearInterpolation numToString g p1 (Some f) c1 st)))
  = Ret ""
  \/ fst (linearInterpolation numToString g p2 (Some f) c2
            (snd (linearInterpolation numToString g p1 (Some f) c1 st)))
     = Ret (axisWords numToString g p2
              (snd (linearInterpolation numToString g p1 (Some f) c1 st))
            ++ commentWord c2 ++ nl).
Proof.
  intros Hf Hpos Haxis. apply linearInterpolation_feed_not_repeated; [exact Hf|].
  now apply atPosition_unknown.
Qed.

End Elision.

(** C9: the same rapid move, to x = 1, issued twice from the initial state.
    The second call should return the empty string.  The code prints the
    axis again: the first call left [state.position] unset, so the target
    still differs from it; only the mode word is left out. *)
Theorem rapidPosition_repeated_prints_again :
  fst (rapidPosition showNumber global targetX None state0)
  = Ret ("G00X1" ++ nl)
  /\ fst (rapidPosition showNumber global targetX None
            (snd (rapidPosition showNumber global targetX None state0)))
     = Ret ("X1" ++ nl)
  /\ "X1" ++ nl <> "".
Proof. repeat split; try (vm_compute; reflexivity). discriminate. Qed.

(** Two linear moves with the same feed from the initial state: the feed
    word is printed once. *)
Example linearInterpolation_same_feed_run :
  fst (linearInterpolation showNumber global targetX (Some (Fin 5)) None state0)
  = Ret ("G01X1F5" ++ nl)
  /\ fst (linearInterpolation showNumber global targetXZ (Some (Fin 5)) None
            (snd (linearInterpolation showNumber global targetX (Some (Fin 5))
                    None state0)))
     = Ret ("X2Z3" ++ nl).
Proof. split; vm_compute; reflexivity. Qed.

(** The box-cut branch of [simG75], which no run of the program takes: it
    needs a known [state.position.x], and [state.position] is never
    written.  Started by hand from a state that knows the cutter at
    x = 0.51, beyond the finish-spaced contour (0.32), after a linear move,
    the assembled string opens with the G74 line and goes on with the
    first move of the pass printed without a mode word.  The string is
    dropped by [simG75] in any case. *)
Example simG75_box_cut_branch :
  simG75_code showNumber global [DimensionPoint.mk (Fin 0.3) (Fin (-1))]
    (Fin 0.02) (Fin 0.01) (Fin 0.002)
    {| lastGCode := "01";
       lastFeed := Fin 0.002;
       position :=
         {| pos_x := Some (Fin 0.51); pos_y := undefined;
            pos_z := Some (Fin 0.1) |} |}
  = (Ret ("G74X0.32Z-1I0.02U0F0.002" ++ nl
          ++ "X0.32Z-1" ++ nl
          ++ "X0.33" ++ nl
          ++ "X0.33F0.002" ++ nl
          ++ "G00Z0.2" ++ nl),
     {| lastGCode := "00";
        lastFeed := Fin (-1);
        position :=
          {| pos_x := Some (Fin 0.51); pos_y := undefined;
             pos_z := Some (Fin 0.1) |} |}).
Proof. vm_compute. reflexivity. Qed.

(* ================================================================== *)
(** ** One section                                                     *)
(* ================================================================== *)

Lemma bind_Ret_inv {A B} (m : M A) (f : A -> M B) st b st2 :
  bind m f st = (Ret b, st2) ->
  exists a st1, m st = (Ret a, st1) /\ f a st1 = (Ret b, st2).
Proof.
  unfold bind. destruct (m st) as [[a|e|] st1]; intros H; try discriminate.
  now exists a, st1.
Qed.

Lemma keepsPosition_run {A} (m : M A) st r st1 :
  keepsPosition m -> m st = (r, st1) -> position st1 = position st.
Proof. intros H E. specialize (H st). now rewrite E in H. Qed.

Lemma returns_run {A} (m : M A) st :
  returns m -> exists a st1, m st = (Ret a, st1).
Proof.
  intros H. destruct (H st) as [a Ha]. destruct (m st) as [r st1].
  simpl in Ha. subst r. now exists a, st1.
Qed.

Section SectionFacts.

Variable numToString : number -> string.
Variable g : Global.

#[local] Hint Resolve rapidPosition_keepsPosition linearInterpolation_keepsPosition
  rapidPosition_returns linearInterpolation_returns
  basicTaper_keepsPosition basicTaper_returns
  simG75_code_keepsPosition : emitter.

Lemma resetLastGCode_keepsPosition : keepsPosition resetLastGCode.
Proof. intros st; reflexivity. Qed.

Lemma resetLastGCode_returns : returns resetLastGCode.
Proof. intros st; now exists tt. Qed.

#[local] Hint Resolve resetLastGCode_keepsPosition resetLastGCode_returns : emitter.

Lemma contourCycle_keepsPosition startPoint pts subroutineID
  finishBufferRadius f comment :
  keepsPosition (contourCycle numToString g startPoint pts subroutineID
                   finishBufferRadius f comment).
Proof.
  unfold contourCycle, simG75. destruct (G75Functional g); keeps_position.
Qed.

(** The contour cycle returns when the native cycle is used or the pass
    loop of the simulated one exits. *)
Lemma contourCycle_returns startPoint pts subroutineID
  finishBufferRadius f comment passes :
  simPasses finishBufferRadius (depths_max g / Fin 2)%js pts = Some passes ->
  returns (contourCycle numToString g startPoint pts subroutineID
             finishBufferRadius f comment).
Proof.
  intros Hp. unfold contourCycle. destruct (G75Functional g) eqn:Hflag.
  - returns_value.
  - apply returns_bind; [auto with emitter|]. intros code.
    apply returns_bind; [|intros v; apply returns_ret].
    unfold simG75. apply returns_bind; [|intros ?; apply returns_ret].
    intros st.
    pose proof (simG75_code_outcome numToString g pts
                  (depths_max g / Fin 2)%js finishBufferRadius f st) as Hout.
    now rewrite Hp in Hout.
Qed.

(** The three ways a section cycle can go. *)
Lemma sectionCycle_over startDiameter section subroutineID st :
  (maxDiameter section >? startDiameter)%js = true ->
  sectionCycle numToString g startDiameter section subroutineID st
  = (Throw (RangeError rangeErrorMessage), st).
Proof. intros H. unfold sectionCycle. now rewrite H. Qed.

Lemma sectionCycle_empty startDiameter section subroutineID st :
  (maxDiameter section >? startDiameter)%js = false ->
  machiningPoints section = [] ->
  sectionCycle numToString g startDiameter section subroutineID st
  = (Throw (TypeError typeErrorMessage), st).
Proof. intros H E. unfold sectionCycle. now rewrite H, E. Qed.

Lemma sectionCycle_keepsPosition startDiameter section subroutineID :
  keepsPosition (sectionCycle numToString g startDiameter section subroutineID).
Proof.
  unfold sectionCycle. destruct (_ >? _)%js; [intros st; reflexivity|].
  destruct (machiningPoints section) as [|first rest] eqn:E;
    [intros st; reflexivity|].
  pose proof contourCycle_keepsPosition. keeps_position.
Qed.

Lemma sectionCycle_returns (d : Q) startDiameter section subroutineID :
  depths_max g = Fin d -> 0 < d ->
  Forall (fun point => finite (DimensionPoint.x point)) (machiningPoints section) ->
  (maxDiameter section >? startDiameter)%js = false ->
  machiningPoints section <> [] ->
  returns (sectionCycle numToString g startDiameter section subroutineID).
Proof.
  intros Hd Hpos Hfin Hover Hne. unfold sectionCycle. rewrite Hover.
  destruct (machiningPoints section) as [|first rest] eqn:E; [congruence|].
  rewrite Hd.
  assert (Hhalf : (Fin d / Fin 2)%js = Fin (d / 2)) by reflexivity.
  assert (Hquarter : (Fin d / Fin 4)%js = Fin (d / 4)) by reflexivity.
  destruct (simPasses_returns (d / 4) (d / 2) (first :: rest)) as [passes Hp];
    [apply Qlt_shift_div_l; lra | exact Hfin |].
  rewrite Hquarter.
  assert (Hc : forall sp id f c,
             returns (contourCycle numToString g sp (first :: rest) id
                        (Fin (d / 4)) f c)).
  { intros. eapply contourCycle_returns. rewrite Hd, Hhalf. exact Hp. }
  returns_value.
Qed.

End SectionFacts.

(* ================================================================== *)
(** ** Program assembly: a section larger than the stock               *)
(* ================================================================== *)

Lemma list_eq_dec_nil {A} (l : list A) : {l = []} + {l <> []}.
Proof. destruct l; [now left | right; discriminate]. Qed.

Section Assembly.

Variable numToString : number -> string.
Variable g : Global.

Lemma sectionsFrom_throws (d : Q) stockDiameter sections :
  depths_max g = Fin d -> 0 < d ->
  Forall (fun section =>
            Forall (fun point => finite (DimensionPoint.x point))
                   (machiningPoints section)) sections ->
  Exists (fun section => (maxDiameter section >? stockDiameter)%js = true)
         sections ->
  forall i codeText st,
  exists e st',
    sectionsFrom numToString g stockDiameter sections i codeText st
    = (Throw e, st')
    /\ (Forall (fun section => machiningPoints section <> []) sections ->
        e = RangeError rangeErrorMessage).
Proof.
  intros Hd Hpos Hfin Hex.
  induction sections as [|section rest IH]; [inversion Hex|].
  intros i codeText st. simpl. unfold bind.
  inversion Hfin as [|? ? Hfin1 Hfin2]; subst.
  destruct (maxDiameter section >? stockDiameter)%js eqn:Hover.
  - rewrite (sectionCycle_over numToString g _ _ _ st Hover).
    eexists _, st. split; [reflexivity|]. reflexivity.
  - assert (Hrest : Exists (fun s => (maxDiameter s >? stockDiameter)%js = true)
                           rest)
      by (inversion Hex; subst; [congruence | assumption]).
    destruct (list_eq_dec_nil (machiningPoints section)) as [Hmp|Hne].
    + rewrite (sectionCycle_empty numToString g _ _ _ st Hover Hmp).
      eexists _, st. split; [reflexivity|].
      intros Hne. inversion Hne; subst. congruence.
    + destruct (returns_run _ st
                  (sectionCycle_returns numToString g d stockDiameter section
                     (ofZ ((i + 1) * 100)) Hd Hpos Hfin1 Hover Hne))
        as (code & st1 & Hrun).
      rewrite Hrun.
      destruct (IH Hfin2 Hrest (i + 1)%Z
                  ((codeText ++ "(Section " ++ numToString (ofZ (i + 1)) ++ ")"
                    ++ nl) ++ code) st1) as (e & st' & Hthrow & Hmsg).
      exists e, st'. split; [exact Hthrow|].
      intros Hall. inversion Hall; subst. now apply Hmsg.
Qed.

(** C1: a section whose largest diameter exceeds the stock diameter makes
    [sectionCycle] throw before it emits or remembers anything, and
    [genCode] then returns the message of the error alone: the header and
    the text of the earlier sections are discarded.  Diameters are finite
    numbers and the maximal depth is positive, so that no earlier section
    keeps the generator in its pass loop; the error is the range error
    unless an earlier section has no point at all. *)
Theorem over_diameter_section_yields_message_only (d : Q)
  stockDiameter sections counts date st :
  depths_max g = Fin d -> 0 < d ->
  Forall (fun section =>
            Forall (fun point => finite (DimensionPoint.x point))
                   (machiningPoints section)) sections ->
  Exists (fun section => (maxDiameter section >? stockDiameter)%js = true)
         sections ->
  (forall section subroutineID st',
     (maxDiameter section >? stockDiameter)%js = true ->
     sectionCycle numToString g stockDiameter section subroutineID st'
     = (Throw (RangeError rangeErrorMessage), st'))
  /\ exists e,
       fst (assemble numToString g stockDiameter sections counts date st)
       = Ret (message e)
       /\ (Forall (fun section => machiningPoints section <> []) sections ->
           e = RangeError rangeErrorMessage)
       /\ (forall diameterList optLocationList diameterPoints locationPoints,
             cleanInput diameterList optLocationList
             = inr (diameterPoints, locationPoints, counts) ->
             interpolatePoints g
               (fst (orientPoints diameterPoints locationPoints))
               (snd (orientPoints diameterPoints locationPoints))
             = Some sections ->
             fst (genCode numToString g stockDiameter diameterList
                    optLocationList date st) = Ret (message e)).
Proof.
  intros Hd Hpos Hfin Hex. split.
  - intros section subroutineID st' Hover. now apply sectionCycle_over.
  - destruct (sectionsFrom_throws d stockDiameter sections Hd Hpos Hfin Hex 0%Z
                (headBefore numToString g stockDiameter counts
                 ++ dateLine numToString date ++ headAfter numToString g) st)
      as (e & st' & Hthrow & Hmsg).
    assert (Hasm : fst (assemble numToString g stockDiameter sections counts
                          date st) = Ret (message e)).
    { unfold assemble, tryOrMessage. now rewrite Hthrow. }
    exists e. split; [exact Hasm|]. split; [exact Hmsg|].
    intros diameterList optLocationList diameterPoints locationPoints Hclean Hseg.
    unfold genCode. rewrite Hclean.
    destruct (orientPoints diameterPoints locationPoints) as [dps lps].
    simpl in Hseg. rewrite Hseg. exact Hasm.
Qed.

End Assembly.

Lemma over_diameter_section_yields_message_only_witness :
  depths_max global = Fin 0.040
  /\ 0 < 0.040
  /\ Forall (fun section =>
               Forall (fun point => finite (DimensionPoint.x point))
                      (machiningPoints section))
            [fittingSection; oversizeSection]
  /\ Exists (fun section => (maxDiameter section >? Fin 0.5)%js = true)
            [fittingSection; oversizeSection]
  /\ (forall section subroutineID st',
        (maxDiameter section >? Fin 0.5)%js = true ->
        sectionCycle showNumber global (Fin 0.5) section subroutineID st'
        = (Throw (RangeError rangeErrorMessage), st'))
  /\ exists e,
       fst (assemble showNumber global (Fin 0.5)
              [fittingSection; oversizeSection] (0%Z, (-1)%Z) someDate state0)
       = Ret (message e)
       /\ (Forall (fun section => machiningPoints section <> [])
                  [fittingSection; oversizeSection] ->
           e = RangeError rangeErrorMessage)
       /\ (forall diameterList optLocationList diameterPoints locationPoints,
             cleanInput diameterList optLocationList
             = inr (diameterPoints, locationPoints, (0%Z, (-1)%Z)) ->
             interpolatePoints global
               (fst (orientPoints diameterPoints locationPoints))
               (snd (orientPoints diameterPoints locationPoints))
             = Some [fittingSection; oversizeSection] ->
             fst (genCode showNumber global (Fin 0.5) diameterList
                    optLocationList someDate state0) = Ret (message e)).
Proof.
  assert (Hd : depths_max global = Fin 0.040) by reflexivity.
  assert (Hpos : 0 < 0.040) by reflexivity.
  assert (Hfin : Forall (fun section =>
                           Forall (fun point => finite (DimensionPoint.x point))
                                  (machiningPoints section))
                        [fittingSection; oversizeSection])
    by (repeat constructor).
  assert (Hex : Exists (fun section => (maxDiameter section >? Fin 0.5)%js = true)
                       [fittingSection; oversizeSection])
    by (apply Exists_cons_tl, Exists_cons_hd; reflexivity).
  split; [exact Hd|]. split; [exact Hpos|]. split; [exact Hfin|].
  split; [exact Hex|].
  exact (over_diameter_section_yields_message_only showNumber global 0.040
           (Fin 0.5) [fittingSection; oversizeSection] (0%Z, (-1)%Z) someDate
           state0 Hd Hpos Hfin Hex).
Defined.

(** The whole program on five measurements whose last two exceed the
    half-inch stock: the first section is generated, the second throws, and
    the message is all that comes back. *)
Example genCode_oversize_run :
  fst (genCode showNumber global (Fin 0.5)
         (row [0.3; 0.35; 0.4; 0.5; 0.6]) (Some (row [0; 0.5; 1; 1.5; 2]))
         someDate state0)
  = Ret rangeErrorMessage.
Proof. vm_compute. reflexivity. Qed.

(* ================================================================== *)
(** ** The emitter state across sections and across runs              *)
(* ================================================================== *)

Lemma neverThrows_ret {A} (a : A) : neverThrows (ret a).
Proof. intros st e; discriminate. Qed.

Lemma neverThrows_get : neverThrows get.
Proof. intros st e; discriminate. Qed.

Lemma neverThrows_diverge {A} : neverThrows (@diverge A).
Proof. intros st e; discriminate. Qed.

Lemma neverThrows_bind {A B} (m : M A) (f : A -> M B) :
  neverThrows m -> (forall a, neverThrows (f a)) -> neverThrows (bind m f).
Proof.
  intros Hm Hf st e. unfold bind. specialize (Hm st).
  destruct (m st) as [[a|e'|] st1]; simpl in *.
  - apply Hf.
  - now destruct (Hm e').
  - discriminate.
Qed.

Lemma neverThrows_appendEach {A} (f : A -> M string) (l : list A) :
  (forall a, neverThrows (f a)) -> neverThrows (appendEach f l).
Proof.
  intros Hf; induction l as [|a l IH]; simpl.
  - apply neverThrows_ret.
  - apply neverThrows_bind; [apply Hf|]. intros s.
    apply neverThrows_bind; [apply IH|]. intros r. apply neverThrows_ret.
Qed.

#[local] Hint Resolve neverThrows_ret neverThrows_get neverThrows_diverge
  : emitter.

Ltac never_throws :=
  repeat first [ solve [auto with emitter]
               | apply neverThrows_appendEach; intros ?
               | apply neverThrows_bind; [|intros ?] ].

Section Runs.

Variable numToString : number -> string.
Variable g : Global.

Lemma rapidPosition_neverThrows point comment :
  neverThrows (rapidPosition numToString g point comment).
Proof.
  intros st e. rewrite rapidPosition_contract.
  destruct (atPosition point st); discriminate.
Qed.

Lemma linearInterpolation_neverThrows point f comment :
  neverThrows (linearInterpolation numToString g point f comment).
Proof.
  intros st e. rewrite linearInterpolation_contract.
  destruct (atPosition point st); discriminate.
Qed.

Lemma resetLastGCode_neverThrows : neverThrows resetLastGCode.
Proof. intros st e; discriminate. Qed.

#[local] Hint Resolve rapidPosition_neverThrows linearInterpolation_neverThrows
  resetLastGCode_neverThrows
  rapidPosition_keepsPosition linearInterpolation_keepsPosition
  basicTaper_keepsPosition contourCycle_keepsPosition : emitter.

Lemma basicTaper_neverThrows pts f :
  neverThrows (basicTaper numToString g pts f).
Proof. unfold basicTaper. never_throws. Qed.

#[local] Hint Resolve basicTaper_neverThrows : emitter.

Lemma contourCycle_neverThrows startPoint pts subroutineID
  finishBufferRadius f comment :
  neverThrows (contourCycle numToString g startPoint pts subroutineID
                 finishBufferRadius f comment).
Proof.
  unfold contourCycle, simG75, simG75_code.
  destruct (G75Functional g); [never_throws|].
  apply neverThrows_bind; [auto with emitter|]. intros code.
  apply neverThrows_bind; [|auto with emitter].
  apply neverThrows_bind; [|auto with emitter].
  apply neverThrows_bind; [auto with emitter|]. intros st.
  destruct (genMultiPassPoints _ _ _); never_throws.
Qed.

#[local] Hint Resolve contourCycle_neverThrows : emitter.

Lemma Quiet_state0 : Quiet state0.
Proof. split; [reflexivity | discriminate]. Qed.

Lemma Quiet_pos_x st : Quiet st -> pos_x (position st) = undefined.
Proof. intros [H _]. now rewrite H. Qed.

(** From a quiet state, a linear move with an x target and no feed prints
    the same line and leaves the same state, whatever the quiet state. *)
Lemma linearInterpolation_quiet point comment st st' :
  Quiet st -> Quiet st' ->
  MovePoint.axesPresent_x point = true ->
  linearInterpolation numToString g point undefined comment st
  = linearInterpolation numToString g point undefined comment st'.
Proof.
  intros Hq Hq' Hx. rewrite !linearInterpolation_contract.
  rewrite (atPosition_unset_x point st (Quiet_pos_x st Hq) Hx).
  rewrite (atPosition_unset_x point st' (Quiet_pos_x st' Hq') Hx).
  destruct Hq as [Hp Hm], Hq' as [Hp' Hm'].
  unfold modeWord, axisWords. rewrite Hp, Hp'.
  destruct (String.eqb_spec (lastGCode st) "01"); [contradiction|].
  destruct (String.eqb_spec (lastGCode st') "01"); [contradiction|].
  reflexivity.
Qed.

(** A rapid move with an x target, issued where no position is known,
    leaves a quiet state. *)
Lemma rapidPosition_quiet point comment st r st1 :
  position st = position state0 ->
  MovePoint.axesPresent_x point = true ->
  rapidPosition numToString g point comment st = (r, st1) ->
  Quiet st1.
Proof.
  intros Hp Hx. rewrite rapidPosition_contract.
  rewrite (atPosition_unset_x point st); [|now rewrite Hp | exact Hx].
  intros H. injection H as _ <-. split; [exact Hp | discriminate].
Qed.

Lemma bind_cong {A B} (m : M A) (f : A -> M B) st st' :
  m st = m st' -> bind m f st = bind m f st'.
Proof. intros H. unfold bind. now rewrite H. Qed.

Lemma sectionCycle_quiet_eq startDiameter section subroutineID st st' :
  Quiet st -> Quiet st' ->
  (maxDiameter section >? startDiameter)%js = false ->
  machiningPoints section <> [] ->
  sectionCycle numToString g startDiameter section subroutineID st
  = sectionCycle numToString g startDiameter section subroutineID st'.
Proof.
  intros Hq Hq' Hover Hne. unfold sectionCycle. rewrite Hover.
  destruct (machiningPoints section) as [|first rest]; [congruence|].
  apply bind_cong. now apply linearInterpolation_quiet.
Qed.

Lemma sectionCycle_body_neverThrows startDiameter section subroutineID :
  (maxDiameter section >? startDiameter)%js = false ->
  machiningPoints section <> [] ->
  neverThrows (sectionCycle numToString g startDiameter section subroutineID).
Proof.
  intros Hover Hne. unfold sectionCycle. rewrite Hover.
  destruct (machiningPoints section) as [|first rest] eqn:Hmp; [congruence|].
  rewrite <- Hmp. never_throws.
Qed.

Lemma sectionCycle_Ret_quiet startDiameter section subroutineID st code st1 :
  position st = position state0 ->
  sectionCycle numToString g startDiameter section subroutineID st
  = (Ret code, st1) ->
  Quiet st1.
Proof.
  intros Hp. unfold sectionCycle.
  destruct (_ >? _)%js; [discriminate|].
  destruct (machiningPoints section) as [|first rest] eqn:Hmp; [discriminate|].
  rewrite <- Hmp. intros Hrun.
  apply bind_Ret_inv in Hrun. destruct Hrun as (a & sta & Ha & Hrun).
  apply bind_Ret_inv in Hrun. destruct Hrun as (b & stb & Hb & Hrun).
  apply bind_Ret_inv in Hrun. destruct Hrun as (c & stc & Hc & Hrun).
  apply bind_Ret_inv in Hrun. destruct Hrun as (d & std & Hd & Hrun).
  apply bind_Ret_inv in Hrun. destruct Hrun as (e & ste & He & Hrun).
  injection Hrun as _ <-.
  apply (keepsPosition_run _ _ _ _
           (linearInterpolation_keepsPosition _ _ _ _ _)) in Ha.
  apply (keepsPosition_run _ _ _ _
           (linearInterpolation_keepsPosition _ _ _ _ _)) in Hb.
  apply (keepsPosition_run _ _ _ _
           (contourCycle_keepsPosition _ _ _ _ _ _ _ _)) in Hc.
  apply (keepsPosition_run _ _ _ _
           (basicTaper_keepsPosition _ _ _ _)) in Hd.
  assert (Hp' : position std = position state0) by congruence.
  refine (rapidPosition_quiet _ _ _ _ _ Hp' _ He). reflexivity.
Qed.

(** A section cycle started in a quiet state: its outcome does not depend
    on which quiet state, a throw leaves the state as it was, and a
    completed cycle leaves a quiet state. *)
Lemma sectionCycle_quiet startDiameter section subroutineID st st' r st1 :
  Quiet st -> Quiet st' ->
  sectionCycle numToString g startDiameter section subroutineID st = (r, st1) ->
  match r with
  | Ret code =>
      Quiet st1
      /\ sectionCycle numToString g startDiameter section subroutineID st'
         = (Ret code, st1)
  | Throw e =>
      st1 = st
      /\ sectionCycle numToString g startDiameter section subroutineID st'
         = (Throw e, st')
  | Diverge =>
      fst (sectionCycle numToString g startDiameter section subroutineID st')
      = Diverge
  end.
Proof.
  intros Hq Hq' Hrun.
  destruct (maxDiameter section >? startDiameter)%js eqn:Hover.
  { rewrite (sectionCycle_over numToString g _ _ _ st Hover) in Hrun.
    injection Hrun as <- <-. split; [reflexivity|].
    now apply sectionCycle_over. }
  destruct (list_eq_dec_nil (machiningPoints section)) as [Hmp|Hne].
  { rewrite (sectionCycle_empty numToString g _ _ _ st Hover Hmp) in Hrun.
    injection Hrun as <- <-. split; [reflexivity|].
    now apply sectionCycle_empty. }
  rewrite <- (sectionCycle_quiet_eq startDiameter section subroutineID st st'
                Hq Hq' Hover Hne), Hrun.
  destruct r as [code|e|]; [|exfalso|reflexivity].
  - split; [|reflexivity].
    destruct Hq as [Hp _]. now apply sectionCycle_Ret_quiet in Hrun.
  - apply (sectionCycle_body_neverThrows startDiameter section subroutineID
             Hover Hne st e).
    now rewrite Hrun.
Qed.

(** The outcome of the loop over the sections is the same from any two
    quiet states. *)
Lemma sectionsFrom_quiet_eq stockDiameter sections i codeText st st' :
  Quiet st -> Quiet st' ->
  fst (sectionsFrom numToString g stockDiameter sections i codeText st')
  = fst (sectionsFrom numToString g stockDiameter sections i codeText st).
Proof.
  intros Hq Hq'. destruct sections as [|section rest]; [reflexivity|].
  simpl. unfold bind.
  destruct (sectionCycle numToString g stockDiameter section
              (ofZ ((i + 1) * 100)) st) as [r st2] eqn:Hrun.
  pose proof (sectionCycle_quiet _ _ _ st st' r st2 Hq Hq' Hrun) as H.
  destruct r as [code|e|].
  - destruct H as [_ ->]. reflexivity.
  - destruct H as [_ ->]. reflexivity.
  - destruct (sectionCycle numToString g stockDiameter section _ st')
      as [r' st2']. simpl in H. now subst r'.
Qed.

(** The loop leaves a quiet state when it returns or throws. *)
Lemma sectionsFrom_quiet_post stockDiameter sections :
  forall i codeText st r st1,
    Quiet st ->
    sectionsFrom numToString g stockDiameter sections i codeText st = (r, st1) ->
    r <> Diverge ->
    Quiet st1.
Proof.
  induction sections as [|section rest IH]; intros i codeText st r st1 Hq.
  - simpl. intros H _. now injection H as _ <-.
  - simpl. unfold bind.
    destruct (sectionCycle numToString g stockDiameter section
                (ofZ ((i + 1) * 100)) st) as [r2 st2] eqn:Hrun.
    pose proof (sectionCycle_quiet _ _ _ st st r2 st2 Hq Hq Hrun) as H.
    destruct r2 as [code|e|].
    + destruct H as [Hq2 _]. now apply IH.
    + destruct H as [-> _]. intros E _. now injection E as _ <-.
    + intros E. injection E as <- _. congruence.
Qed.

(** The text accumulated so far is a prefix of what the loop returns. *)
Lemma sectionsFrom_prefix stockDiameter sections :
  forall i before codeText st,
    sectionsFrom numToString g stockDiameter sections i (before ++ codeText) st
    = (mapResult (append before)
         (fst (sectionsFrom numToString g stockDiameter sections i codeText st)),
       snd (sectionsFrom numToString g stockDiameter sections i codeText st)).
Proof.
  induction sections as [|section rest IH]; intros i before codeText st.
  - reflexivity.
  - simpl. unfold bind.
    destruct (sectionCycle numToString g stockDiameter section
                (ofZ ((i + 1) * 100)) st) as [[code|e|] st2]; try reflexivity.
    rewrite !append_assoc. rewrite (IH (i + 1)%Z before). reflexivity.
Qed.

Lemma assemble_outcome stockDiameter sections counts date st :
  assemble numToString g stockDiameter sections counts date st
  = (match fst (sectionsFrom numToString g stockDiameter sections 0 "" st) with
     | Ret body =>
         Ret (headBefore numToString g stockDiameter counts
              ++ dateLine numToString date
              ++ (headAfter numToString g ++ body ++ "M30" ++ nl))
     | Throw e => Ret (message e)
     | Diverge => Diverge
     end,
     snd (sectionsFrom numToString g stockDiameter sections 0 "" st)).
Proof.
  unfold assemble, tryOrMessage.
  rewrite <- (append_empty_r (headBefore numToString g stockDiameter counts
                              ++ dateLine numToString date
                              ++ headAfter numToString g)) at 1.
  rewrite sectionsFrom_prefix.
  destruct (sectionsFrom numToString g stockDiameter sections 0 "" st)
    as [[body|e|] st1]; cbn [mapResult fst snd]; try reflexivity.
  now rewrite !append_assoc.
Qed.

Lemma genCode_outcome stockDiameter diameterList optLocationList date st :
  genCode numToString g stockDiameter diameterList optLocationList date st
  = match cleanInput diameterList optLocationList with
    | inl msg => (Ret msg, st)
    | inr (diameterPoints, locationPoints, counts) =>
        match interpolatePoints g
                (fst (orientPoints diameterPoints locationPoints))
                (snd (orientPoints diameterPoints locationPoints)) with
        | None => (Diverge, st)
        | Some sections =>
            assemble numToString g stockDiameter sections counts date st
        end
    end.
Proof.
  unfold genCode.
  destruct (cleanInput diameterList optLocationList)
    as [msg|[[diameterPoints locationPoints] counts]]; [reflexivity|].
  destruct (orientPoints diameterPoints locationPoints) as [dps lps].
  cbn [fst snd]. destruct (interpolatePoints g dps lps); reflexivity.
Qed.


End Runs.


(** The state the first run leaves behind is not the initial state, and the
    second run prints the same text all the same. *)
Example genCode_twice_run :
  lastGCode (snd (genCode showNumber global (Fin 0.5) (row [0.3; 0.35; 0.4])
                    (Some (row [0; 0.5; 1.5])) someDate state0)) = "00"
  /\ fst (genCode showNumber global (Fin 0.5) (row [0.3; 0.35; 0.4])
            (Some (row [0; 0.5; 1.5])) someDate
            (snd (genCode showNumber global (Fin 0.5) (row [0.3; 0.35; 0.4])
                    (Some (row [0; 0.5; 1.5])) someDate state0)))
     = fst (genCode showNumber global (Fin 0.5) (row [0.3; 0.35; 0.4])
              (Some (row [0; 0.5; 1.5])) someDate state0).
Proof. split; vm_compute; reflexivity. Qed.

(* ================================================================== *)
(** ** Orientation of the input                                        *)
(* ================================================================== *)

(** Whatever the diameters, the orientation step hands the locations on
    unchanged. *)
Lemma orientPoints_locations diameterPoints locationPoints :
  snd (orientPoints diameterPoints locationPoints) = locationPoints.
Proof. unfold orientPoints. now destruct (_ >? _)%js. Qed.

(** C10: diameters 0.4, 0.35, 0.3 measured at 0, 0.25 and 1 (free end
    last).  The diameters reach the segmenter reversed, the locations as
    they were given: the diameter 0.35, measured 0.75 from the free end,
    is placed at 0.25 instead of 0.75 (the value [-point + taperLength]
    that the code computes for it and drops). *)
Theorem orientation_keeps_locations :
  segmenterInput (row [0.4; 0.35; 0.3]) (Some (row [0; 0.25; 1]))
  = Some ([Fin 0.3; Fin 0.35; Fin 0.4], [Fin 0; Fin 0.25; Fin 1]).
Proof. reflexivity. Qed.

(* ================================================================== *)
(** ** Arithmetic of indices                                           *)
(* ================================================================== *)

Lemma Qfloor_between (q : Q) (k : Z) :
  inject_Z k <= q -> q < inject_Z (k + 1) -> Qfloor q = k.
Proof.
  intros Hlo Hhi.
  pose proof (Qfloor_le q) as H1. pose proof (Qlt_floor q) as H2.
  assert (Ha : (Qfloor q < k + 1)%Z).
  { rewrite Zlt_Qlt. eapply Qle_lt_trans; eassumption. }
  assert (Hb : (k < Qfloor q + 1)%Z).
  { rewrite Zlt_Qlt. eapply Qle_lt_trans; eassumption. }
  lia.
Qed.

Lemma Qceiling_between (q : Q) (k : Z) :
  inject_Z (k - 1) < q -> q <= inject_Z k -> Qceiling q = k.
Proof.
  intros Hlo Hhi. unfold Qceiling.
  assert (H : Qfloor (- q) = (- k)%Z).
  { apply Qfloor_between.
    - rewrite inject_Z_opp. lra.
    - replace (- k + 1)%Z with (- (k - 1))%Z by lia. rewrite inject_Z_opp. lra. }
  rewrite H. lia.
Qed.

Lemma Qtrunc_nonneg (q : Q) : 0 <= q -> Qtrunc q = Qfloor q.
Proof.
  destruct q as [n d]. unfold Qle, Qtrunc, Qfloor. simpl. intros H.
  apply Z.quot_div_nonneg; lia.
Qed.

Lemma Qtrunc_Z (k : Z) : Qtrunc (inject_Z k) = k.
Proof. unfold Qtrunc. simpl. apply Z.quot_1_r. Qed.

Lemma Qtrunc_Z_succ (k : Z) : Qtrunc (inject_Z k + 1) = (k + 1)%Z.
Proof. unfold Qtrunc. simpl. rewrite Z.quot_1_r. lia. Qed.

Lemma asIndex_int (q : Q) (k : Z) :
  q == inject_Z k -> (0 <= k)%Z -> asIndex (Fin q) = Some (Z.to_nat k).
Proof.
  intros Hq Hk. unfold asIndex.
  assert (Hf : Qfloor q = k) by (rewrite Hq; apply Qfloor_Z).
  rewrite Hf.
  assert (Hb : Qeq_bool q (inject_Z k) = true) by now apply Qeq_bool_iff.
  rewrite Hb. assert (Hz : (0 <=? k)%Z = true) by now apply Z.leb_le.
  now rewrite Hz.
Qed.

Lemma getNum_nth (l : list Q) (i : number) (n : nat) (v : Q) :
  asIndex i = Some n -> nth_error l n = Some v -> getNum (map Fin l) i = Fin v.
Proof.
  intros Hi Hn. unfold getNum. rewrite Hi, nth_error_map, Hn. reflexivity.
Qed.

(** *** [findIndex] *)

Lemma findIndexFrom_map {A B} (f : A -> B) (p : B -> bool) (l : list A) k :
  findIndexFrom p (map f l) k = findIndexFrom (fun a => p (f a)) l k.
Proof.
  revert k; induction l as [|a l IH]; intros k; simpl; [reflexivity|].
  now rewrite IH.
Qed.

Lemma findIndexFrom_none {A} (p : A -> bool) (l : list A) k :
  Forall (fun a => p a = false) l -> findIndexFrom p l k = (-1)%Z.
Proof.
  intros H; revert k; induction H as [|a l Ha _ IH]; intros k; simpl;
    [reflexivity|].
  now rewrite Ha.
Qed.

Lemma findIndexFrom_first {A} (p : A -> bool) (pre : list A) a post k :
  Forall (fun a => p a = false) pre -> p a = true ->
  findIndexFrom p (pre ++ a :: post) k = (k + Z.of_nat (List.length pre))%Z.
Proof.
  intros H Ha; revert k; induction H as [|b l Hb _ IH]; intros k; simpl.
  - rewrite Ha. lia.
  - rewrite Hb, IH. lia.
Qed.

(* ================================================================== *)
(** ** The end of a section                                            *)
(* ================================================================== *)

Lemma gtb_Fin (z b : Q) :
  (Fin z >? Fin b)%js = match (b ?= z)%Q with Lt => true | _ => false end.
Proof. reflexivity. Qed.

Lemma gtb_Fin_true (z b : Q) : b < z -> (Fin z >? Fin b)%js = true.
Proof.
  intros H. rewrite gtb_Fin.
  destruct (b ?= z)%Q eqn:E;
    [apply Qeq_alt in E | reflexivity | apply Qgt_alt in E]; lra.
Qed.

Lemma gtb_Fin_false (z b : Q) : z <= b -> (Fin z >? Fin b)%js = false.
Proof.
  intros H. rewrite gtb_Fin. destruct (b ?= z)%Q eqn:E; try reflexivity.
  apply Qlt_alt in E. lra.
Qed.

Lemma indexOf_absent (zs : list Q) (b : Q) :
  Forall (fun z => ~ z == b) zs -> indexOf (map Fin zs) (Fin b) = (-1)%Z.
Proof.
  intros H. unfold indexOf, findIndex. rewrite findIndexFrom_map.
  apply findIndexFrom_none. eapply Forall_impl; [|exact H].
  intros z Hz. cbv beta in Hz |- *. now apply Qeq_bool_false_iff.
Qed.

Lemma indexOf_found (before : list Q) (z : Q) (after : list Q) (b : Q) :
  Forall (fun z => z < b) before -> z == b ->
  indexOf (map Fin (before ++ z :: after)) (Fin b)
  = Z.of_nat (List.length before).
Proof.
  intros Hb Hz. unfold indexOf, findIndex. rewrite findIndexFrom_map.
  rewrite findIndexFrom_first; [lia | | simpl; now apply Qeq_bool_iff].
  eapply Forall_impl; [|exact Hb]. intros y Hy. cbv beta in Hy |- *.
  apply Qeq_bool_false_iff. intros E. lra.
Qed.

Lemma findIndex_greater (before : list Q) (z : Q) (after : list Q) (b : Q) :
  Forall (fun z => z <= b) before -> b < z ->
  findIndex (fun element => (element >? Fin b)%js)
            (map Fin (before ++ z :: after))
  = Z.of_nat (List.length before).
Proof.
  intros Hb Hz. unfold findIndex. rewrite findIndexFrom_map.
  rewrite findIndexFrom_first; [lia | | now apply gtb_Fin_true].
  eapply Forall_impl; [|exact Hb]. intros y Hy. cbv beta in Hy |- *.
  now apply gtb_Fin_false.
Qed.

Lemma fractionalIndex_facts (n : nat) (b zp zn : Q) :
  zp < b -> b < zn ->
  let e := fractionalIndex n b zp zn in
  0 <= e
  /\ Qfloor e = Z.of_nat n
  /\ Qceiling e = Z.of_nat (S n)
  /\ e - inject_Z (Qtrunc e) == (b - zp) / (zn - zp)
  /\ truthy (rem1 (Fin e)) = true.
Proof.
  intros Hlo Hhi e.
  assert (Hpos : 0 < (b + - zp) / (zn + - zp))
    by (apply Qlt_shift_div_l; lra).
  assert (Hone : (b + - zp) / (zn + - zp) < 1)
    by (apply Qlt_shift_div_r; lra).
  assert (He : e == inject_Z (Z.of_nat n) + (b + - zp) / (zn + - zp)).
  { unfold e, fractionalIndex. rewrite Nat2Z.inj_succ, <- Z.add_1_r.
    rewrite inject_Z_plus. change (inject_Z 1) with 1. ring. }
  assert (Hn : 0 <= inject_Z (Z.of_nat n))
    by (change 0 with (inject_Z 0); rewrite <- Zle_Qle; lia).
  unfold Qminus. revert He Hpos Hone.
  generalize ((b + - zp) / (zn + - zp)). intros t He Hpos Hone.
  assert (H0 : 0 <= e) by lra.
  assert (Hf : Qfloor e = Z.of_nat n).
  { apply Qfloor_between; [lra|]. rewrite inject_Z_plus.
    change (inject_Z 1) with 1. lra. }
  assert (Hc : Qceiling e = Z.of_nat (S n)).
  { apply Qceiling_between.
    - replace (Z.of_nat (S n) - 1)%Z with (Z.of_nat n) by lia. lra.
    - rewrite Nat2Z.inj_succ, <- Z.add_1_r, inject_Z_plus.
      change (inject_Z 1) with 1. lra. }
  assert (Hr : e + - inject_Z (Qtrunc e) == t).
  { rewrite (Qtrunc_nonneg e H0), Hf. lra. }
  repeat split; try assumption.
  simpl. apply negb_true_iff, Qeq_bool_false_iff. intros E.
  unfold Qminus in E. rewrite Hr in E. lra.
Qed.

Section SectionEnd.

Variable g : Global.
Variable L : Q.
Hypothesis Hstickout : stickout g = Fin L.

(** A boundary strictly between two measured positions: the end index is
    fractional and the end point is computed from the two neighbours. *)
Lemma sectionEnd_between (xs zs : list Q) (i : Z)
  (xbefore : list Q) (xp xn : Q) (xafter : list Q)
  (zbefore : list Q) (zp zn : Q) (zafter : list Q) :
  xs = (xbefore ++ xp :: xn :: xafter)%list ->
  zs = (zbefore ++ zp :: zn :: zafter)%list ->
  List.length xbefore = List.length zbefore ->
  Forall (fun z => z < boundary L i) zbefore ->
  zp < boundary L i ->
  boundary L i < zn ->
  Forall (fun z => ~ z == boundary L i) zafter ->
  sectionEnd g (map Fin xs) (map Fin zs) i
  = (Fin (fractionalIndex (List.length zbefore) (boundary L i) zp zn),
     (Fin (xp + (fractionalIndex (List.length zbefore) (boundary L i) zp zn
                 - inject_Z (Qtrunc (fractionalIndex (List.length zbefore)
                                       (boundary L i) zp zn)))
                * (xn + - xp)),
      Fin (zp + (fractionalIndex (List.length zbefore) (boundary L i) zp zn
                 - inject_Z (Qtrunc (fractionalIndex (List.length zbefore)
                                       (boundary L i) zp zn)))
                * (zn + - zp)))).
Proof.
  intros Hxs Hzs Hlen Hbefore Hp Hn Hafter.
  set (b := boundary L i) in *.
  unfold sectionEnd. rewrite Hstickout.
  change (ofZ (i + 1) * Fin L)%js with (Fin b).
  assert (Habsent : Forall (fun z => ~ z == b) zs).
  { rewrite Hzs. apply Forall_app. split.
    - eapply Forall_impl; [|exact Hbefore]. intros z Hz E.
      cbv beta in Hz. lra.
    - constructor; [intros E; lra|]. constructor; [intros E; lra|]. exact Hafter. }
  rewrite (indexOf_absent zs b Habsent). simpl (_ =? _)%Z. cbv iota.
  assert (Hfind : findIndex (fun element => (element >? Fin b)%js) (map Fin zs)
                  = Z.of_nat (S (List.length zbefore))).
  { rewrite Hzs.
    change (zbefore ++ zp :: zn :: zafter)%list
      with (zbefore ++ [zp] ++ zn :: zafter)%list.
    rewrite app_assoc, findIndex_greater; [|apply Forall_app; split|exact Hn].
    - rewrite length_app. simpl. f_equal. lia.
    - eapply Forall_impl; [|exact Hbefore]. intros z Hz. cbv beta in Hz. lra.
    - constructor; [lra | constructor]. }
  rewrite Hfind.
  set (n := List.length zbefore) in *.
  assert (Hi1 : asIndex (ofZ (Z.of_nat (S n)) - Fin 1)%js = Some n).
  { replace n with (Z.to_nat (Z.of_nat (S n) - 1)) at 2 by lia.
    apply asIndex_int; [|lia].
    rewrite <- Z.add_opp_r, inject_Z_plus. reflexivity. }
  assert (Hi2 : asIndex (ofZ (Z.of_nat (S n))) = Some (S n)).
  { replace (S n) with (Z.to_nat (Z.of_nat (S n))) at 2 by lia.
    apply asIndex_int; [reflexivity | lia]. }
  assert (Hzp : nth_error zs n = Some zp).
  { rewrite Hzs, nth_error_app2 by (unfold n; lia).
    replace (n - List.length zbefore)%nat with 0%nat by (unfold n; lia).
    reflexivity. }
  assert (Hzn : nth_error zs (S n) = Some zn).
  { rewrite Hzs, nth_error_app2 by (unfold n; lia).
    replace (S n - List.length zbefore)%nat with 1%nat by (unfold n; lia).
    reflexivity. }
  assert (Hxp : nth_error xs n = Some xp).
  { rewrite Hxs, nth_error_app2 by (unfold n; lia).
    replace (n - List.length xbefore)%nat with 0%nat by (unfold n; lia).
    reflexivity. }
  assert (Hxn : nth_error xs (S n) = Some xn).
  { rewrite Hxs, nth_error_app2 by (unfold n; lia).
    replace (S n - List.length xbefore)%nat with 1%nat by (unfold n; lia).
    reflexivity. }
  rewrite !(getNum_nth zs _ _ _ Hi1 Hzp), !(getNum_nth zs _ _ _ Hi2 Hzn).
  rewrite !(getNum_nth xs _ _ _ Hi1 Hxp), !(getNum_nth xs _ _ _ Hi2 Hxn).
  change (Fin zn - Fin zp)%js with (Fin (zn + - zp)).
  change (Fin b - Fin zp)%js with (Fin (b + - zp)).
  rewrite div_finite by (intros E; lra).
  reflexivity.
Qed.

End SectionEnd.

(** The boundary point over exact rationals, where every quotient, product
    and sum is exact (on doubles it can miss the boundary by a rounding
    step, see [Double.sectionEnd]).  A section boundary that falls
    strictly between two measured points (the predecessor [(xp, zp)] and
    the first point beyond the boundary [(xn, zn)]) gets a synthesized
    point: its x is
    [xp + fraction * (xn - xp)] with
    [fraction = (boundary - zp) / (zn - zp)], its z is the boundary; the end
    index is fractional, so the point closes its section and opens the
    next.  In particular (0.30, 0) and (0.40, 2.0) cut every 1.0 give the
    boundary point (0.35, 1.0). *)
Theorem boundary_point_is_interpolated :
  (forall (g : Global) (L : Q) (xs zs : list Q) (i : Z)
          (xbefore : list Q) (xp xn : Q) (xafter : list Q)
          (zbefore : list Q) (zp zn : Q) (zafter : list Q),
      stickout g = Fin L ->
      xs = (xbefore ++ xp :: xn :: xafter)%list ->
      zs = (zbefore ++ zp :: zn :: zafter)%list ->
      List.length xbefore = List.length zbefore ->
      Forall (fun z => z < boundary L i) zbefore ->
      zp < boundary L i ->
      boundary L i < zn ->
      Forall (fun z => ~ z == boundary L i) zafter ->
      exists e x' z',
        sectionEnd g (map Fin xs) (map Fin zs) i = (Fin e, (Fin x', Fin z'))
        /\ x' == xp + (boundary L i - zp) / (zn - zp) * (xn - xp)
        /\ z' == boundary L i
        /\ (forall organizedPoints shift startIndex startPoint,
              last (includedPoints organizedPoints shift startIndex startPoint
                      (Fin e) (Some (Fin x', Fin z'))) noPoint
              = DimensionPoint.mk (Fin x') (Fin z' - shift)%js)
        /\ (forall organizedPoints shift endIndex endPoint,
              hd noPoint
                 (includedPoints organizedPoints shift (Fin e) (Fin x', Fin z')
                    endIndex endPoint)
              = DimensionPoint.mk (Fin x') (Fin z' - shift)%js))
  /\ (exists first second,
        interpolatePoints global [Fin 0.30; Fin 0.40] [Fin 0; Fin 2.0]
        = Some [first; second]
        /\ samePoints (points first) (map pointQ [(0.30, 0); (0.35, 1.0)]) = true
        /\ samePoints (points second) (map pointQ [(0.35, 0); (0.40, 1.0)]) = true).
Proof.
  split.
  - intros g L xs zs i xbefore xp xn xafter zbefore zp zn zafter
           Hstickout Hxs Hzs Hlen Hbefore Hp Hn Hafter.
    pose proof (fractionalIndex_facts (List.length zbefore) (boundary L i)
                  zp zn Hp Hn) as (H0 & Hfloor & Hceil & Hr & Htruthy).
    eexists _, _, _. split.
    { apply (sectionEnd_between g L Hstickout xs zs i xbefore xp xn xafter
               zbefore zp zn zafter); assumption. }
    split; [|split; [|split]].
    + rewrite Hr. unfold Qminus. reflexivity.
    + rewrite Hr. field. intros E. lra.
    + intros organizedPoints shift startIndex startPoint.
      unfold includedPoints. rewrite Htruthy.
      rewrite app_assoc. apply last_last.
    + intros organizedPoints shift endIndex endPoint.
      unfold includedPoints. rewrite Htruthy. reflexivity.
  - eexists _, _. split; [vm_compute; reflexivity|].
    split; vm_compute; reflexivity.
Qed.

Lemma boundary_point_is_interpolated_witness :
  stickout global = Fin 1.000
  /\ 0 < boundary 1.000 0
  /\ boundary 1.000 0 < 2.0
  /\ exists e x' z',
       sectionEnd global (map Fin [0.30; 0.40]) (map Fin [0; 2.0]) 0
       = (Fin e, (Fin x', Fin z'))
       /\ x' == 0.30 + (boundary 1.000 0 - 0) / (2.0 - 0) * (0.40 - 0.30)
       /\ z' == boundary 1.000 0
       /\ (forall organizedPoints shift startIndex startPoint,
             last (includedPoints organizedPoints shift startIndex startPoint
                     (Fin e) (Some (Fin x', Fin z'))) noPoint
             = DimensionPoint.mk (Fin x') (Fin z' - shift)%js)
       /\ (forall organizedPoints shift endIndex endPoint,
             hd noPoint
                (includedPoints organizedPoints shift (Fin e) (Fin x', Fin z')
                   endIndex endPoint)
             = DimensionPoint.mk (Fin x') (Fin z' - shift)%js).
Proof.
  assert (Hp : 0 < boundary 1.000 0) by reflexivity.
  assert (Hn : boundary 1.000 0 < 2.0) by reflexivity.
  split; [reflexivity|]. split; [exact Hp|]. split; [exact Hn|].
  exact (proj1 boundary_point_is_interpolated global 1.000 [0.30; 0.40]
           [0; 2.0] 0%Z [] 0.30 0.40 [] [] 0 2.0 []
           eq_refl eq_refl eq_refl eq_refl (Forall_nil _) Hp Hn (Forall_nil _)).
Defined.

(* ================================================================== *)
(** ** Ascending lists of measured points                              *)
(* ================================================================== *)

Lemma organize_pointQ (pts : list (Q * Q)) :
  organize (map Fin (map fst pts)) (map Fin (map snd pts)) = map pointQ pts.
Proof.
  induction pts as [|p pts IH]; simpl; [reflexivity|]. now rewrite IH.
Qed.

Lemma zBelow_iff b p : zBelow b p = true <-> snd p < b.
Proof.
  unfold zBelow. rewrite negb_true_iff. split.
  - intros H. apply Qnot_le_lt. intros Hle. apply Qle_bool_iff in Hle. congruence.
  - intros H. destruct (Qle_bool b (snd p)) eqn:E; [|reflexivity].
    apply Qle_bool_iff in E. lra.
Qed.

Lemma zBelow_false_iff b p : zBelow b p = false <-> b <= snd p.
Proof.
  unfold zBelow. rewrite negb_false_iff. apply Qle_bool_iff.
Qed.

Lemma zUpTo_iff b p : zUpTo b p = true <-> snd p <= b.
Proof. apply Qle_bool_iff. Qed.

Lemma zUpTo_false_iff b p : zUpTo b p = false <-> b < snd p.
Proof.
  unfold zUpTo. split.
  - intros H. apply Qnot_le_lt. intros Hle. apply Qle_bool_iff in Hle. congruence.
  - intros H. destruct (Qle_bool (snd p) b) eqn:E; [|reflexivity].
    apply Qle_bool_iff in E. lra.
Qed.

Lemma zWithin_iff b b' p : zWithin b b' p = true <-> b <= snd p /\ snd p <= b'.
Proof. unfold zWithin. now rewrite andb_true_iff, !Qle_bool_iff. Qed.

Lemma filter_none {A} (f : A -> bool) (l : list A) :
  (forall a, In a l -> f a = false) -> filter f l = [].
Proof.
  induction l as [|a l IH]; intros H; simpl; [reflexivity|].
  rewrite (H a (or_introl eq_refl)). apply IH. intros b Hb. apply H. now right.
Qed.

(** A test that holds of everything below a point of which it holds cuts an
    ascending list in two: those that pass, then those that fail. *)
Lemma ascending_split (test : Q * Q -> bool) (pts : list (Q * Q)) :
  ascending pts ->
  (forall p q, snd p < snd q -> test q = true -> test p = true) ->
  pts = (filter test pts ++ filter (fun p => negb (test p)) pts)%list.
Proof.
  intros Hs Hdown. induction Hs as [|p pts Hs IH Hall]; [reflexivity|].
  simpl. destruct (test p) eqn:Hp; simpl.
  - now rewrite <- IH.
  - assert (Hnone : filter test pts = []).
    { apply filter_none. intros q Hq. rewrite Forall_forall in Hall.
      destruct (test q) eqn:Hq'; [|reflexivity].
      rewrite (Hdown p q (Hall q Hq) Hq') in Hp. discriminate. }
    rewrite Hnone in IH |- *. simpl in *. now rewrite <- IH.
Qed.

Lemma ascending_filter (test : Q * Q -> bool) (pts : list (Q * Q)) :
  ascending pts -> ascending (filter test pts).
Proof.
  intros Hs. induction Hs as [|p pts Hs IH Hall]; simpl; [constructor|].
  destruct (test p); [|exact IH]. constructor; [exact IH|].
  rewrite Forall_forall in *. intros q Hq. apply filter_In in Hq.
  now apply Hall.
Qed.

Lemma ascending_app_inv (l1 l2 : list (Q * Q)) :
  ascending (l1 ++ l2) ->
  ascending l1 /\ ascending l2
  /\ forall p q, In p l1 -> In q l2 -> snd p < snd q.
Proof.
  induction l1 as [|a l1 IH]; simpl; intros H.
  - repeat split; [constructor | exact H | intros p q []].
  - apply StronglySorted_inv in H. destruct H as [Hs Hall].
    destruct (IH Hs) as (H1 & H2 & H12).
    rewrite Forall_forall in Hall.
    repeat split.
    + constructor; [exact H1|]. rewrite Forall_forall. intros q Hq.
      apply Hall, in_or_app. now left.
    + exact H2.
    + intros p q [<-|Hp] Hq; [apply Hall, in_or_app; now right | now apply H12].
Qed.

(** In an ascending list a measured point matches itself and nothing else. *)
Lemma ascending_unique (pts : list (Q * Q)) (p : Q * Q) :
  ascending pts -> In p pts ->
  List.length (filter (sameMeasure p) pts) = 1%nat.
Proof.
  intros Hs. induction Hs as [|a pts Hs IH Hall]; [intros []|].
  rewrite Forall_forall in Hall. intros [->|Hin]; simpl.
  - assert (Hself : sameMeasure p p = true).
    { unfold sameMeasure. rewrite andb_true_iff.
      split; apply Qeq_bool_iff; reflexivity. }
    rewrite Hself. simpl. f_equal.
    assert (Hnone : filter (sameMeasure p) pts = []).
    { apply filter_none. intros q Hq. unfold sameMeasure.
      apply andb_false_iff. right. apply Qeq_bool_false_iff.
      specialize (Hall q Hq). intros E. lra. }
    now rewrite Hnone.
  - assert (Hnot : sameMeasure p a = false).
    { unfold sameMeasure. apply andb_false_iff. right.
      apply Qeq_bool_false_iff. specialize (Hall p Hin). intros E. lra. }
    rewrite Hnot. now apply IH.
Qed.

(* ================================================================== *)
(** ** The slice of measured points taken by a section                 *)
(* ================================================================== *)

Lemma relIndex_inside (len : Z) (q : Q) (t : Z) :
  Qtrunc q = t -> (0 <= t <= len)%Z -> relIndex len (Fin q) = t.
Proof.
  intros Ht Hr. unfold relIndex. rewrite Ht.
  destruct (t <? 0)%Z eqn:E; [apply Z.ltb_lt in E; lia | lia].
Qed.

Lemma slice_inside {A} (l : list A) (qs qe : Q) (c c' : nat) :
  Qtrunc qs = Z.of_nat c -> Qtrunc qe = Z.of_nat c' ->
  (c <= List.length l)%nat -> (c' <= List.length l)%nat ->
  slice l (Fin qs) (Fin qe) = firstn (c' - c) (skipn c l).
Proof.
  intros Hs He Hc Hc'. unfold slice.
  rewrite (relIndex_inside _ qs (Z.of_nat c) Hs) by lia.
  rewrite (relIndex_inside _ qe (Z.of_nat c') He) by lia.
  f_equal; [lia | f_equal; lia].
Qed.

Lemma filter_filter {A} (f h : A -> bool) (l : list A) :
  filter f (filter h l) = filter (fun a => h a && f a) l.
Proof.
  induction l as [|a l IH]; simpl; [reflexivity|].
  destruct (h a); simpl; [destruct (f a)|]; now rewrite IH.
Qed.

Lemma filter_all {A} (f : A -> bool) (l : list A) :
  (forall a, In a l -> f a = true) -> filter f l = l.
Proof.
  induction l as [|a l IH]; intros H; simpl; [reflexivity|].
  rewrite (H a (or_introl eq_refl)). f_equal. apply IH. intros b Hb.
  apply H. now right.
Qed.

Lemma zBelow_down b p q : snd p < snd q -> zBelow b q = true -> zBelow b p = true.
Proof. rewrite !zBelow_iff. lra. Qed.

Lemma zUpTo_down b p q : snd p < snd q -> zUpTo b q = true -> zUpTo b p = true.
Proof. rewrite !zUpTo_iff. lra. Qed.

(** Between the number of points below [b] and the number of points up to
    [b'] lie the points within [b, b']. *)
Lemma ascending_window (pts : list (Q * Q)) (b b' : Q) :
  ascending pts -> b <= b' ->
  firstn (List.length (filter (zUpTo b') pts) - List.length (filter (zBelow b) pts))
         (skipn (List.length (filter (zBelow b) pts)) pts)
  = filter (zWithin b b') pts.
Proof.
  intros Hs Hb.
  pose proof (ascending_split (zBelow b) pts Hs (zBelow_down b)) as Hsplit.
  set (low := filter (zBelow b) pts) in *.
  set (high := filter (fun p => negb (zBelow b p)) pts) in *.
  assert (Hhigh : ascending high) by now apply ascending_filter.
  pose proof (ascending_split (zUpTo b') high Hhigh (zUpTo_down b')) as Hsplit'.
  assert (Hcount : List.length (filter (zUpTo b') pts)
                   = (List.length low + List.length (filter (zUpTo b') high))%nat).
  { rewrite Hsplit at 1. rewrite filter_app, length_app. f_equal. f_equal.
    apply filter_all. intros p Hp. apply filter_In in Hp. destruct Hp as [_ Hp].
    apply zBelow_iff in Hp. apply zUpTo_iff. lra. }
  rewrite Hcount.
  replace (List.length low + List.length (filter (zUpTo b') high)
           - List.length low)%nat
    with (List.length (filter (zUpTo b') high)) by lia.
  assert (Hskip : skipn (List.length low) pts = high).
  { rewrite Hsplit at 1. rewrite skipn_app, skipn_all, Nat.sub_diag. reflexivity. }
  rewrite Hskip.
  assert (Hfirst : firstn (List.length (filter (zUpTo b') high)) high
                   = filter (zUpTo b') high).
  { rewrite Hsplit' at 2. rewrite firstn_app, firstn_all, Nat.sub_diag.
    simpl. apply app_nil_r. }
  rewrite Hfirst. unfold high. rewrite filter_filter. apply filter_ext.
  intros p. unfold zWithin, zBelow, zUpTo. now rewrite negb_involutive.
Qed.

(* ================================================================== *)
(** ** The points of one section                                       *)
(* ================================================================== *)

Lemma filter_length_le {A} (f : A -> bool) (l : list A) :
  (List.length (filter f l) <= List.length l)%nat.
Proof.
  induction l as [|a l IH]; simpl; [lia|]. destruct (f a); simpl; lia.
Qed.

Lemma Cut_EndCut pts b index point :
  Cut pts b index point -> EndCut pts b index (Some point).
Proof. intros H; exact H. Qed.

Lemma included_content (pts : list (Q * Q)) (b b' c : Q)
  (startIndex : number) (startPoint : number * number)
  (endIndex : number) (endPoint : option (number * number)) :
  ascending pts -> b <= b' ->
  Cut pts b startIndex startPoint ->
  EndCut pts b' endIndex endPoint ->
  exists content,
    includedPoints (map pointQ pts) (Fin c) startIndex startPoint
      endIndex endPoint
    = map (shifted c) content
    /\ SectionContent pts b b' content.
Proof.
  intros Hs Hb (q & -> & Hq & Hceil & _ & Hfrac & Hint) Hend.
  assert (Hendq : exists q',
             endIndex = Fin q'
             /\ (Qfloor q' + 1)%Z
                = Z.of_nat (List.length (filter (zUpTo b') pts))).
  { destruct endPoint as [ep|].
    - destruct Hend as (q' & -> & _ & _ & Hf & _). now exists q'.
    - destruct Hend as (q' & -> & _ & Hf & _). now exists q'. }
  destruct Hendq as (q' & -> & Hfloor).
  assert (Hslice :
            slice (map pointQ pts) (ceil (Fin q)) (floor (Fin q') + Fin 1)%js
            = map pointQ (filter (zWithin b b') pts)).
  { change (ceil (Fin q)) with (Fin (inject_Z (Qceiling q))).
    change (floor (Fin q') + Fin 1)%js with (Fin (inject_Z (Qfloor q') + 1)).
    rewrite (slice_inside _ _ _
               (List.length (filter (zBelow b) pts))
               (List.length (filter (zUpTo b') pts))).
    - rewrite skipn_map, firstn_map. f_equal. now apply ascending_window.
    - rewrite Qtrunc_Z. exact Hceil.
    - rewrite Qtrunc_Z_succ. exact Hfloor.
    - rewrite length_map. apply filter_length_le.
    - rewrite length_map. apply filter_length_le. }
  assert (Hstart : exists startPart,
             (if truthy (rem1 (Fin q))
              then [DimensionPoint.mk (fst startPoint) (snd startPoint - Fin c)%js]
              else [])
             = map (shifted c) startPart
             /\ BoundaryPart pts b startPart).
  { destruct (truthy (rem1 (Fin q))) eqn:Ht.
    - destruct (Hfrac eq_refl) as (Hno & x' & z' & -> & Hz).
      exists [(x', z')]. split; [reflexivity|]. right. now exists x', z'.
    - exists []. split; [reflexivity|]. left. split; [reflexivity|]. now apply Hint. }
  assert (Hendpart : exists endPart,
             match endPoint with
             | Some e =>
                 if truthy (rem1 (Fin q'))
                 then [DimensionPoint.mk (fst e) (snd e - Fin c)%js]
                 else []
             | None => []
             end
             = map (shifted c) endPart
             /\ BoundaryPart pts b' endPart).
  { destruct endPoint as [ep|].
    - destruct Hend as (q'' & E & _ & _ & _ & Hfrac' & Hint').
      destruct (truthy (rem1 (Fin q'))) eqn:Ht.
      + destruct (Hfrac' eq_refl) as (Hno & x' & z' & -> & Hz).
        exists [(x', z')]. split; [reflexivity|]. right. now exists x', z'.
      + exists []. split; [reflexivity|]. left. split; [reflexivity|].
        now apply Hint'.
    - destruct Hend as (q'' & _ & _ & _ & Hp).
      exists []. split; [reflexivity|]. left. now split. }
  destruct Hstart as (startPart & Estart & Bstart).
  destruct Hendpart as (endPart & Eend & Bend).
  exists (startPart ++ filter (zWithin b b') pts ++ endPart)%list. split.
  - unfold includedPoints. rewrite Hslice, Estart, Eend.
    rewrite !map_app. f_equal. f_equal.
    rewrite map_map. reflexivity.
  - now exists startPart, endPart.
Qed.

Lemma ascending_app (l1 l2 : list (Q * Q)) :
  ascending l1 -> ascending l2 ->
  (forall p q, In p l1 -> In q l2 -> snd p < snd q) ->
  ascending (l1 ++ l2).
Proof.
  intros H1 H2 H12. induction H1 as [|a l1 H1 IH Hall]; simpl; [exact H2|].
  constructor.
  - apply IH. intros p q Hp Hq. apply H12; [now right | exact Hq].
  - rewrite Forall_forall in *. intros q Hq. apply in_app_or in Hq.
    destruct Hq as [Hq|Hq]; [now apply Hall | apply H12; [now left | exact Hq]].
Qed.

Lemma ascending_single (p : Q * Q) : ascending [p].
Proof. constructor; constructor. Qed.

Lemma zWithin_compat b b' p q :
  snd q == snd p -> zWithin b b' q = zWithin b b' p.
Proof.
  intros E. unfold zWithin.
  assert (H1 : Qle_bool b (snd q) = Qle_bool b (snd p)).
  { destruct (Qle_bool b (snd p)) eqn:Hp.
    - apply Qle_bool_iff. apply Qle_bool_iff in Hp. lra.
    - destruct (Qle_bool b (snd q)) eqn:Hq; [|reflexivity].
      apply Qle_bool_iff in Hq.
      assert (Hle : b <= snd p) by lra. apply Qle_bool_iff in Hle. congruence. }
  assert (H2 : Qle_bool (snd q) b' = Qle_bool (snd p) b').
  { destruct (Qle_bool (snd p) b') eqn:Hp.
    - apply Qle_bool_iff. apply Qle_bool_iff in Hp. lra.
    - destruct (Qle_bool (snd q) b') eqn:Hq; [|reflexivity].
      apply Qle_bool_iff in Hq.
      assert (Hle : snd p <= b') by lra. apply Qle_bool_iff in Hle. congruence. }
  now rewrite H1, H2.
Qed.

Lemma sameMeasure_z p q : sameMeasure p q = true -> snd q == snd p.
Proof.
  unfold sameMeasure. rewrite andb_true_iff. intros [_ H].
  now apply Qeq_bool_iff.
Qed.

(** A boundary part holds no measured point. *)
Lemma boundary_part_no_measure pts b part p :
  BoundaryPart pts b part -> In p pts -> filter (sameMeasure p) part = [].
Proof.
  intros [[-> _]|(x' & z' & -> & Hz & Hno)] Hp; [reflexivity|].
  rewrite Forall_forall in Hno. specialize (Hno p Hp). simpl.
  destruct (sameMeasure p (x', z')) eqn:E; [|reflexivity].
  apply sameMeasure_z in E. simpl in E. exfalso. apply Hno. lra.
Qed.

Lemma content_properties (pts : list (Q * Q)) (b b' : Q) (content : list (Q * Q)) :
  ascending pts -> b < b' ->
  SectionContent pts b b' content ->
  ascending content
  /\ (exists first rest, content = first :: rest /\ snd first == b)
  /\ (exists front final, content = (front ++ [final])%list /\ snd final == b')
  /\ (forall p, In p pts ->
        List.length (filter (sameMeasure p) content)
        = if zWithin b b' p then 1%nat else 0%nat).
Proof.
  intros Hs Hb (startPart & endPart & -> & Bstart & Bend).
  set (window := filter (zWithin b b') pts).
  assert (Hw : ascending window) by now apply ascending_filter.
  assert (Hin : forall p, In p window -> In p pts /\ b <= snd p /\ snd p <= b').
  { intros p Hp. apply filter_In in Hp. destruct Hp as [Hp Hz].
    apply zWithin_iff in Hz. tauto. }
  assert (Hmem : forall p, In p pts -> b <= snd p -> snd p <= b' -> In p window).
  { intros p Hp H1 H2. apply filter_In. split; [exact Hp|].
    apply zWithin_iff. now split. }
  repeat split.
  - (* ascending *)
    apply ascending_app; [| apply ascending_app |].
    + destruct Bstart as [[-> _]|(x' & z' & -> & _)];
        [constructor | apply ascending_single].
    + exact Hw.
    + destruct Bend as [[-> _]|(x' & z' & -> & _)];
        [constructor | apply ascending_single].
    + intros p q Hp Hq.
      destruct Bend as [[-> _]|(x' & z' & -> & Hz & Hno)]; [destruct Hq|].
      destruct Hq as [<-|[]]. simpl. destruct (Hin p Hp) as (Hpp & H1 & H2).
      rewrite Forall_forall in Hno. specialize (Hno p Hpp).
      assert (Hne : ~ snd p == b') by exact Hno.
      apply Qle_lteq in H2. destruct H2 as [H2|H2]; [lra | contradiction].
    + intros p q Hp Hq.
      destruct Bstart as [[-> _]|(x' & z' & -> & Hz & Hno)]; [destruct Hp|].
      destruct Hp as [<-|[]]. simpl. apply in_app_or in Hq.
      destruct Hq as [Hq|Hq].
      * destruct (Hin q Hq) as (Hqq & H1 & H2).
        rewrite Forall_forall in Hno. specialize (Hno q Hqq).
        assert (Hne : ~ snd q == b) by exact Hno.
        apply Qle_lteq in H1. destruct H1 as [H1|H1]; [lra|].
        exfalso. apply Hne. lra.
      * destruct Bend as [[-> _]|(x'' & z'' & -> & Hz' & _)]; [destruct Hq|].
        destruct Hq as [<-|[]]. simpl. lra.
  - (* first *)
    destruct Bstart as [[-> (p & Hp & Hz)]|(x' & z' & -> & Hz & _)].
    + assert (Hpw : In p window) by (apply Hmem; [exact Hp | lra | lra]).
      destruct window as [|w rest] eqn:Ew; [destruct Hpw|].
      exists w, (rest ++ endPart)%list. split; [reflexivity|].
      destruct (Hin w (or_introl eq_refl)) as (_ & H1 & _).
      destruct Hpw as [->|Hpw]; [lra|].
      apply StronglySorted_inv in Hw. destruct Hw as [_ Hall].
      rewrite Forall_forall in Hall. specialize (Hall p Hpw). simpl in Hall. lra.
    + exists (x', z'), (window ++ endPart)%list. now split.
  - (* last *)
    destruct Bend as [[-> (p & Hp & Hz)]|(x' & z' & -> & Hz & _)].
    + assert (Hpw : In p window) by (apply Hmem; [exact Hp | lra | lra]).
      destruct (exists_last (l := window)) as (front & final & Ew).
      { intros E. rewrite E in Hpw. destruct Hpw. }
      exists (startPart ++ front)%list, final. split.
      * rewrite Ew, app_nil_r, app_assoc. reflexivity.
      * assert (Hfw : In final window)
          by (rewrite Ew; apply in_or_app; right; now left).
        destruct (Hin final Hfw) as (_ & _ & H2).
        rewrite Ew in Hpw, Hw. apply in_app_or in Hpw.
        destruct Hpw as [Hpw|[->|[]]]; [|lra].
        apply ascending_app_inv in Hw. destruct Hw as (_ & _ & H12).
        specialize (H12 p final Hpw (or_introl eq_refl)). lra.
    + exists (startPart ++ window)%list, (x', z'). split; [|exact Hz].
      now rewrite app_assoc.
  - (* occurrences *)
    intros p Hp. rewrite !filter_app, !length_app.
    rewrite (boundary_part_no_measure pts b startPart p Bstart Hp).
    rewrite (boundary_part_no_measure pts b' endPart p Bend Hp).
    simpl. rewrite Nat.add_0_r. unfold window. rewrite filter_filter.
    destruct (zWithin b b' p) eqn:Hz.
    + rewrite <- (ascending_unique pts p Hs Hp). f_equal.
      apply filter_ext_in. intros q Hq.
      destruct (sameMeasure p q) eqn:E; [|now rewrite andb_false_r].
      rewrite (zWithin_compat b b' p q (sameMeasure_z p q E)), Hz. reflexivity.
    + rewrite filter_none; [reflexivity|]. intros q Hq.
      destruct (sameMeasure p q) eqn:E; [|now rewrite andb_false_r].
      rewrite (zWithin_compat b b' p q (sameMeasure_z p q E)), Hz. reflexivity.
Qed.

(* ================================================================== *)
(** ** Locating a boundary                                             *)
(* ================================================================== *)

Lemma rem1_int (k : Z) : truthy (rem1 (ofZ k)) = false.
Proof.
  unfold ofZ, rem1, truthy. rewrite Qtrunc_Z. apply negb_false_iff.
  apply Qeq_bool_iff. ring.
Qed.

Section Boundaries.

Variable g : Global.
Variable L : Q.
Hypothesis Hstickout : stickout g = Fin L.

(** A measured point at the boundary: its index is the end index. *)
Lemma sectionEnd_found (xs zs : list Q) (i : Z)
  (xbefore : list Q) (x : Q) (xafter : list Q)
  (zbefore : list Q) (z : Q) (zafter : list Q) :
  xs = (xbefore ++ x :: xafter)%list ->
  zs = (zbefore ++ z :: zafter)%list ->
  List.length xbefore = List.length zbefore ->
  Forall (fun z => z < boundary L i) zbefore ->
  z == boundary L i ->
  sectionEnd g (map Fin xs) (map Fin zs) i
  = (ofZ (Z.of_nat (List.length zbefore)), (Fin x, Fin z)).
Proof.
  intros Hxs Hzs Hlen Hbefore Hz.
  set (b := boundary L i) in *.
  unfold sectionEnd. rewrite Hstickout.
  change (ofZ (i + 1) * Fin L)%js with (Fin b).
  rewrite Hzs, (indexOf_found zbefore z zafter b Hbefore Hz), <- Hzs.
  set (n := List.length zbefore) in *.
  assert (Hneq : (Z.of_nat n =? -1)%Z = false) by (apply Z.eqb_neq; lia).
  rewrite Hneq.
  assert (Hi : asIndex (ofZ (Z.of_nat n)) = Some n).
  { replace n with (Z.to_nat (Z.of_nat n)) at 2 by lia.
    apply asIndex_int; [reflexivity | lia]. }
  assert (Hzn : nth_error zs n = Some z).
  { rewrite Hzs, nth_error_app2 by (unfold n; lia).
    replace (n - List.length zbefore)%nat with 0%nat by (unfold n; lia).
    reflexivity. }
  assert (Hxn : nth_error xs n = Some x).
  { rewrite Hxs, nth_error_app2 by (unfold n; lia).
    replace (n - List.length xbefore)%nat with 0%nat by (unfold n; lia).
    reflexivity. }
  rewrite (getNum_nth zs _ _ _ Hi Hzn), (getNum_nth xs _ _ _ Hi Hxn).
  reflexivity.
Qed.

(** Whatever the segmenter finds at a boundary that lies above some
    measured point and at or below another is a cut at that boundary. *)
Lemma sectionEnd_cut (pts : list (Q * Q)) (i : Z) :
  ascending pts ->
  (exists p, In p pts /\ snd p < boundary L i) ->
  (exists p, In p pts /\ boundary L i <= snd p) ->
  Cut pts (boundary L i)
      (fst (sectionEnd g (map Fin (map fst pts)) (map Fin (map snd pts)) i))
      (snd (sectionEnd g (map Fin (map fst pts)) (map Fin (map snd pts)) i)).
Proof.
  intros Hs (plo & Hplo & Hlo) (phi & Hphi & Hhi).
  set (b := boundary L i) in *.
  pose proof (ascending_split (zBelow b) pts Hs (zBelow_down b)) as Hsplit.
  assert (Hasc : ascending (filter (fun p => negb (zBelow b p)) pts))
    by now apply ascending_filter.
  assert (Hhigh : Forall (fun p => b <= snd p)
                         (filter (fun p => negb (zBelow b p)) pts)).
  { apply Forall_forall. intros p Hp. apply filter_In in Hp.
    destruct Hp as [_ Hp]. apply negb_true_iff in Hp.
    now apply zBelow_false_iff. }
  assert (Hinhigh : In phi (filter (fun p => negb (zBelow b p)) pts)).
  { apply filter_In. split; [exact Hphi|]. apply negb_true_iff.
    now apply zBelow_false_iff. }
  assert (Hlow : Forall (fun p => snd p < b) (filter (zBelow b) pts)).
  { apply Forall_forall. intros p Hp. apply filter_In in Hp.
    now apply zBelow_iff. }
  assert (Hlowne : filter (zBelow b) pts <> []).
  { intros E. assert (Hin : In plo (filter (zBelow b) pts)).
    { apply filter_In. split; [exact Hplo | now apply zBelow_iff]. }
    rewrite E in Hin. destruct Hin. }
  unfold Cut.
  remember (filter (zBelow b) pts) as low eqn:Elow0.
  remember (filter (fun p => negb (zBelow b p)) pts) as high eqn:Ehigh0.
  clear Elow0 Ehigh0.
  destruct high as [|r above]; [destruct Hinhigh|].
  apply StronglySorted_inv in Hasc. destruct Hasc as [_ Habove].
  pose proof (Forall_inv Hhigh) as Hr. cbv beta in Hr.
  assert (Hupto_low : filter (zUpTo b) low = low).
  { apply filter_all. intros p Hp. rewrite Forall_forall in Hlow.
    apply zUpTo_iff. specialize (Hlow p Hp). simpl in Hlow. lra. }
  assert (Hupto_above : snd r == b \/ b < snd r -> filter (zUpTo b) above = []).
  { intros _. apply filter_none. intros p Hp. rewrite Forall_forall in Habove.
    apply zUpTo_false_iff. specialize (Habove p Hp). simpl in Habove. lra. }
  apply Qle_lteq in Hr. destruct Hr as [Hr|Hr].
  - (* the boundary falls between the last low point and [r] *)
    destruct (exists_last Hlowne) as (front & pp & Elow).
    assert (Hfront : Forall (fun z => z < b) (map snd front)).
    { apply Forall_map. rewrite Elow in Hlow. apply Forall_app in Hlow. tauto. }
    assert (Hpp : snd pp < b).
    { rewrite Elow in Hlow. apply Forall_app in Hlow. destruct Hlow as [_ H].
      now inversion H. }
    assert (Hafter : Forall (fun z => ~ z == b) (map snd above)).
    { apply Forall_map. eapply Forall_impl; [|exact Habove].
      intros p Hp E. cbv beta in Hp. lra. }
    assert (Epts : pts = (front ++ pp :: r :: above)%list).
    { rewrite Hsplit, Elow, <- app_assoc. reflexivity. }
    rewrite (sectionEnd_between g L Hstickout (map fst pts) (map snd pts) i
               (map fst front) (fst pp) (fst r) (map fst above)
               (map snd front) (snd pp) (snd r) (map snd above));
      try assumption;
      [| rewrite Epts, map_app; reflexivity
       | rewrite Epts, map_app; reflexivity
       | now rewrite !length_map ].
    rewrite length_map. fold b.
    pose proof (fractionalIndex_facts (List.length front) b (snd pp) (snd r)
                  Hpp Hr) as (H0 & Hfloor & Hceil & Hfrac & Htruthy).
    cbn [fst snd]. eexists. split; [reflexivity|]. split; [exact H0|].
    assert (Hlen : List.length low = S (List.length front))
      by (rewrite Elow, length_app; simpl; lia).
    split; [now rewrite Hceil, Hlen|]. split.
    + rewrite Hfloor. rewrite Hsplit, filter_app, length_app, Hupto_low.
      simpl. destruct (zUpTo b r) eqn:E.
      * apply zUpTo_iff in E. lra.
      * rewrite (Hupto_above (or_intror Hr)). simpl. lia.
    + split.
      * intros _. split.
        -- rewrite Hsplit. apply Forall_app. split.
           ++ eapply Forall_impl; [|exact Hlow]. intros p Hp E.
              cbv beta in Hp. lra.
           ++ constructor; [intros E; lra|].
              eapply Forall_impl; [|exact Habove]. intros p Hp E.
              cbv beta in Hp. lra.
        -- eexists _, _. split; [reflexivity|]. rewrite Hfrac. field.
           intros E. lra.
      * intros E. rewrite Htruthy in E. discriminate.
  - (* [r] stands at the boundary *)
    assert (Hbefore : Forall (fun z => z < b) (map snd low))
      by now apply Forall_map.
    assert (Epts : pts = (low ++ r :: above)%list) by exact Hsplit.
    rewrite (sectionEnd_found (map fst pts) (map snd pts) i
               (map fst low) (fst r) (map fst above)
               (map snd low) (snd r) (map snd above));
      try assumption;
      [| rewrite Epts at 1; rewrite map_app; reflexivity
       | rewrite Epts at 1; rewrite map_app; reflexivity
       | now rewrite !length_map
       | now symmetry ].
    rewrite length_map. cbn [fst snd].
    exists (inject_Z (Z.of_nat (List.length low))).
    split; [reflexivity|]. split.
    { change 0 with (inject_Z 0). rewrite <- Zle_Qle. lia. }
    split; [apply Qceiling_Z|]. split.
    + rewrite Qfloor_Z. rewrite Hsplit, filter_app, length_app, Hupto_low.
      simpl. destruct (zUpTo b r) eqn:E.
      * rewrite (Hupto_above (or_introl (Qeq_sym _ _ Hr))). simpl. lia.
      * apply zUpTo_false_iff in E. lra.
    + split.
      * intros E. rewrite rem1_int in E. discriminate.
      * intros _. exists r. split; [|now symmetry].
        rewrite Hsplit. apply in_or_app. right. now left.
Qed.

End Boundaries.

(* ================================================================== *)
(** ** The loop over the sections                                      *)
(* ================================================================== *)

Lemma indices_succ (from : Z) (n : nat) :
  map (fun k => (from + Z.of_nat k)%Z) (seq 0 (S n))
  = from :: map (fun k => (from + 1 + Z.of_nat k)%Z) (seq 0 n).
Proof.
  simpl. f_equal; [lia|]. rewrite <- seq_shift, map_map.
  apply map_ext. intros k. lia.
Qed.

Lemma boundary_next (L : Q) (i : Z) : boundary L i == inject_Z i * L + L.
Proof. unfold boundary. rewrite inject_Z_plus. change (inject_Z 1) with 1. ring. Qed.

Lemma Cut_initial (pts : list (Q * Q)) (first : Q * Q) (rest : list (Q * Q))
  (b : Q) (point : number * number) :
  pts = first :: rest -> ascending pts -> b == snd first ->
  Cut pts b (Fin 0) point.
Proof.
  intros -> Hs Hb. apply StronglySorted_inv in Hs. destruct Hs as [_ Hall].
  rewrite Forall_forall in Hall.
  exists 0. split; [reflexivity|]. split; [lra|].
  assert (Hbelow : filter (zBelow b) (first :: rest) = []).
  { apply filter_none. intros p [<-|Hp].
    - apply zBelow_false_iff. lra.
    - apply zBelow_false_iff. specialize (Hall p Hp). simpl in Hall. lra. }
  assert (Hupto : filter (zUpTo b) (first :: rest) = [first]).
  { simpl. assert (H1 : zUpTo b first = true) by (apply zUpTo_iff; lra).
    rewrite H1. f_equal. apply filter_none. intros p Hp.
    apply zUpTo_false_iff. specialize (Hall p Hp). simpl in Hall. lra. }
  rewrite Hbelow, Hupto. split; [reflexivity|]. split; [reflexivity|]. split.
  - intros E. discriminate E.
  - intros _. exists first. split; [now left | now symmetry].
Qed.

Section Loop.

Variable g : Global.
Variable L : Q.
Hypothesis Hstickout : stickout g = Fin L.
Hypothesis HL : 0 < L.

Variable pts : list (Q * Q).
Hypothesis Hascending : ascending pts.

Lemma sectionLoop_sections (n : nat) :
  forall (i : Z) (startIndex : number) (startPoint : number * number),
    Cut pts (inject_Z i * L) startIndex startPoint ->
    (forall j, (i <= j < i + Z.of_nat n)%Z ->
               (exists p, In p pts /\ snd p < boundary L j)
               /\ (exists p, In p pts /\ boundary L j <= snd p)) ->
    exists sections endIndex endPoint,
      sectionLoop g (map Fin (map fst pts)) (map Fin (map snd pts))
        (map (fun k => (i + Z.of_nat k)%Z) (seq 0 n)) startIndex startPoint
      = (sections, (endIndex, endPoint))
      /\ List.length sections = n
      /\ Cut pts (inject_Z (i + Z.of_nat n) * L) endIndex endPoint
      /\ forall k section j,
           nth_error sections k = Some section ->
           j = (i + Z.of_nat k)%Z ->
           SectionOK pts (inject_Z j * L) (inject_Z (j + 1) * L) section.
Proof.
  induction n as [|n IH]; intros i startIndex startPoint Hcut Hrange.
  - exists [], startIndex, startPoint. split; [reflexivity|].
    split; [reflexivity|]. split.
    + replace (i + Z.of_nat 0)%Z with i by lia. exact Hcut.
    + intros k section j Hk. destruct k; discriminate.
  - rewrite indices_succ. cbn [sectionLoop].
    assert (Hi : (i <= i < i + Z.of_nat (S n))%Z) by lia.
    destruct (Hrange i Hi) as [Hlo Hhi].
    pose proof (sectionEnd_cut g L Hstickout pts i Hascending Hlo Hhi) as Hend.
    destruct (sectionEnd g (map Fin (map fst pts)) (map Fin (map snd pts)) i)
      as [endIndex endPoint].
    cbn [fst snd] in Hend.
    assert (Hend' : Cut pts (inject_Z (i + 1) * L) endIndex endPoint)
      by exact Hend.
    destruct (IH (i + 1)%Z endIndex endPoint Hend') as
      (sections & lastIndex & lastPoint & Hloop & Hlen & Hlast & Hsecs).
    { intros j Hj. apply Hrange. lia. }
    rewrite Hloop.
    eexists _, lastIndex, lastPoint. split; [reflexivity|].
    split; [simpl; now rewrite Hlen|]. split.
    + replace (i + Z.of_nat (S n))%Z with (i + 1 + Z.of_nat n)%Z by lia.
      exact Hlast.
    + intros k section j Hk Hj. destruct k as [|k].
      * injection Hk as <-. replace j with i by lia.
        rewrite organize_pointQ, Hstickout.
        change (ofZ i * Fin L)%js with (Fin (inject_Z i * L)).
        destruct (included_content pts (inject_Z i * L) (boundary L i)
                    (inject_Z i * L) startIndex startPoint endIndex
                    (Some endPoint) Hascending) as (content & Hpoints & Hcontent);
          [rewrite boundary_next; lra | exact Hcut | exact Hend |].
        exists (inject_Z i * L), content. split; [reflexivity|].
        split; [exact Hpoints | exact Hcontent].
      * apply (Hsecs k section j Hk). lia.
Qed.

End Loop.

(* ================================================================== *)
(** ** All sections                                                    *)
(* ================================================================== *)

Lemma Qmaxl_in (a : Q) (l : list Q) : In (Qmaxl a l) (a :: l).
Proof.
  revert a; induction l as [|b l IH]; intros a; [now left|].
  cbn [Qmaxl]. unfold Qmax, GenericMinMax.gmax.
  destruct (a ?= Qmaxl b l)%Q; [now left | right; apply IH | now left].
Qed.

Lemma Qmaxl_ge (a : Q) (l : list Q) (z : Q) : In z (a :: l) -> z <= Qmaxl a l.
Proof.
  revert a; induction l as [|b l IH]; intros a.
  - intros [<-|[]]. simpl. lra.
  - cbn [Qmaxl]. intros [<-|Hz].
    + apply Q.le_max_l.
    + eapply Qle_trans; [apply IH, Hz | apply Q.le_max_r].
Qed.

Lemma maxZ_in (pts : list (Q * Q)) :
  pts <> [] -> exists p, In p pts /\ snd p = maxZ pts.
Proof.
  intros Hne. unfold maxZ. destruct pts as [|p0 rest]; [congruence|].
  cbn [map]. pose proof (Qmaxl_in (snd p0) (map snd rest)) as Hin.
  change (snd p0 :: map snd rest) with (map snd (p0 :: rest)) in Hin.
  apply in_map_iff in Hin. destruct Hin as (p & Hp & Hin). now exists p.
Qed.

Lemma maxZ_ge (pts : list (Q * Q)) (p : Q * Q) : In p pts -> snd p <= maxZ pts.
Proof.
  intros Hp. unfold maxZ. destruct pts as [|p0 rest]; [destruct Hp|].
  cbn [map]. apply Qmaxl_ge.
  change (snd p0 :: map snd rest) with (map snd (p0 :: rest)).
  now apply in_map.
Qed.

Lemma Qdiv_mult_cancel (z L : Q) : 0 < L -> z / L * L == z.
Proof. intros H. field. intros E. lra. Qed.

Lemma Qceiling_pred (k : Z) : Qceiling (inject_Z k + - (1)) = (k - 1)%Z.
Proof.
  assert (E : inject_Z k + - (1) == inject_Z (k - 1)).
  { rewrite <- Z.add_opp_r, inject_Z_plus. reflexivity. }
  rewrite E. apply Qceiling_Z.
Qed.

Section Segmentation.

Variable g : Global.
Variable L : Q.
Hypothesis Hstickout : stickout g = Fin L.
Hypothesis HL : 0 < L.

Variable pts : list (Q * Q).
Hypothesis Hascending : ascending pts.
Hypothesis Htwo : (2 <= List.length pts)%nat.
Hypothesis Hzero : exists first, hd_error pts = Some first /\ snd first == 0.

Lemma positions_nonneg (p : Q * Q) : In p pts -> 0 <= snd p.
Proof.
  destruct Hzero as (first & Hhd & Hz). destruct pts as [|p0 rest]; [intros []|].
  injection Hhd as ->. intros [<-|Hp]; [lra|].
  apply StronglySorted_inv in Hascending. destruct Hascending as [_ Hall].
  rewrite Forall_forall in Hall. specialize (Hall p Hp). simpl in Hall. lra.
Qed.

Lemma maxZ_positive : 0 < maxZ pts.
Proof.
  destruct Hzero as (first & Hhd & Hz).
  destruct pts as [|p0 [|p1 rest]]; simpl in Htwo; try lia.
  injection Hhd as ->.
  apply StronglySorted_inv in Hascending. destruct Hascending as [_ Hall].
  pose proof (Forall_inv Hall) as H01. cbv beta in H01.
  pose proof (maxZ_ge (first :: p1 :: rest) p1 (or_intror (or_introl eq_refl))).
  lra.
Qed.

Lemma sections_positive : (1 <= Qceiling (maxZ pts / L))%Z.
Proof.
  pose proof maxZ_positive as Hm.
  assert (Ht : 0 < maxZ pts / L) by (apply Qlt_shift_div_l; lra).
  pose proof (Qle_ceiling (maxZ pts / L)) as Hc.
  assert (H : (0 < Qceiling (maxZ pts / L))%Z).
  { rewrite Zlt_Qlt. change (inject_Z 0) with 0. lra. }
  lia.
Qed.

(** A boundary before the last section lies strictly inside the part. *)
Lemma boundary_inside (j : Z) :
  (0 <= j < Qceiling (maxZ pts / L) - 1)%Z ->
  0 < boundary L j /\ boundary L j < maxZ pts.
Proof.
  intros Hj. unfold boundary.
  assert (H1 : 0 < inject_Z (j + 1)).
  { change 0 with (inject_Z 0). rewrite <- Zlt_Qlt. lia. }
  split; [now apply Qmult_lt_0_compat|].
  pose proof (Qceiling_lt (maxZ pts / L)) as Hc.
  assert (H2 : inject_Z (j + 1) <= inject_Z (Qceiling (maxZ pts / L) - 1)).
  { rewrite <- Zle_Qle. lia. }
  assert (H3 : inject_Z (j + 1) < maxZ pts / L) by lra.
  apply (Qmult_lt_compat_r _ _ L HL) in H3.
  now rewrite Qdiv_mult_cancel in H3.
Qed.

Lemma last_boundary_below :
  inject_Z (Qceiling (maxZ pts / L) - 1) * L < maxZ pts.
Proof.
  pose proof (Qceiling_lt (maxZ pts / L)) as Hc.
  apply (Qmult_lt_compat_r _ _ L HL) in Hc.
  now rewrite Qdiv_mult_cancel in Hc.
Qed.

Lemma maxZ_below_end : maxZ pts <= inject_Z (Qceiling (maxZ pts / L)) * L.
Proof.
  pose proof (Qle_ceiling (maxZ pts / L)) as Hc.
  apply (Qmult_le_compat_r _ _ L) in Hc; [|lra].
  now rewrite Qdiv_mult_cancel in Hc.
Qed.

Lemma EndCut_final :
  EndCut pts (maxZ pts) (ofZ (Z.of_nat (List.length (map pointQ pts)) - 1)) None.
Proof.
  rewrite length_map. unfold EndCut, ofZ. eexists. split; [reflexivity|].
  split; [change 0 with (inject_Z 0); rewrite <- Zle_Qle; lia|].
  split.
  - rewrite Qfloor_Z. rewrite filter_all; [lia|].
    intros p Hp. apply zUpTo_iff. now apply maxZ_ge.
  - destruct (maxZ_in pts) as (p & Hp & Hz).
    + intros E. rewrite E in Htwo. simpl in Htwo. lia.
    + exists p. split; [exact Hp | now rewrite Hz].
Qed.

(** The sections of the segmenter, one by one. *)
Lemma interpolatePoints_sections :
  exists sections,
    interpolatePoints g (map Fin (map fst pts)) (map Fin (map snd pts))
    = Some sections
    /\ Z.of_nat (List.length sections) = Qceiling (maxZ pts / L)
    /\ forall k section,
         nth_error sections k = Some section ->
         SectionOK pts (inject_Z (Z.of_nat k) * L)
                   (sectionUpper L pts (List.length sections) k) section.
Proof.
  pose proof sections_positive as HN.
  set (N := Qceiling (maxZ pts / L)) in *.
  destruct Hzero as (first & Hhd & Hz).
  assert (Hpts : exists rest, pts = first :: rest).
  { destruct pts as [|p0 rest]; [discriminate|]. injection Hhd as ->.
    now exists rest. }
  destruct Hpts as (rest & Epts).
  unfold interpolatePoints. rewrite Hstickout.
  assert (Hmax : mathMax (map Fin (map snd pts)) = Fin (maxZ pts)).
  { unfold maxZ. rewrite Epts. cbn [map]. apply mathMax_Fin. }
  rewrite Hmax, div_finite by (intros E; lra).
  change (ceil (Fin (maxZ pts / L))) with (ofZ N).
  change (ofZ N - Fin 1)%js with (Fin (inject_Z N + - (1))).
  unfold loopIndices. rewrite Qceiling_pred, Z.sub_0_r.
  set (n := Z.to_nat (N - 1)).
  assert (Hcut0 : Cut pts (inject_Z 0 * L) (Fin 0)
                      (toNumber (hd_error (map Fin (map fst pts))),
                       toNumber (hd_error (map Fin (map snd pts))))).
  { apply (Cut_initial pts first rest); [exact Epts | exact Hascending|].
    rewrite Hz. change (inject_Z 0) with 0. ring. }
  destruct (sectionLoop_sections g L Hstickout HL pts Hascending n 0%Z
              (Fin 0) _ Hcut0) as
    (sections & lastIndex & lastPoint & Hloop & Hlen & Hlast & Hsecs).
  { intros j Hj.
    destruct (boundary_inside j) as [Hb0 Hb1]; [unfold n in Hj; lia|].
    split.
    - exists first. split; [rewrite Epts; now left | lra].
    - destruct (maxZ_in pts) as (p & Hp & Hpz); [rewrite Epts; discriminate|].
      exists p. split; [exact Hp | rewrite Hpz; lra]. }
  rewrite Hloop.
  eexists. split; [reflexivity|]. split.
  { rewrite length_app, Hlen. simpl. unfold n. lia. }
  intros k section Hk. rewrite length_app, Hlen. cbn [List.length].
  unfold sectionUpper.
  destruct (Nat.lt_ge_cases k n) as [Hkn|Hkn].
  - rewrite nth_error_app1 in Hk by lia.
    assert (Hlt : (S k <? n + 1)%nat = true) by (apply Nat.ltb_lt; lia).
    rewrite Hlt. apply (Hsecs k section (Z.of_nat k) Hk). lia.
  - rewrite nth_error_app2 in Hk by lia.
    destruct (k - List.length sections)%nat as [|d] eqn:Ed;
      [|destruct d; discriminate].
    injection Hk as <-. assert (k = n) by lia. subst k.
    assert (Hge : (S n <? n + 1)%nat = false) by (apply Nat.ltb_ge; lia).
    rewrite Hge. rewrite organize_pointQ.
    change ((ofZ N - Fin 1) * Fin L)%js with (Fin ((inject_Z N + - (1)) * L)).
    assert (Hn : (0 + Z.of_nat n)%Z = (N - 1)%Z) by (unfold n; lia).
    rewrite Hn in Hlast.
    assert (HnN : Z.of_nat n = (N - 1)%Z) by lia.
    rewrite HnN.
    destruct (included_content pts (inject_Z (N - 1) * L) (maxZ pts)
                ((inject_Z N + - (1)) * L) lastIndex lastPoint
                (ofZ (Z.of_nat (List.length (map pointQ pts)) - 1)) None
                Hascending) as (content & Hpoints & Hcontent);
      [pose proof last_boundary_below; fold N in H; lra
      | exact Hlast | exact EndCut_final |].
    exists ((inject_Z N + - (1)) * L), content. split.
    { rewrite <- Z.add_opp_r, inject_Z_plus. reflexivity. }
    split; [exact Hpoints | exact Hcontent].
Qed.

End Segmentation.

(* ================================================================== *)
(** ** What a section holds, in the program's own terms                *)
(* ================================================================== *)

Lemma Qeq_bool_compat (a a' b b' : Q) :
  a == a' -> b == b' -> Qeq_bool a b = Qeq_bool a' b'.
Proof.
  intros Ha Hb. destruct (Qeq_bool a' b') eqn:E.
  - apply Qeq_bool_iff in E. apply Qeq_bool_iff. lra.
  - apply Qeq_bool_false_iff in E. apply Qeq_bool_false_iff. intros H.
    apply E. lra.
Qed.

Lemma appearsAt_shifted (p q : Q * Q) (c offset : Q) :
  c == offset -> appearsAt p offset (shifted c q) = sameMeasure p q.
Proof.
  intros Hc. unfold appearsAt, shifted, sameMeasure, pointQ. cbn.
  f_equal. apply Qeq_bool_compat; lra.
Qed.

Lemma filter_map_length {A B} (f : B -> bool) (h : A -> B) (l : list A) :
  List.length (filter f (map h l))
  = List.length (filter (fun a => f (h a)) l).
Proof.
  induction l as [|a l IH]; simpl; [reflexivity|].
  destruct (f (h a)); simpl; now rewrite IH.
Qed.

Lemma increasing_shifted (c : Q) (content : list (Q * Q)) :
  ascending content ->
  increasing (map DimensionPoint.z (map (shifted c) content)).
Proof.
  intros Hs. induction Hs as [|p content Hs IH Hall]; simpl; [constructor|].
  constructor; [exact IH|]. rewrite !Forall_map.
  eapply Forall_impl; [|exact Hall]. intros q Hq. cbv beta in Hq.
  unfold shifted, pointQ. cbn.
  change ((Fin (snd q + - c) >? Fin (snd p + - c))%js = true).
  apply gtb_Fin_true. lra.
Qed.

(** The one occurrence of a measured point in an ascending content sits
    where its position says. *)
Lemma occurrence_is_first (p first : Q * Q) (rest : list (Q * Q)) :
  ascending (first :: rest) ->
  snd first == snd p ->
  List.length (filter (sameMeasure p) (first :: rest)) = 1%nat ->
  sameMeasure p first = true.
Proof.
  intros Hs Hz Hone. destruct (sameMeasure p first) eqn:E; [reflexivity|].
  exfalso. simpl in Hone. rewrite E in Hone.
  apply StronglySorted_inv in Hs. destruct Hs as [_ Hall].
  rewrite Forall_forall in Hall.
  destruct (filter (sameMeasure p) rest) as [|q more] eqn:Ef; [discriminate|].
  assert (Hq : In q (filter (sameMeasure p) rest)) by (rewrite Ef; now left).
  apply filter_In in Hq. destruct Hq as [Hq Hm].
  apply sameMeasure_z in Hm. specialize (Hall q Hq). simpl in Hall. lra.
Qed.

Lemma occurrence_is_last (p final : Q * Q) (front : list (Q * Q)) :
  ascending (front ++ [final]) ->
  snd final == snd p ->
  List.length (filter (sameMeasure p) (front ++ [final])) = 1%nat ->
  sameMeasure p final = true.
Proof.
  intros Hs Hz Hone. destruct (sameMeasure p final) eqn:E; [reflexivity|].
  exfalso. rewrite filter_app, length_app in Hone. simpl in Hone.
  rewrite E in Hone. simpl in Hone.
  apply ascending_app_inv in Hs. destruct Hs as (_ & _ & H12).
  destruct (filter (sameMeasure p) front) as [|q more] eqn:Ef;
    [simpl in Hone; discriminate|].
  assert (Hq : In q (filter (sameMeasure p) front)) by (rewrite Ef; now left).
  apply filter_In in Hq. destruct Hq as [Hq Hm].
  apply sameMeasure_z in Hm. specialize (H12 q final Hq (or_introl eq_refl)). lra.
Qed.

Lemma section_facts (pts : list (Q * Q)) (b b' : Q) (section : MSection) :
  ascending pts -> b < b' ->
  SectionOK pts b b' section ->
  increasing (map DimensionPoint.z (points section))
  /\ eqb (hd NaN (map DimensionPoint.z (points section))) (Fin 0) = true
  /\ eqb (last (map DimensionPoint.z (points section)) NaN + Fin b)%js (Fin b')
     = true
  /\ (forall p, In p pts ->
        occurrences p b section = if zWithin b b' p then 1%nat else 0%nat)
  /\ (forall p, In p pts -> snd p == b ->
        appearsAt p b (hd noPoint (points section)) = true)
  /\ (forall p, In p pts -> snd p == b' ->
        appearsAt p b (last (points section) noPoint) = true).
Proof.
  intros Hs Hb (c & content & Hc & Hpoints & Hcontent).
  destruct (content_properties pts b b' content Hs Hb Hcontent)
    as (Hasc & (first & rest & Efirst & Hfirst)
        & (front & final & Elast & Hlast) & Hocc).
  assert (Hoccur : forall p, In p pts ->
            occurrences p b section
            = List.length (filter (sameMeasure p) content)).
  { intros p Hp. unfold occurrences. rewrite Hpoints, filter_map_length.
    f_equal. apply filter_ext. intros q. now apply appearsAt_shifted. }
  rewrite Hpoints. repeat split.
  - now apply increasing_shifted.
  - rewrite Efirst. cbn. apply Qeq_bool_iff. lra.
  - rewrite Elast, !map_app. cbn [map]. rewrite last_last. cbn.
    apply Qeq_bool_iff. lra.
  - intros p Hp. rewrite (Hoccur p Hp). now apply Hocc.
  - intros p Hp Hz. rewrite Efirst. cbn [map hd].
    rewrite (appearsAt_shifted p first c b Hc).
    apply (occurrence_is_first p first rest).
    + now rewrite <- Efirst.
    + lra.
    + rewrite <- Efirst, (Hocc p Hp).
      assert (Hw : zWithin b b' p = true) by (apply zWithin_iff; lra).
      now rewrite Hw.
  - intros p Hp Hz. rewrite Elast, map_app. cbn [map]. rewrite last_last.
    rewrite (appearsAt_shifted p final c b Hc).
    apply (occurrence_is_last p final front).
    + now rewrite <- Elast.
    + lra.
    + rewrite <- Elast, (Hocc p Hp).
      assert (Hw : zWithin b b' p = true) by (apply zWithin_iff; lra).
      now rewrite Hw.
Qed.

(* ================================================================== *)
(** ** Which sections hold a measured point                            *)
(* ================================================================== *)

Lemma le_floor_iff (k : Z) (t : Q) : inject_Z k <= t <-> (k <= Qfloor t)%Z.
Proof.
  split; intros H.
  - rewrite <- (Qfloor_Z k). now apply Qfloor_resp_le.
  - eapply Qle_trans; [|apply Qfloor_le]. now rewrite <- Zle_Qle.
Qed.

Lemma ceiling_le_iff (k : Z) (t : Q) : t <= inject_Z k <-> (Qceiling t <= k)%Z.
Proof.
  split; intros H.
  - rewrite <- (Qceiling_Z k). now apply Qceiling_resp_le.
  - eapply Qle_trans; [apply Qle_ceiling|]. now rewrite <- Zle_Qle.
Qed.

Lemma floor_ceiling (t : Q) : (Qfloor t <= Qceiling t <= Qfloor t + 1)%Z.
Proof.
  split.
  - rewrite Zle_Qle. eapply Qle_trans; [apply Qfloor_le | apply Qle_ceiling].
  - apply (proj1 (ceiling_le_iff _ _)). apply Qlt_le_weak, Qlt_floor.
Qed.

Lemma mult_le_div_iff (a z L : Q) : 0 < L -> (a * L <= z <-> a <= z / L).
Proof.
  intros HL. split; intros H.
  - now apply Qle_shift_div_l.
  - apply (Qmult_le_compat_r _ _ L) in H; [|lra].
    now rewrite Qdiv_mult_cancel in H.
Qed.

Lemma le_mult_div_iff (a z L : Q) : 0 < L -> (z <= a * L <-> z / L <= a).
Proof.
  intros HL. split; intros H.
  - now apply Qle_shift_div_r.
  - apply (Qmult_le_compat_r _ _ L) in H; [|lra].
    now rewrite Qdiv_mult_cancel in H.
Qed.

Section Membership.

Variable L : Q.
Hypothesis HL : 0 < L.

Variable pts : list (Q * Q).
Hypothesis Hascending : ascending pts.
Hypothesis Htwo : (2 <= List.length pts)%nat.
Hypothesis Hzero : exists first, hd_error pts = Some first /\ snd first == 0.

Variable n : nat.
Hypothesis Hn : Z.of_nat n = Qceiling (maxZ pts / L).

Lemma lower_below_upper (k : nat) :
  (k < n)%nat -> sectionLower L k < sectionUpper L pts n k.
Proof.
  intros Hk. unfold sectionLower, sectionUpper.
  destruct (S k <? n)%nat eqn:E.
  - rewrite inject_Z_plus. change (inject_Z 1) with 1.
    assert (Hnext : (inject_Z (Z.of_nat k) + 1) * L
                    == inject_Z (Z.of_nat k) * L + L) by ring.
    rewrite Hnext. generalize (inject_Z (Z.of_nat k) * L). intros t. lra.
  - apply Nat.ltb_ge in E.
    replace (Z.of_nat k) with (Qceiling (maxZ pts / L) - 1)%Z by lia.
    now apply last_boundary_below.
Qed.

(** Section [k] holds the measured point [p] exactly when [k] lies between
    the ceiling of [z / L] less one and the floor of [z / L]. *)
Lemma within_section (p : Q * Q) (k : nat) :
  In p pts -> (k < n)%nat ->
  zWithin (sectionLower L k) (sectionUpper L pts n k) p = true
  <-> (Qceiling (snd p / L) - 1 <= Z.of_nat k <= Qfloor (snd p / L))%Z.
Proof.
  intros Hp Hk. rewrite zWithin_iff. unfold sectionLower, sectionUpper.
  rewrite (mult_le_div_iff _ _ _ HL), le_floor_iff.
  destruct (S k <? n)%nat eqn:E.
  - rewrite (le_mult_div_iff _ _ _ HL), ceiling_le_iff. lia.
  - apply Nat.ltb_ge in E.
    assert (Hmax : snd p <= maxZ pts) by now apply maxZ_ge.
    assert (Hceil : (Qceiling (snd p / L) <= Z.of_nat n)%Z).
    { apply (proj1 (ceiling_le_iff _ _)), (proj1 (le_mult_div_iff _ _ _ HL)).
      rewrite Hn. pose proof (maxZ_below_end L HL pts). lra. }
    split; [intros [H _]; lia | intros [_ H]; now split].
Qed.

Lemma floor_nonneg (p : Q * Q) : In p pts -> (0 <= Qfloor (snd p / L))%Z.
Proof.
  intros Hp. apply le_floor_iff. change (inject_Z 0) with 0.
  apply Qle_shift_div_l; [exact HL|].
  pose proof (positions_nonneg pts Hascending Htwo Hzero p Hp). lra.
Qed.

Lemma ceiling_below_count (p : Q * Q) :
  In p pts -> (Qceiling (snd p / L) <= Z.of_nat n)%Z.
Proof.
  intros Hp. assert (Hmax : snd p <= maxZ pts) by now apply maxZ_ge.
  apply (proj1 (ceiling_le_iff _ _)), (proj1 (le_mult_div_iff _ _ _ HL)).
  rewrite Hn. pose proof (maxZ_below_end L HL pts). lra.
Qed.

(** A position whose quotient by [L] is a whole number is that multiple
    of [L]. *)
Lemma on_boundary (p : Q * Q) :
  Qceiling (snd p / L) = Qfloor (snd p / L) ->
  snd p == inject_Z (Qfloor (snd p / L)) * L.
Proof.
  intros E. pose proof (Qfloor_le (snd p / L)) as H1.
  pose proof (Qle_ceiling (snd p / L)) as H2. rewrite E in H2.
  assert (Ht : snd p / L == inject_Z (Qfloor (snd p / L))) by lra.
  rewrite <- Ht. now rewrite Qdiv_mult_cancel.
Qed.

End Membership.

(* ================================================================== *)
(** ** Segmentation coverage                                           *)
(* ================================================================== *)

Lemma nth_error_exists {A} (l : list A) (k : nat) :
  (k < List.length l)%nat -> exists a, nth_error l k = Some a.
Proof.
  intros H. destruct (nth_error l k) as [a|] eqn:E; [now exists a|].
  apply nth_error_None in E. lia.
Qed.

(** The segmentation over exact rationals, where every quotient, product
    and sum is exact.  Measured points in strictly ascending position from
    0, at least two of them, cut every [L] > 0.  The segmenter returns
    ceil(maxZ / L) sections.  Section [k] has strictly increasing
    positions, begins at its own zero and, once its offset [k L] is undone,
    ends at the next boundary [(k + 1) L], the last one at maxZ: the
    sections tile [0, maxZ].  Every measured point appears, diameter and
    position unchanged, exactly once in exactly one section, or exactly
    once in each of two consecutive sections, as the last point of one and
    the first of the next, its position then being their common boundary. *)
Theorem segmentation_covers_the_part (g : Global) (L : Q) (pts : list (Q * Q)) :
  stickout g = Fin L ->
  0 < L ->
  ascending pts ->
  (2 <= List.length pts)%nat ->
  (exists first, hd_error pts = Some first /\ snd first == 0) ->
  exists sections,
    interpolatePoints g (map Fin (map fst pts)) (map Fin (map snd pts))
    = Some sections
    /\ Z.of_nat (List.length sections) = Qceiling (maxZ pts / L)
    /\ (forall k section,
          nth_error sections k = Some section ->
          increasing (map DimensionPoint.z (points section))
          /\ eqb (hd NaN (map DimensionPoint.z (points section))) (Fin 0) = true
          /\ eqb (last (map DimensionPoint.z (points section)) NaN
                  + Fin (sectionLower L k))%js
                 (Fin (sectionUpper L pts (List.length sections) k)) = true)
    /\ (forall p,
          In p pts ->
          (exists k section,
              nth_error sections k = Some section
              /\ occurrences p (sectionLower L k) section = 1%nat
              /\ forall k' section',
                   nth_error sections k' = Some section' -> k' <> k ->
                   occurrences p (sectionLower L k') section' = 0%nat)
          \/ (exists k section next,
                nth_error sections k = Some section
                /\ nth_error sections (S k) = Some next
                /\ snd p == sectionLower L (S k)
                /\ occurrences p (sectionLower L k) section = 1%nat
                /\ occurrences p (sectionLower L (S k)) next = 1%nat
                /\ appearsAt p (sectionLower L k)
                     (last (points section) noPoint) = true
                /\ appearsAt p (sectionLower L (S k))
                     (hd noPoint (points next)) = true
                /\ forall k' section',
                     nth_error sections k' = Some section' ->
                     k' <> k -> k' <> S k ->
                     occurrences p (sectionLower L k') section' = 0%nat)).
Proof.
  intros Hstickout HL Hasc Htwo Hzero.
  destruct (interpolatePoints_sections g L Hstickout HL pts Hasc Htwo Hzero)
    as (sections & Hrun & Hcount & Hok).
  exists sections. split; [exact Hrun|]. split; [exact Hcount|].
  set (n := List.length sections) in *.
  assert (Hfacts : forall k section,
            nth_error sections k = Some section ->
            (k < n)%nat
            /\ increasing (map DimensionPoint.z (points section))
            /\ eqb (hd NaN (map DimensionPoint.z (points section))) (Fin 0) = true
            /\ eqb (last (map DimensionPoint.z (points section)) NaN
                    + Fin (sectionLower L k))%js
                   (Fin (sectionUpper L pts n k)) = true
            /\ (forall p, In p pts ->
                  occurrences p (sectionLower L k) section
                  = if zWithin (sectionLower L k) (sectionUpper L pts n k) p
                    then 1%nat else 0%nat)
            /\ (forall p, In p pts -> snd p == sectionLower L k ->
                  appearsAt p (sectionLower L k) (hd noPoint (points section))
                  = true)
            /\ (forall p, In p pts -> snd p == sectionUpper L pts n k ->
                  appearsAt p (sectionLower L k)
                    (last (points section) noPoint) = true)).
  { intros k section Hk.
    assert (Hlt : (k < n)%nat) by (apply nth_error_Some; congruence).
    split; [exact Hlt|].
    apply (section_facts pts); [exact Hasc | | exact (Hok k section Hk)].
    now apply (lower_below_upper L HL pts Htwo n Hcount). }
  split.
  { intros k section Hk. destruct (Hfacts k section Hk) as (_ & H1 & H2 & H3 & _).
    now repeat split. }
  intros p Hp.
  set (k0 := Qfloor (snd p / L)). set (c0 := Qceiling (snd p / L)).
  pose proof (floor_nonneg L HL pts Hasc Htwo Hzero p Hp) as Hk0. fold k0 in Hk0.
  pose proof (ceiling_below_count L HL pts n Hcount p Hp) as Hc0. fold c0 in Hc0.
  pose proof (floor_ceiling (snd p / L)) as Hfc. fold k0 c0 in Hfc.
  pose proof (sections_positive L HL pts Hasc Htwo Hzero) as Hn1.
  rewrite <- Hcount in Hn1.
  assert (Hin : forall k section,
            nth_error sections k = Some section ->
            (c0 - 1 <= Z.of_nat k <= k0)%Z ->
            occurrences p (sectionLower L k) section = 1%nat).
  { intros k section Hk Hrange.
    destruct (Hfacts k section Hk) as (Hlt & _ & _ & _ & Hocc & _).
    rewrite (Hocc p Hp).
    apply (within_section L HL pts Htwo n Hcount p k Hp Hlt) in Hrange.
    now rewrite Hrange. }
  assert (Hout : forall k section,
            nth_error sections k = Some section ->
            ~ (c0 - 1 <= Z.of_nat k <= k0)%Z ->
            occurrences p (sectionLower L k) section = 0%nat).
  { intros k section Hk Hrange.
    destruct (Hfacts k section Hk) as (Hlt & _ & _ & _ & Hocc & _).
    rewrite (Hocc p Hp).
    destruct (zWithin (sectionLower L k) (sectionUpper L pts n k) p) eqn:E;
      [|reflexivity].
    apply (within_section L HL pts Htwo n Hcount p k Hp Hlt) in E. contradiction. }
  assert (Hbound : forall k section,
            nth_error sections k = Some section -> (Z.of_nat k < Z.of_nat n)%Z).
  { intros k section Hk. destruct (Hfacts k section Hk) as (Hlt & _). lia. }
  destruct (Z.eq_dec c0 (k0 + 1)) as [Hfrac|Hwhole].
  - (* between two boundaries *)
    destruct (nth_error_exists sections (Z.to_nat k0)) as (section & Hk);
      [fold n; lia|].
    left. exists (Z.to_nat k0), section. split; [exact Hk|]. split.
    + apply (Hin _ _ Hk). lia.
    + intros k' section' Hk' Hne. apply (Hout _ _ Hk'). lia.
  - assert (Ec : c0 = k0) by lia.
    pose proof (on_boundary L HL p Ec) as Hz. fold k0 in Hz.
    destruct (Z.eq_dec k0 0) as [Hfirst|Hnotfirst].
    + (* the free end *)
      destruct (nth_error_exists sections 0%nat) as (section & Hk);
        [fold n; lia|].
      left. exists 0%nat, section. split; [exact Hk|]. split.
      * apply (Hin _ _ Hk). lia.
      * intros k' section' Hk' Hne. apply (Hout _ _ Hk'). lia.
    + destruct (Z.eq_dec k0 (Z.of_nat n)) as [Hend|Hinner].
      * (* the far end *)
        destruct (nth_error_exists sections (n - 1)%nat) as (section & Hk);
          [fold n; lia|].
        left. exists (n - 1)%nat, section. split; [exact Hk|]. split.
        -- apply (Hin _ _ Hk). lia.
        -- intros k' section' Hk' Hne. apply (Hout _ _ Hk').
           pose proof (Hbound _ _ Hk'). lia.
      * (* a boundary between two sections *)
        set (k := Z.to_nat (k0 - 1)).
        destruct (nth_error_exists sections k) as (section & Hk);
          [fold n; unfold k; lia|].
        destruct (nth_error_exists sections (S k)) as (next & Hnext);
          [fold n; unfold k; lia|].
        assert (Hlower : snd p == sectionLower L (S k)).
        { unfold sectionLower. replace (Z.of_nat (S k)) with k0
            by (unfold k; lia). exact Hz. }
        assert (Hupper : snd p == sectionUpper L pts n k).
        { unfold sectionUpper.
          assert (E : (S k <? n)%nat = true)
            by (apply Nat.ltb_lt; unfold k; lia).
          rewrite E. replace (Z.of_nat k + 1)%Z with k0 by (unfold k; lia).
          exact Hz. }
        right. exists k, section, next.
        split; [exact Hk|]. split; [exact Hnext|]. split; [exact Hlower|].
        split; [apply (Hin _ _ Hk); unfold k; lia|].
        split; [apply (Hin _ _ Hnext); unfold k; lia|].
        destruct (Hfacts k section Hk) as (_ & _ & _ & _ & _ & _ & Hlastp).
        destruct (Hfacts (S k) next Hnext) as (_ & _ & _ & _ & _ & Hfirstp & _).
        split; [now apply Hlastp|]. split; [now apply Hfirstp|].
        intros k' section' Hk' Hne Hne'. apply (Hout _ _ Hk').
        unfold k in Hne, Hne'. lia.
Qed.

Lemma measuredPart_ascending : ascending measuredPart.
Proof.
  unfold ascending, measuredPart.
  repeat (constructor; [| repeat (constructor; [reflexivity|]); constructor]).
  constructor.
Qed.

Lemma segmentation_covers_the_part_witness :
  stickout global = Fin 1.000
  /\ 0 < 1.000
  /\ ascending measuredPart
  /\ (2 <= List.length measuredPart)%nat
  /\ (exists first, hd_error measuredPart = Some first /\ snd first == 0)
  /\ exists sections,
       interpolatePoints global (map Fin (map fst measuredPart))
         (map Fin (map snd measuredPart)) = Some sections
       /\ Z.of_nat (List.length sections) = Qceiling (maxZ measuredPart / 1.000)
       /\ (forall k section,
             nth_error sections k = Some section ->
             increasing (map DimensionPoint.z (points section))
             /\ eqb (hd NaN (map DimensionPoint.z (points section))) (Fin 0) = true
             /\ eqb (last (map DimensionPoint.z (points section)) NaN
                     + Fin (sectionLower 1.000 k))%js
                    (Fin (sectionUpper 1.000 measuredPart
                            (List.length sections) k)) = true)
       /\ (forall p,
             In p measuredPart ->
             (exists k section,
                 nth_error sections k = Some section
                 /\ occurrences p (sectionLower 1.000 k) section = 1%nat
                 /\ forall k' section',
                      nth_error sections k' = Some section' -> k' <> k ->
                      occurrences p (sectionLower 1.000 k') section' = 0%nat)
             \/ (exists k section next,
                   nth_error sections k = Some section
                   /\ nth_error sections (S k) = Some next
                   /\ snd p == sectionLower 1.000 (S k)
                   /\ occurrences p (sectionLower 1.000 k) section = 1%nat
                   /\ occurrences p (sectionLower 1.000 (S k)) next = 1%nat
                   /\ appearsAt p (sectionLower 1.000 k)
                        (last (points section) noPoint) = true
                   /\ appearsAt p (sectionLower 1.000 (S k))
                        (hd noPoint (points next)) = true
                   /\ forall k' section',
                        nth_error sections k' = Some section' ->
                        k' <> k -> k' <> S k ->
                        occurrences p (sectionLower 1.000 k') section' = 0%nat)).
Proof.
  assert (H1 : stickout global = Fin 1.000) by reflexivity.
  assert (H2 : 0 < 1.000) by reflexivity.
  assert (H4 : (2 <= List.length measuredPart)%nat) by (simpl; lia).
  assert (H5 : exists first,
             hd_error measuredPart = Some first /\ snd first == 0).
  { exists (0.30, 0). split; reflexivity. }
  split; [exact H1|]. split; [exact H2|].
  split; [exact measuredPart_ascending|]. split; [exact H4|].
  split; [exact H5|].
  exact (segmentation_covers_the_part global 1.000 measuredPart H1 H2
           measuredPart_ascending H4 H5).
Defined.

(** The three sections of the example over exact rationals, point by point:
    the measured point at 1.0 closes the first section and opens the
    second, the synthesized point at 2.0 (diameter 0.35 + (1/1.5) * 0.05)
    closes the second and opens the third. *)
Example measuredPart_sections :
  exists first second third,
    interpolatePoints global (map Fin (map fst measuredPart))
      (map Fin (map snd measuredPart)) = Some [first; second; third]
    /\ samePoints (points first) (map pointQ [(0.30, 0); (0.35, 1.0)]) = true
    /\ samePoints (points second)
         (map pointQ [(0.35, 0); (0.35 + (1 / 1.5) * 0.05, 1.0)]) = true
    /\ samePoints (points third)
         (map pointQ [(0.35 + (1 / 1.5) * 0.05, 0); (0.40, 0.5)]) = true.
Proof.
  eexists _, _, _. split; [vm_compute; reflexivity|].
  repeat split; vm_compute; reflexivity.
Qed.

(* ================================================================== *)
(** ** Consecutive commands of the emitter                             *)
(* ================================================================== *)

Section Commands.

Variable numToString : number -> string.
Variable g : Global.

Lemma modeWord_same code st : lastGCode st = code -> modeWord code st = "".
Proof. intros H. unfold modeWord. now rewrite H, String.eqb_refl. Qed.

Lemma modeWord_other code st :
  lastGCode st <> code -> modeWord code st = "G" ++ code.
Proof.
  intros H. unfold modeWord.
  destruct (String.eqb_spec (lastGCode st) code); [contradiction | reflexivity].
Qed.

(** X1: Of two consecutive motion commands that both emit a line, the second
    restates its mode word exactly when the mode changes; its axis words
    are judged against the position the first command found, which no
    command updates. *)
Theorem motion_mode_word p1 p2 f1 f2 c1 c2 st :
  atPosition p1 st = false ->
  atPosition p2 st = false ->
  fst (rapidPosition numToString g p2 c2
         (snd (rapidPosition numToString g p1 c1 st)))
  = Ret (axisWords numToString g p2 st ++ commentWord c2 ++ nl)
  /\ fst (rapidPosition numToString g p2 c2
            (snd (linearInterpolation numToString g p1 f1 c1 st)))
     = Ret ("G00" ++ axisWords numToString g p2 st ++ commentWord c2 ++ nl)
  /\ fst (linearInterpolation numToString g p2 f2 c2
            (snd (rapidPosition numToString g p1 c1 st)))
     = Ret ("G01" ++ axisWords numToString g p2 st
            ++ feedWord numToString g f2
                 (snd (rapidPosition numToString g p1 c1 st))
            ++ commentWord c2 ++ nl)
  /\ fst (linearInterpolation numToString g p2 f2 c2
            (snd (linearInterpolation numToString g p1 f1 c1 st)))
     = Ret (axisWords numToString g p2 st
            ++ feedWord numToString g f2
                 (snd (linearInterpolation numToString g p1 f1 c1 st))
            ++ commentWord c2 ++ nl).
Proof.
  intros H1 H2.
  rewrite (rapidPosition_contract _ _ p1), (linearInterpolation_contract _ _ p1).
  rewrite H1. cbn [snd].
  rewrite !rapidPosition_contract, !linearInterpolation_contract.
  unfold atPosition in *. cbn [position]. rewrite H2.
  repeat split.
Qed.

(** X2: A motion command that carries no feed makes the emitter forget the
    feed: after a rapid move, or a linear move given no feed, a linear move
    restates its feed (any feed but -1, the value that stands for none);
    after a linear move with a feed, the feed is restated when it differs. *)
Theorem feed_word_after_motion p1 (f1 f : number) c1 st :
  atPosition p1 st = false ->
  eqb f (Fin (-1)) = false ->
  feedWord numToString g (Some f) (snd (rapidPosition numToString g p1 c1 st))
  = "F" ++ fmt numToString g f
  /\ feedWord numToString g (Some f)
       (snd (linearInterpolation numToString g p1 undefined c1 st))
     = "F" ++ fmt numToString g f
  /\ feedWord numToString g (Some f)
       (snd (linearInterpolation numToString g p1 (Some f1) c1 st))
     = if eqb f f1 then "" else "F" ++ fmt numToString g f.
Proof.
  intros H1 Hf.
  rewrite rapidPosition_contract, !linearInterpolation_contract, H1.
  unfold feedWord, undefined. cbn [snd lastFeed]. rewrite Hf.
  split; [reflexivity|]. split; [reflexivity|].
  now destruct (eqb f f1).
Qed.

(** X3: The motion command that follows a box cycle, or a native contour
    cycle, restates its mode word whatever came before the cycle, the
    rapid move that opens the box cycle included. *)
Theorem motion_after_cycle_restates_mode startPoint endPoint pts subroutineID
  finishBufferRadius f comment p f2 c2 st :
  atPosition p st = false ->
  (let st1 := snd (boxCycle numToString g startPoint endPoint
                     finishBufferRadius f comment st) in
   fst (rapidPosition numToString g p c2 st1)
   = Ret ("G00" ++ axisWords numToString g p st ++ commentWord c2 ++ nl)
   /\ fst (linearInterpolation numToString g p f2 c2 st1)
      = Ret ("G01" ++ axisWords numToString g p st
             ++ feedWord numToString g f2 st1 ++ commentWord c2 ++ nl))
  /\ (G75Functional g = true ->
      let st1 := snd (contourCycle numToString g startPoint pts subroutineID
                        finishBufferRadius f comment st) in
      fst (rapidPosition numToString g p c2 st1)
      = Ret ("G00" ++ axisWords numToString g p st ++ commentWord c2 ++ nl)
      /\ fst (linearInterpolation numToString g p f2 c2 st1)
         = Ret ("G01" ++ axisWords numToString g p st
                ++ feedWord numToString g f2 st1 ++ commentWord c2 ++ nl)).
Proof.
  intros Hp.
  assert (Hgen : forall st1,
             lastGCode st1 = "None" -> position st1 = position st ->
             fst (rapidPosition numToString g p c2 st1)
             = Ret ("G00" ++ axisWords numToString g p st ++ commentWord c2 ++ nl)
             /\ fst (linearInterpolation numToString g p f2 c2 st1)
                = Ret ("G01" ++ axisWords numToString g p st
                       ++ feedWord numToString g f2 st1 ++ commentWord c2 ++ nl)).
  { intros st1 Hmode Hpos.
    rewrite rapidPosition_contract, linearInterpolation_contract.
    unfold atPosition, axisWords in *. rewrite Hpos, Hp.
    rewrite !modeWord_after_reset by (exact Hmode || discriminate).
    split; reflexivity. }
  split.
  - apply Hgen; [apply boxCycle_resets_mode|].
    pose proof (keepsPosition_bind
                  (rapidPosition numToString g
                     (DimensionPoint.getMovePoint startPoint) None)
                  (fun code => bind resetLastGCode (fun _ => ret
                     (code ++ "G74" ++ "X" ++ fmt numToString g (DimensionPoint.x endPoint)
                      ++ "X" ++ fmt numToString g (DimensionPoint.z endPoint)
                      ++ "I" ++ fmt numToString g (depths_max g / Fin 2)%js
                      ++ "U" ++ fmt numToString g finishBufferRadius
                      ++ "F" ++ fmt numToString g f
                      ++ commentWord comment ++ nl)))) as H.
    apply H; [apply rapidPosition_keepsPosition|].
    intros code st'. reflexivity.
  - intros Hflag. apply Hgen; [now apply contourCycle_native_resets_mode|].
    apply contourCycle_keepsPosition.
Qed.

End Commands.

(* ================================================================== *)
(** ** The passes of the simulated contour cycle                       *)
(* ================================================================== *)

Lemma map_snd_combine_same {A B C} (f : A -> B) (h : A -> C) (l : list A) :
  combine (map f l) (map h l) = map (fun a => (f a, h a)) l.
Proof. induction l as [|a l IH]; [reflexivity|]. simpl. now rewrite IH. Qed.

Lemma map_combine_snd {A B C} (h : B -> C) (l1 : list A) (l2 : list B) :
  List.length l1 = List.length l2 ->
  map (fun dp => h (snd dp)) (combine l1 l2) = map h l2.
Proof.
  revert l2; induction l1 as [|a l1 IH]; intros [|b l2] H; try discriminate.
  - reflexivity.
  - simpl. f_equal. apply IH. now injection H.
Qed.

Lemma genMultiPassPoints_shape pts startX I passes :
  genMultiPassPoints pts startX I = Some passes ->
  last passes [] = pts
  /\ Forall (fun pass =>
               map DimensionPoint.z pass = map DimensionPoint.z pts) passes.
Proof.
  unfold genMultiPassPoints.
  destruct (loopIndices 1 _) as [idx|]; [|discriminate].
  intros H. injection H as <-. split; [apply last_last|].
  apply Forall_app. split; [|now constructor].
  apply Forall_map, Forall_forall. intros i _.
  rewrite map_map. cbn [DimensionPoint.z].
  apply map_combine_snd. now rewrite !length_map.
Qed.

Lemma genMultiPassPoints_nonempty pts startX I passes :
  genMultiPassPoints pts startX I = Some passes -> passes <> [].
Proof.
  unfold genMultiPassPoints.
  destruct (loopIndices 1 _) as [idx|]; [|discriminate].
  intros H. injection H as <-. intros E. now apply app_eq_nil in E.
Qed.

(** X4: Whenever the subdivision returns, there is at least one pass, the last
    pass is the contour itself, and every pass follows the contour point by
    point: it has the z of each contour point, in order. *)
Theorem genMultiPassPoints_pass_shape pts startX I passes :
  genMultiPassPoints pts startX I = Some passes ->
  passes <> []
  /\ last passes [] = pts
  /\ Forall (fun pass =>
               map DimensionPoint.z pass = map DimensionPoint.z pts) passes.
Proof.
  intros H. split; [now apply genMultiPassPoints_nonempty in H|].
  now apply genMultiPassPoints_shape in H.
Qed.

Lemma Qminl_le (a : Q) (l : list Q) (z : Q) : In z (a :: l) -> Qminl a l <= z.
Proof.
  revert a; induction l as [|b l IH]; intros a.
  - intros [<-|[]]. simpl. lra.
  - intros [<-|H]; simpl.
    + apply Q.le_min_l.
    + eapply Qle_trans; [apply Q.le_min_r | now apply IH].
Qed.

(** With a zero depth of cut and a contour point below the start plane the
    number of passes is +Infinity: the pass loop has no exit. *)
Lemma genMultiPassPoints_zero_depth (pts : list (Q * Q)) (startX I : Q) :
  I == 0 ->
  Exists (fun p => fst p < startX) pts ->
  genMultiPassPoints (map pointQ pts) (Fin startX) (Fin I) = None.
Proof.
  intros HI Hex. apply Exists_exists in Hex. destruct Hex as (p & Hp & Hlt).
  destruct (map fst pts) as [|a l] eqn:Hxs;
    [destruct pts; [destruct Hp | discriminate]|].
  assert (Hmin : Qminl a l <= fst p).
  { apply Qminl_le. rewrite <- Hxs. now apply in_map. }
  unfold genMultiPassPoints. rewrite pointQ_xs, Hxs, mathMin_Fin.
  change (Fin 2 * Fin I)%js with (Fin (2 * I)).
  change (Fin startX - Fin (Qminl a l))%js with (Fin (startX - Qminl a l)).
  unfold div.
  assert (E : Qeq_bool (2 * I) 0 = true) by (apply Qeq_bool_iff; lra).
  rewrite E. unfold signQ.
  assert (Hgt : (startX - Qminl a l ?= 0)%Q = Gt) by (apply Qgt_alt; lra).
  rewrite Hgt. reflexivity.
Qed.

Section ZeroDepth.

Variable numToString : number -> string.
Variable g : Global.

(** X6: With the maximal depth set to zero, the simulated contour cycle of a
    contour that is not flat never returns: the number of passes is
    +Infinity and the pass loop has no exit. *)
Theorem zero_depth_never_returns startPoint (pts : list (Q * Q)) (p q : Q * Q)
  subroutineID (U : Q) f comment st :
  G75Functional g = false ->
  depths_max g = Fin 0 ->
  In p pts -> In q pts -> fst p < fst q ->
  fst (contourCycle numToString g startPoint (map pointQ pts) subroutineID
         (Fin U) f comment st) = Diverge.
Proof.
  intros Hflag Hdepth Hp Hq Hlt.
  destruct (returns_run _ st
              (linearInterpolation_returns numToString g
                 (DimensionPoint.getMovePoint startPoint) (Some f)
                 (Some (simulatedComment comment)))) as (line & st1 & Hline).
  pose proof (contourCycle_simulated_outcome numToString g startPoint
                (map pointQ pts) subroutineID (Fin U) f comment st line st1
                Hflag Hline) as Hout.
  assert (Hnone : simPasses (Fin U) (depths_max g / Fin 2)%js (map pointQ pts)
                  = None).
  { rewrite Hdepth. change (Fin 0 / Fin 2)%js with (Fin (0 / 2)).
    unfold simPasses. rewrite finishSpaced_contour, pointQ_xs.
    destruct (map fst (offsetContour U pts)) as [|a l] eqn:Hxs.
    { destruct pts; [destruct Hp | discriminate]. }
    rewrite mathMax_Fin. apply genMultiPassPoints_zero_depth; [reflexivity|].
    apply Exists_exists. exists (fst p + 2 * U, snd p). split.
    - unfold offsetContour.
      apply (in_map (fun p => (fst p + 2 * U, snd p)) pts p Hp).
    - cbn [fst].
      assert (Hin : In (fst q + 2 * U) (a :: l)).
      { rewrite <- Hxs. unfold offsetContour. rewrite map_map.
        apply (in_map (fun p => fst p + 2 * U) pts q Hq). }
      pose proof (Qmaxl_ge a l _ Hin). lra. }
  now rewrite Hnone in Hout.
Qed.

End ZeroDepth.

(* ================================================================== *)
(** ** Sections as objects                                             *)
(* ================================================================== *)

Lemma sortBy_sorted {A} (cmp : A -> A -> number) (l : list A) :
  Sorted (fun a b => (Fin 0 <? cmp a b)%js = false) l -> sortBy cmp l = l.
Proof.
  induction 1 as [|a l Hs IH Hhd]; [reflexivity|].
  change (sortBy cmp (a :: l)) with (insertBy cmp a (sortBy cmp l)).
  rewrite IH. destruct Hhd as [|b l' Hab]; [reflexivity|].
  cbn [insertBy]. now rewrite Hab.
Qed.

Lemma Sorted_map_adjacent {A B} (R : A -> A -> Prop) (R' : B -> B -> Prop)
  (h : A -> B) (l : list A) :
  (forall a b, R a b -> R' (h a) (h b)) ->
  StronglySorted R l -> Sorted R' (map h l).
Proof.
  intros HR. induction 1 as [|a l Hs IH Hall]; simpl; constructor.
  - exact IH.
  - destruct l as [|b l]; simpl; constructor.
    apply HR. now inversion Hall.
Qed.

Lemma StronglySorted_map {A B} (R : A -> A -> Prop) (R' : B -> B -> Prop)
  (h : A -> B) (l : list A) :
  (forall a b, R a b -> R' (h a) (h b)) ->
  StronglySorted R l -> StronglySorted R' (map h l).
Proof.
  intros HR. induction 1 as [|a l Hs IH Hall]; simpl; constructor.
  - exact IH.
  - apply Forall_map. eapply Forall_impl; [|exact Hall]. intros b. apply HR.
Qed.

Lemma ltb_Fin (a b : Q) : (Fin a <? Fin b)%js = true <-> a < b.
Proof.
  simpl. destruct (a ?= b)%Q eqn:E.
  - apply Qeq_alt in E. split; [discriminate | lra].
  - apply Qlt_alt in E. tauto.
  - apply Qgt_alt in E. split; [discriminate | lra].
Qed.

Lemma ltb_Fin_false (a b : Q) : (Fin a <? Fin b)%js = false <-> b <= a.
Proof.
  destruct (Fin a <? Fin b)%js eqn:E.
  - apply ltb_Fin in E. split; [discriminate | lra].
  - split; [|reflexivity]. intros _.
    destruct (Qlt_le_dec a b) as [H|H]; [|exact H].
    apply ltb_Fin in H. congruence.
Qed.

Lemma mathMax_pointQ_zs (pts : list (Q * Q)) :
  pts <> [] -> mathMax (map DimensionPoint.z (map pointQ pts)) = Fin (maxZ pts).
Proof.
  intros Hne. rewrite pointQ_zs. unfold maxZ.
  destruct (map snd pts) as [|a l] eqn:E;
    [destruct pts; [congruence | discriminate]|].
  apply mathMax_Fin.
Qed.

Section Sections.

Variable g : Global.

(** X7: For a section whose points stand in ascending position, as the
    segmenter builds them, the machining points are the points in the same
    order, each z mirrored in the section length and taken back by the
    stickout; with a finite stickout their z never increases from one
    machining point to a later one. *)
Theorem newSection_machining_order (pts : list (Q * Q)) :
  ascending pts ->
  machiningPoints (newSection g (map pointQ pts))
  = map (fun point =>
           DimensionPoint.mk (DimensionPoint.x point)
             (neg (DimensionPoint.z point)
              + length (newSection g (map pointQ pts)) - stickout g)%js)
        (points (newSection g (map pointQ pts)))
  /\ (finite (stickout g) ->
      StronglySorted (fun a b => (a <? b)%js = false)
        (map DimensionPoint.z (machiningPoints (newSection g (map pointQ pts))))).
Proof.
  intros Hasc.
  destruct pts as [|p0 rest] eqn:Epts; [split; [reflexivity | constructor]|].
  rewrite <- Epts in *.
  assert (Hne : pts <> []) by (rewrite Epts; discriminate).
  assert (Hlen : length (newSection g (map pointQ pts)) = Fin (maxZ pts))
    by (apply mathMax_pointQ_zs; exact Hne).
  assert (Hsort :
            sortBy (fun a b => (DimensionPoint.z b - DimensionPoint.z a)%js)
              (map (fun point =>
                      DimensionPoint.mk (DimensionPoint.x point)
                        (neg (DimensionPoint.z point) + Fin (maxZ pts))%js)
                   (map pointQ pts))
            = map (fun point =>
                     DimensionPoint.mk (DimensionPoint.x point)
                       (neg (DimensionPoint.z point) + Fin (maxZ pts))%js)
                  (map pointQ pts)).
  { apply sortBy_sorted. rewrite map_map.
    apply (Sorted_map_adjacent (fun p q : Q * Q => snd p < snd q)); [|exact Hasc].
    intros a b Hab.
    cbn [DimensionPoint.z DimensionPoint.x pointQ fst snd neg add sub].
    apply ltb_Fin_false. lra. }
  assert (Heq : machiningPoints (newSection g (map pointQ pts))
                = map (fun point =>
                         DimensionPoint.mk (DimensionPoint.x point)
                           (neg (DimensionPoint.z point)
                            + length (newSection g (map pointQ pts))
                            - stickout g)%js)
                      (points (newSection g (map pointQ pts)))).
  { rewrite Hlen. unfold newSection at 1.
    cbn [machiningPoints points].
    rewrite (mathMax_pointQ_zs pts Hne), Hsort, map_map. reflexivity. }
  split; [exact Heq|].
  intros Hfin. destruct (finite_inv _ Hfin) as [L HL].
  rewrite Heq, Hlen, HL. cbn [points newSection]. rewrite !map_map.
  apply (StronglySorted_map (fun p q : Q * Q => snd p < snd q)); [|exact Hasc].
  intros a b Hab.
  cbn [DimensionPoint.z DimensionPoint.x pointQ fst snd neg add sub].
  apply ltb_Fin_false. lra.
Qed.

End Sections.

Lemma length_insertBy {A} (cmp : A -> A -> number) (a : A) (l : list A) :
  List.length (insertBy cmp a l) = S (List.length l).
Proof.
  induction l as [|b l IH]; [reflexivity|]. cbn [insertBy].
  destruct (Fin 0 <? cmp a b)%js; cbn [List.length]; [now rewrite IH | reflexivity].
Qed.

Lemma length_sortBy {A} (cmp : A -> A -> number) (l : list A) :
  List.length (sortBy cmp l) = List.length l.
Proof.
  induction l as [|a l IH]; [reflexivity|].
  change (sortBy cmp (a :: l)) with (insertBy cmp a (sortBy cmp l)).
  now rewrite length_insertBy, IH.
Qed.

Lemma length_machiningPoints (g : Global) (pts : list DimensionPoint.t) :
  List.length (machiningPoints (newSection g pts)) = List.length pts.
Proof.
  unfold newSection. cbn [machiningPoints].
  now rewrite length_map, length_sortBy, length_map.
Qed.

Lemma machiningPoints_nonempty (g : Global) (pts : list DimensionPoint.t) :
  pts <> [] -> machiningPoints (newSection g pts) <> [].
Proof.
  intros Hne E. apply (f_equal (@List.length _)) in E.
  rewrite length_machiningPoints in E. destruct pts; [congruence | discriminate].
Qed.

Lemma mathMax_NaN (l : list number) : In NaN l -> mathMax l = NaN.
Proof.
  induction l as [|a l IH]; [intros []|].
  intros [->|H]; [reflexivity|].
  change (mathMax (a :: l)) with (max2 a (mathMax l)).
  rewrite (IH H). now destruct a.
Qed.

Section Guard.

Variable numToString : number -> string.
Variable g : Global.

Lemma sectionCycle_not_over startDiameter section subroutineID st msg :
  (maxDiameter section >? startDiameter)%js = false ->
  fst (sectionCycle numToString g startDiameter section subroutineID st)
  <> Throw (RangeError msg).
Proof.
  intros Hover.
  destruct (list_eq_dec_nil (machiningPoints section)) as [Hmp|Hne].
  - rewrite (sectionCycle_empty numToString g _ _ _ st Hover Hmp). discriminate.
  - apply (sectionCycle_body_neverThrows numToString g startDiameter section
             subroutineID Hover Hne).
Qed.

(** X8: The section cycle of a section of finite points throws the range error
    exactly when one of its diameters exceeds the stock diameter; a section
    with no point is not rejected by this check. *)
Theorem sectionCycle_rejects_exactly_oversize (pts : list (Q * Q)) (stock : Q)
  subroutineID st :
  fst (sectionCycle numToString g (Fin stock) (newSection g (map pointQ pts))
         subroutineID st)
  = Throw (RangeError rangeErrorMessage)
  <-> Exists (fun p => stock < fst p) pts.
Proof.
  assert (Hguard : (maxDiameter (newSection g (map pointQ pts)) >? Fin stock)%js
                   = true
                   <-> Exists (fun p => stock < fst p) pts).
  { cbn [maxDiameter newSection]. rewrite pointQ_xs.
    destruct (map fst pts) as [|a l] eqn:Hxs.
    - destruct pts; [|discriminate]. simpl. split; [discriminate|].
      intros H. inversion H.
    - rewrite mathMax_Fin. unfold gtb. rewrite ltb_Fin. split.
      + intros Hlt. pose proof (Qmaxl_in a l) as Hin. rewrite <- Hxs in Hin.
        apply in_map_iff in Hin. destruct Hin as (p & Hp & Hin).
        apply Exists_exists. exists p. split; [exact Hin|]. now rewrite Hp.
      + intros Hex. apply Exists_exists in Hex. destruct Hex as (p & Hp & Hlt).
        assert (Hin : In (fst p) (a :: l)) by (rewrite <- Hxs; now apply in_map).
        pose proof (Qmaxl_ge a l _ Hin). lra. }
  split.
  - intros Hthrow. apply Hguard.
    destruct (maxDiameter (newSection g (map pointQ pts)) >? Fin stock)%js eqn:E;
      [reflexivity|].
    exfalso. revert Hthrow. now apply sectionCycle_not_over.
  - intros Hex. apply Hguard in Hex.
    now rewrite (sectionCycle_over numToString g _ _ _ st Hex).
Qed.

(** X9: A point whose diameter is NaN switches the check off: the largest
    diameter of the section is then NaN, which compares greater than
    nothing, and the range error is never thrown whatever the other
    diameters are. *)
Theorem nan_diameter_passes_the_check (pts : list DimensionPoint.t)
  (point : DimensionPoint.t) stockDiameter subroutineID st msg :
  In point pts ->
  DimensionPoint.x point = NaN ->
  maxDiameter (newSection g pts) = NaN
  /\ fst (sectionCycle numToString g stockDiameter (newSection g pts)
            subroutineID st)
     <> Throw (RangeError msg).
Proof.
  intros Hin Hx.
  assert (Hmax : maxDiameter (newSection g pts) = NaN).
  { cbn [maxDiameter newSection]. apply mathMax_NaN. rewrite <- Hx.
    now apply in_map. }
  split; [exact Hmax|]. apply sectionCycle_not_over. rewrite Hmax.
  now destruct stockDiameter.
Qed.

End Guard.

(** X10: [getLengthOffsetPoint] at an index of the section gives the point with
    its z between minus the section length and 0 (for points at z of 0 or
    more); at any index past the end it throws. *)
Theorem getLengthOffsetPoint_range (g : Global) (pts : list (Q * Q))
  (k : nat) (p : Q * Q) :
  nth_error pts k = Some p ->
  (exists z',
      getLengthOffsetPoint (newSection g (map pointQ pts)) (ofZ (Z.of_nat k))
      = Ret (DimensionPoint.mk (Fin (fst p)) (Fin z'))
      /\ z' == snd p - maxZ pts
      /\ z' <= 0
      /\ (0 <= snd p -> - maxZ pts <= z'))
  /\ (forall j, (List.length pts <= j)%nat ->
        getLengthOffsetPoint (newSection g (map pointQ pts)) (ofZ (Z.of_nat j))
        = Throw (TypeError typeErrorMessage)).
Proof.
  intros Hk.
  assert (Hne : pts <> []) by (intros E; rewrite E in Hk; destruct k; discriminate).
  assert (Hidx : forall j, asIndex (ofZ (Z.of_nat j)) = Some j).
  { intros j. rewrite <- (Nat2Z.id j) at 2.
    apply asIndex_int; [reflexivity | lia]. }
  split.
  - exists (snd p + - maxZ pts). unfold getLengthOffsetPoint.
    rewrite Hidx. cbn [points newSection length].
    rewrite nth_error_map, Hk, (mathMax_pointQ_zs pts Hne). cbn [option_map].
    split; [reflexivity|]. split; [reflexivity|].
    pose proof (maxZ_ge pts p (nth_error_In _ _ Hk)). split; [lra|]. intros; lra.
  - intros j Hj. unfold getLengthOffsetPoint. rewrite Hidx.
    cbn [points newSection].
    assert (E : nth_error (map pointQ pts) j = None)
      by (apply nth_error_None; now rewrite length_map).
    now rewrite E.
Qed.

(* ================================================================== *)
(** ** The text of a section                                           *)
(* ================================================================== *)

Section WhatIsPrinted.

Variable numToString : number -> string.
Variable g : Global.

(** Motion commands where no position is known: every axis given is
    printed. *)
Lemma linear_xz x z f c st :
  position st = position state0 ->
  linearInterpolation numToString g
    (MovePoint.mk (Some x) undefined (Some z)) f c st
  = (Ret (modeWord "01" st ++ xzWords numToString g x z
          ++ feedWord numToString g f st ++ commentWord c ++ nl),
     {| lastGCode := "01";
        lastFeed := match f with None => Fin (-1) | Some v => v end;
        position := position st |}).
Proof.
  intros Hp. rewrite linearInterpolation_contract.
  unfold atPosition, axisWords, axisWord, xzWords. rewrite Hp. cbn.
  now rewrite !append_assoc.
Qed.

Lemma linear_x x f c st :
  position st = position state0 ->
  linearInterpolation numToString g
    (MovePoint.mk (Some x) undefined undefined) f c st
  = (Ret (modeWord "01" st ++ "X" ++ fmt numToString g x
          ++ feedWord numToString g f st ++ commentWord c ++ nl),
     {| lastGCode := "01";
        lastFeed := match f with None => Fin (-1) | Some v => v end;
        position := position st |}).
Proof.
  intros Hp. rewrite linearInterpolation_contract.
  unfold atPosition, axisWords, axisWord. rewrite Hp. cbn.
  rewrite ?append_assoc. reflexivity.
Qed.

Lemma rapid_xz x z c st :
  position st = position state0 ->
  rapidPosition numToString g (MovePoint.mk (Some x) undefined (Some z)) c st
  = (Ret (modeWord "00" st ++ xzWords numToString g x z
          ++ commentWord c ++ nl),
     afterRapid st).
Proof.
  intros Hp. rewrite rapidPosition_contract.
  unfold atPosition, axisWords, axisWord, xzWords, afterRapid. rewrite Hp. cbn.
  now rewrite !append_assoc.
Qed.

Lemma rapid_z z c st :
  position st = position state0 ->
  rapidPosition numToString g (MovePoint.mk undefined undefined (Some z)) c st
  = (Ret (modeWord "00" st ++ "Z" ++ fmt numToString g z
          ++ commentWord c ++ nl),
     afterRapid st).
Proof.
  intros Hp. rewrite rapidPosition_contract.
  unfold atPosition, axisWords, axisWord, afterRapid. rewrite Hp. cbn.
  reflexivity.
Qed.

(** A target with no axis is no command at all. *)
Lemma linear_none f c st :
  linearInterpolation numToString g
    (MovePoint.mk undefined undefined undefined) f c st = (Ret "", st).
Proof. reflexivity. Qed.

Lemma rapid_none c st :
  rapidPosition numToString g
    (MovePoint.mk undefined undefined undefined) c st = (Ret "", st).
Proof. reflexivity. Qed.

End WhatIsPrinted.

Section Tapers.

Variable numToString : number -> string.
Variable g : Global.

Lemma taperSubroutine_lines id pts :
  taperSubroutine numToString g id pts
  = contourLines numToString g pts ++ "RF" ++ nl.
Proof.
  unfold taperSubroutine, contourLines, xzWords.
  induction pts as [|p pts IH]; [reflexivity|].
  cbn [fold_right]. rewrite IH. now rewrite !append_assoc.
Qed.

(** The lines of a contour cut at an unchanged feed: two axis words each. *)
Lemma contour_lines_run (f : number) pts pos :
  pos = position state0 -> f <> NaN ->
  appendEach (fun point => linearInterpolation numToString g point (Some f) None)
    (map DimensionPoint.getMovePoint pts)
    {| lastGCode := "01"; lastFeed := f; position := pos |}
  = (Ret (contourLines numToString g pts),
     {| lastGCode := "01"; lastFeed := f; position := pos |}).
Proof.
  intros Hpos Hf. induction pts as [|p pts IH]; [reflexivity|].
  cbn [map appendEach]. unfold bind.
  unfold DimensionPoint.getMovePoint at 1.
  rewrite linear_xz by exact Hpos.
  cbn [position]. rewrite IH.
  unfold modeWord, feedWord. cbn [lastGCode lastFeed].
  rewrite (eqb_refl f Hf). cbn [String.eqb negb commentWord contourLines fold_right].
  unfold ret. f_equal. f_equal.
  cbn. now rewrite !append_assoc.
Qed.

Lemma taper_max pts :
  mathMax (map (fun point => toNumber (MovePoint.x point))
               (map DimensionPoint.getMovePoint pts))
  = mathMax (map DimensionPoint.x pts).
Proof. rewrite map_map. reflexivity. Qed.

Lemma basicTaper_prints first rest (f : number) st :
  position st = position state0 ->
  f <> NaN ->
  basicTaper numToString g
    (map DimensionPoint.getMovePoint (first :: rest)) f st
  = (Ret (taperText numToString g (modeWord "01" st)
            (feedWord numToString g (Some f) st) first rest),
     {| lastGCode := "01"; lastFeed := Fin (-1); position := position st |})
  /\ basicTaper numToString g [] f st
     = (Ret (modeWord "01" st
             ++ "X" ++ fmt numToString g (NegInf + xClearance g)%js ++ nl),
        {| lastGCode := "01"; lastFeed := Fin (-1); position := position st |}).
Proof.
  intros Hp Hf. split.
  - unfold basicTaper. unfold bind at 1, get.
    rewrite taper_max.
    assert (Hz : pos_z (position st) = undefined) by now rewrite Hp.
    rewrite Hz. cbn [map appendEach]. unfold bind.
    unfold DimensionPoint.getMovePoint at 1.
    rewrite linear_xz by exact Hp.
    rewrite contour_lines_run by assumption.
    unfold ret. cbv beta iota.
    rewrite linear_x by exact Hp. cbn [position].
    rewrite rapid_none. unfold taperText.
    unfold modeWord at 2. cbn [lastGCode String.eqb negb].
    unfold feedWord at 2. unfold undefined. cbn [commentWord].
    f_equal. f_equal. cbn [append].
    now rewrite !append_assoc, !append_empty_r.
  - unfold basicTaper. unfold bind at 1, get.
    assert (Hz : pos_z (position st) = undefined) by now rewrite Hp.
    rewrite Hz. cbn [map appendEach mathMax fold_right]. unfold bind, ret.
    rewrite linear_x by exact Hp. cbn [position].
    rewrite rapid_none.
    unfold feedWord, undefined. cbn [commentWord].
    f_equal. f_equal. cbn [append].
    now rewrite ?append_assoc, ?append_empty_r.
Qed.

(** X11: [basicTaper] where no position is known.  Along a contour it prints
    the first point with whatever mode and feed words the state asks for,
    one line of both axis words per further point, and the move out to the
    largest diameter plus the clearance; the rapid move back to the z it
    started from prints nothing, that z being unknown.  With no point at
    all it prints one move, to X of -Infinity plus the clearance. *)
Theorem basicTaper_text first rest (f : number) st :
  position st = position state0 ->
  f <> NaN ->
  basicTaper numToString g
    (map DimensionPoint.getMovePoint (first :: rest)) f st
  = (Ret (taperText numToString g (modeWord "01" st)
            (feedWord numToString g (Some f) st) first rest),
     {| lastGCode := "01"; lastFeed := Fin (-1); position := position st |})
  /\ basicTaper numToString g [] f st
     = (Ret (modeWord "01" st
             ++ "X" ++ fmt numToString g (NegInf + xClearance g)%js ++ nl),
        {| lastGCode := "01"; lastFeed := Fin (-1); position := position st |}).
Proof. apply basicTaper_prints. Qed.

End Tapers.

(** Brings a text to the form of one right-nested concatenation. *)
Ltac text_norm :=
  repeat first [rewrite !append_assoc | progress cbn [append]].

Section SectionText.

Variable numToString : number -> string.
Variable g : Global.

(** One pass of the simulated cycle ends on its rapid move: the z it
    retracts to is computed from an unknown z and is always printed. *)
Lemma pass_run pass maxDiam (F : number) st :
  position st = position state0 ->
  exists text,
    bind (basicTaper numToString g (map DimensionPoint.getMovePoint pass) F)
      (fun a =>
         bind (linearInterpolation numToString g
                 (MovePoint.mk (Some (maxDiam + xClearance g)%js)
                               undefined undefined)
                 (Some F) None)
           (fun b =>
              bind (rapidPosition numToString g
                      (MovePoint.mk undefined undefined
                         (Some (toNumber undefined + zClearance g)%js))
                      None)
                (fun c => ret (a ++ b ++ c)))) st
    = (Ret text, afterRapid st).
Proof.
  intros Hp. unfold bind.
  destruct (returns_run _ st (basicTaper_returns numToString g
              (map DimensionPoint.getMovePoint pass) F)) as (a & st1 & Ha).
  pose proof (keepsPosition_run _ _ _ _
                (basicTaper_keepsPosition numToString g _ F) Ha) as Hp1.
  rewrite Ha.
  rewrite linear_x by congruence.
  rewrite rapid_z by (cbn [position]; congruence).
  unfold ret, afterRapid. cbn [position]. rewrite Hp1.
  eexists. reflexivity.
Qed.

Lemma passes_run (passes : list (list DimensionPoint.t)) maxDiam (F : number) :
  passes <> [] ->
  forall st,
    position st = position state0 ->
    exists text,
      appendEach
        (fun pass =>
           bind (basicTaper numToString g
                   (map DimensionPoint.getMovePoint pass) F)
             (fun a =>
                bind (linearInterpolation numToString g
                        (MovePoint.mk (Some (maxDiam + xClearance g)%js)
                                      undefined undefined)
                        (Some F) None)
                  (fun b =>
                     bind (rapidPosition numToString g
                             (MovePoint.mk undefined undefined
                                (Some (toNumber undefined + zClearance g)%js))
                             None)
                       (fun c => ret (a ++ b ++ c)))))
        passes st
      = (Ret text, afterRapid st).
Proof.
  induction passes as [|pass passes IH]; [congruence|]. intros _ st Hp.
  cbn [appendEach]. unfold bind at 1.
  destruct (pass_run pass maxDiam F st Hp) as (text & Hrun).
  rewrite Hrun.
  destruct passes as [|next passes].
  - cbn [appendEach]. unfold bind, ret. eexists. reflexivity.
  - destruct (IH ltac:(discriminate) (afterRapid st) Hp) as (more & Hmore).
    unfold bind at 1. rewrite Hmore. unfold ret. eexists. reflexivity.
Qed.

(** The simulated cycle where no position is known: it prints no box cut,
    returns nothing, and leaves the emitter in rapid mode with the feed
    forgotten. *)
Lemma simG75_run pts (I U F : number) passes st :
  position st = position state0 ->
  simPasses U I pts = Some passes ->
  simG75 numToString g pts I U F st = (Ret None, afterRapid st).
Proof.
  intros Hp Hpasses. unfold simG75, simG75_code. unfold bind at 1 2, get.
  unfold simPasses in Hpasses. rewrite Hpasses.
  assert (Hx : pos_x (position st) = undefined) by now rewrite Hp.
  assert (Hy : pos_y (position st) = undefined) by now rewrite Hp.
  assert (Hz : pos_z (position st) = undefined) by now rewrite Hp.
  rewrite Hx, Hy, Hz. cbn [MovePoint.x MovePoint.z].
  destruct (passes_run passes
              (mathMax (map DimensionPoint.x (map (finishSpaced U) pts))) F
              (genMultiPassPoints_nonempty _ _ _ _ Hpasses) st Hp)
    as (text & Hrun).
  unfold bind at 1. rewrite Hrun.
  unfold bind. rewrite linear_none. reflexivity.
Qed.

(** The contour cycle as the section cycle calls it, right after its move
    to the start point. *)
Lemma contourCycle_in_section stockDiameter section (fd : Q) pos :
  pos = position state0 ->
  feed g = Fin fd -> ~ fd == -1 ->
  (G75Functional g = true
   \/ exists passes,
        simPasses (depths_max g / Fin 4)%js (depths_max g / Fin 2)%js
          (machiningPoints section) = Some passes) ->
  forall subroutineID,
  contourCycle numToString g
    (DimensionPoint.mk (stockDiameter + xClearance g)%js
       (length section - stickout g + zClearance g)%js)
    (machiningPoints section) subroutineID
    (depths_max g / Fin 4)%js (feed g) None
    {| lastGCode := "01"; lastFeed := Fin (-1); position := pos |}
  = (Ret (cycleText numToString g stockDiameter section),
     if G75Functional g
     then {| lastGCode := "None"; lastFeed := feed g; position := pos |}
     else {| lastGCode := "00"; lastFeed := Fin (-1); position := pos |}).
Proof.
  intros Hpos Hfeed Hfd Hcycle subroutineID.
  assert (Hneq : eqb (feed g) (Fin (-1)) = false)
    by (rewrite Hfeed; now apply Qeq_bool_false_iff).
  unfold contourCycle, cycleText.
  destruct (G75Functional g) eqn:Hflag.
  - unfold bind. unfold DimensionPoint.getMovePoint.
    cbn [DimensionPoint.x DimensionPoint.z].
    rewrite linear_xz by exact Hpos.
    unfold resetLastGCode, ret. cbn [position lastFeed].
    rewrite taperSubroutine_lines.
    rewrite modeWord_same by reflexivity.
    unfold feedWord. cbn [lastFeed].
    rewrite Hneq. cbn [negb commentWord].
    f_equal. f_equal. cbn [append].
    text_norm. reflexivity.
  - destruct Hcycle as [Hc|(passes & Hpasses)]; [discriminate|].
    unfold bind at 1. unfold DimensionPoint.getMovePoint.
    cbn [DimensionPoint.x DimensionPoint.z].
    rewrite linear_xz by exact Hpos.
    unfold bind.
    rewrite (simG75_run _ _ _ _ passes) by (exact Hpos || exact Hpasses).
    unfold ret, appendValue, afterRapid. cbn [position].
    rewrite modeWord_same by reflexivity.
    unfold feedWord. cbn [lastFeed].
    rewrite Hneq. cbn [negb commentWord].
    f_equal. f_equal. text_norm. reflexivity.
Qed.

Lemma sectionCycle_prints startDiameter section subroutineID (fd : Q) st :
  Quiet st ->
  feed g = Fin fd -> ~ fd == -1 ->
  (maxDiameter section >? startDiameter)%js = false ->
  machiningPoints section <> [] ->
  (G75Functional g = true
   \/ exists passes,
        simPasses (depths_max g / Fin 4)%js (depths_max g / Fin 2)%js
          (machiningPoints section) = Some passes) ->
  sectionCycle numToString g startDiameter section subroutineID st
  = (Ret (sectionText numToString g startDiameter section), afterRapid st).
Proof.
  intros [Hp Hmode] Hfeed Hfd Hover Hne Hcycle.
  assert (Hnan : feed g <> NaN) by (rewrite Hfeed; discriminate).
  assert (Hneq : eqb (feed g) (Fin (-1)) = false)
    by (rewrite Hfeed; now apply Qeq_bool_false_iff).
  pose proof (contourCycle_in_section startDiameter section fd (position st)
                Hp Hfeed Hfd Hcycle subroutineID) as Hcc.
  unfold sectionCycle, sectionText. rewrite Hover.
  destruct (machiningPoints section) as [|first rest] eqn:Hmp; [congruence|].
  rewrite <- Hmp in *.
  unfold bind at 1. rewrite linear_xz by exact Hp.
  unfold bind at 1. rewrite linear_xz by exact Hp. cbn [position].
  unfold bind at 1. unfold undefined at 1 2. rewrite Hcc.
  unfold bind at 1.
  assert (Htaper : forall st2,
             position st2 = position st ->
             basicTaper numToString g
               (map DimensionPoint.getMovePoint (machiningPoints section))
               (feed g) st2
             = (Ret (taperText numToString g (modeWord "01" st2)
                       (feedWord numToString g (Some (feed g)) st2) first rest),
                {| lastGCode := "01"; lastFeed := Fin (-1);
                   position := position st |})).
  { intros st2 Hp2. rewrite Hmp.
    destruct (basicTaper_prints numToString g first rest (feed g) st2) as [H _];
      [congruence | exact Hnan|].
    now rewrite H, Hp2. }
  rewrite Htaper by (destruct (G75Functional g); reflexivity).
  unfold bind. rewrite rapid_xz by exact Hp.
  unfold ret, afterRapid. cbn [position].
  f_equal. f_equal.
  rewrite (modeWord_other "01" st Hmode).
  rewrite (modeWord_same "01") by reflexivity.
  unfold feedWord at 1 2. unfold undefined. cbn [commentWord].
  assert (Hwords :
            modeWord "01"
              (if G75Functional g
               then {| lastGCode := "None"; lastFeed := feed g;
                       position := position st |}
               else {| lastGCode := "00"; lastFeed := Fin (-1);
                       position := position st |}) = "G01"
            /\ feedWord numToString g (Some (feed g))
                 (if G75Functional g
                  then {| lastGCode := "None"; lastFeed := feed g;
                          position := position st |}
                  else {| lastGCode := "00"; lastFeed := Fin (-1);
                          position := position st |})
               = (if G75Functional g then ""
                  else "F" ++ fmt numToString g (feed g))).
  { unfold feedWord. destruct (G75Functional g); cbn [lastFeed].
    - rewrite (eqb_refl _ Hnan).
      split; [apply modeWord_other; cbn; discriminate | reflexivity].
    - rewrite Hneq.
      split; [apply modeWord_other; cbn; discriminate | reflexivity]. }
  destruct Hwords as [-> ->].
  rewrite (modeWord_other "00") by (cbn; discriminate).
  text_norm. reflexivity.
Qed.

(** X12: The text of a section cycle.  Started where no position is known and
    the last command was not a linear move, the cycle of a section that
    passes the diameter check, has a point, and whose contour cycle
    returns, returns exactly [sectionText] and ends in rapid mode with the
    feed forgotten: every target is printed with both its axis words,
    [G01] appears on the first move and again on the first move of the
    finishing taper, and the simulated contour cycle contributes its
    opening move and the word [undefined]. *)
Theorem sectionCycle_text startDiameter section subroutineID (fd : Q) st :
  Quiet st ->
  feed g = Fin fd -> ~ fd == -1 ->
  (maxDiameter section >? startDiameter)%js = false ->
  machiningPoints section <> [] ->
  (G75Functional g = true
   \/ exists passes,
        simPasses (depths_max g / Fin 4)%js (depths_max g / Fin 2)%js
          (machiningPoints section) = Some passes) ->
  sectionCycle numToString g startDiameter section subroutineID st
  = (Ret (sectionText numToString g startDiameter section), afterRapid st).
Proof. apply sectionCycle_prints. Qed.

(** C8: a cycle command is always followed by a restated mode word.  The
    two emitters of a cycle line, [boxCycle] and [contourCycle] with the
    native cycle, leave the remembered mode at "None" whatever the state
    they start from, and from such a state a motion command that prints a
    line prints its mode word, [G00] or [G01], first.  With the native
    cycle off [contourCycle] emits no cycle command: its text is the entry
    move and the word "undefined", the string that [simG75] assembles never
    being emitted.  In the program, the line that follows the contour
    cycle of a section, the first move of the finishing taper, begins with
    [G01]. *)
Theorem cycle_command_resets_mode startPoint endPoint pts subroutineID
  finishBufferRadius f comment st :
  lastGCode (snd (boxCycle numToString g startPoint endPoint
                    finishBufferRadius f comment st)) = "None"
  /\ (G75Functional g = true ->
      lastGCode (snd (contourCycle numToString g startPoint pts subroutineID
                        finishBufferRadius f comment st)) = "None")
  /\ (forall st1 p f2 c2,
        lastGCode st1 = "None" ->
        atPosition p st1 = false ->
        fst (rapidPosition numToString g p c2 st1)
        = Ret ("G00" ++ axisWords numToString g p st1 ++ commentWord c2 ++ nl)
        /\ fst (linearInterpolation numToString g p f2 c2 st1)
           = Ret ("G01" ++ axisWords numToString g p st1
                  ++ feedWord numToString g f2 st1 ++ commentWord c2 ++ nl))
  /\ (G75Functional g = false ->
      exists line,
        fst (linearInterpolation numToString g
               (DimensionPoint.getMovePoint startPoint) (Some f)
               (Some (simulatedComment comment)) st) = Ret line
        /\ (fst (contourCycle numToString g startPoint pts subroutineID
                   finishBufferRadius f comment st) = Ret (line ++ "undefined")
            \/ fst (contourCycle numToString g startPoint pts subroutineID
                      finishBufferRadius f comment st) = Diverge))
  /\ (forall stockDiameter section id (fd : Q) first rest,
        Quiet st ->
        feed g = Fin fd -> ~ fd == -1 ->
        (maxDiameter section >? stockDiameter)%js = false ->
        machiningPoints section = first :: rest ->
        (G75Functional g = true
         \/ exists passes,
              simPasses (depths_max g / Fin 4)%js (depths_max g / Fin 2)%js
                (machiningPoints section) = Some passes) ->
        exists before after,
          fst (sectionCycle numToString g stockDiameter section id st)
          = Ret (before ++ cycleText numToString g stockDiameter section
                 ++ "G01" ++ after)).
Proof.
  split; [apply boxCycle_resets_mode|].
  split; [apply contourCycle_native_resets_mode|].
  split; [|split].
  - intros st1 p f2 c2 Hmode Hp.
    rewrite rapidPosition_contract, linearInterpolation_contract, Hp.
    rewrite !modeWord_after_reset by (exact Hmode || discriminate).
    split; reflexivity.
  - intros Hflag.
    destruct (linearInterpolation numToString g
                (DimensionPoint.getMovePoint startPoint) (Some f)
                (Some (simulatedComment comment)) st) as [r st1] eqn:Hline.
    pose proof (linearInterpolation_returns numToString g
                  (DimensionPoint.getMovePoint startPoint) (Some f)
                  (Some (simulatedComment comment)) st) as [line Hr].
    rewrite Hline in Hr. simpl in Hr. subst r.
    exists line. split; [reflexivity|].
    pose proof (contourCycle_simulated_outcome numToString g startPoint pts
                  subroutineID finishBufferRadius f comment st line st1
                  Hflag Hline) as Hout.
    destruct (simPasses finishBufferRadius (depths_max g / Fin 2)%js pts);
      [now left | now right].
  - intros stockDiameter section id fd first rest Hquiet Hfeed Hfd Hover Hmp
           Hcycle.
    assert (Hne : machiningPoints section <> []) by (rewrite Hmp; discriminate).
    rewrite (sectionCycle_prints stockDiameter section id fd st Hquiet Hfeed
               Hfd Hover Hne Hcycle).
    cbn [fst]. unfold sectionText. rewrite Hmp.
    exists ("G94F" ++ numToString (rpm g * feed g)%js ++ nl
            ++ "G01" ++ xzWords numToString g
                          (DimensionPoint.x first + xClearance g)%js
                          (DimensionPoint.z first) ++ nl
            ++ "M01(Move stock to appropriate position)" ++ nl
            ++ xzWords numToString g (stockDiameter + xClearance g)%js
                 (length section - stickout g + zClearance g)%js ++ nl
            ++ "M03S" ++ numToString (rpm g) ++ nl
            ++ "G95F" ++ numToString (feed g) ++ nl).
    exists (xzWords numToString g (DimensionPoint.x first)
              (DimensionPoint.z first)
            ++ (if G75Functional g then ""
                else "F" ++ fmt numToString g (feed g)) ++ nl
            ++ contourLines numToString g rest
            ++ "X" ++ fmt numToString g
                        (mathMax (map DimensionPoint.x (first :: rest))
                         + xClearance g)%js
            ++ nl
            ++ "G00" ++ xzWords numToString g (stockDiameter + xClearance g)%js
                          (zClearance g) ++ nl
            ++ "M05" ++ nl).
    f_equal. unfold taperText. text_norm. reflexivity.
Qed.

End SectionText.

(* ================================================================== *)
(** ** Diameters through the segmenter                                 *)
(* ================================================================== *)

(** Where a boundary falls in a list of measured points: between two
    neighbours, or on a point. *)
Lemma boundary_cases (pts : list (Q * Q)) (b : Q) :
  ascending pts ->
  (exists p, In p pts /\ snd p < b) ->
  (exists p, In p pts /\ b <= snd p) ->
  (exists front pp r above,
      pts = (front ++ pp :: r :: above)%list
      /\ Forall (fun p => snd p < b) front
      /\ snd pp < b /\ b < snd r
      /\ Forall (fun p => ~ snd p == b) above)
  \/ (exists low r above,
        pts = (low ++ r :: above)%list
        /\ Forall (fun p => snd p < b) low
        /\ snd r == b).
Proof.
  induction pts as [|p rest IH]; intros Hasc (plo & Hplo & Hlo) (phi & Hphi & Hhi).
  { destruct Hplo. }
  apply StronglySorted_inv in Hasc. destruct Hasc as [Hrest Hall].
  rewrite Forall_forall in Hall.
  assert (Hp : snd p < b).
  { destruct Hplo as [<-|Hin]; [exact Hlo|].
    specialize (Hall plo Hin). simpl in Hall. lra. }
  assert (Hphi' : In phi rest).
  { destruct Hphi as [<-|Hin]; [lra | exact Hin]. }
  destruct rest as [|r above]; [destruct Hphi'|].
  destruct (Qlt_le_dec (snd r) b) as [Hr|Hr].
  - destruct IH as [(front & pp & r' & above' & E & Hfront & Hpp & Hr' & Habove)
                   |(low & r' & above' & E & Hlow & Hr')];
      [exact Hrest | exists r; split; [now left | exact Hr]
       | exists phi; split; assumption | |].
    + left. exists (p :: front), pp, r', above'. rewrite E.
      split; [reflexivity|]. split; [now constructor|]. now repeat split.
    + right. exists (p :: low), r', above'. rewrite E.
      split; [reflexivity|]. split; [now constructor | exact Hr'].
  - apply Qle_lteq in Hr. destruct Hr as [Hr|Hr].
    + left. exists [], p, r, above. split; [reflexivity|].
      split; [constructor|]. split; [exact Hp|]. split; [exact Hr|].
      apply StronglySorted_inv in Hrest. destruct Hrest as [_ Habove].
      eapply Forall_impl; [|exact Habove]. intros q Hq E. cbv beta in Hq. lra.
    + right. exists [p], r, above. split; [reflexivity|].
      split; [now repeat constructor | now symmetry].
Qed.

(** A point between two others on a line has its diameter between
    theirs. *)
Lemma between_diameters (lo hi xp xn t : Q) :
  lo <= xp -> xp <= hi -> lo <= xn -> xn <= hi -> 0 <= t -> t <= 1 ->
  lo <= xp + t * (xn + - xp) /\ xp + t * (xn + - xp) <= hi.
Proof.
  intros H1 H2 H3 H4 H5 H6.
  assert (Ha : 0 <= (1 - t) * (xp - lo)) by (apply Qmult_le_0_compat; lra).
  assert (Hb : 0 <= t * (xn - lo)) by (apply Qmult_le_0_compat; lra).
  assert (Hc : 0 <= (1 - t) * (hi - xp)) by (apply Qmult_le_0_compat; lra).
  assert (Hd : 0 <= t * (hi - xn)) by (apply Qmult_le_0_compat; lra).
  assert (E1 : xp + t * (xn + - xp) - lo == (1 - t) * (xp - lo) + t * (xn - lo))
    by ring.
  assert (E2 : hi - (xp + t * (xn + - xp)) == (1 - t) * (hi - xp) + t * (hi - xn))
    by ring.
  split; lra.
Qed.

Lemma In_firstn {A} (n : nat) (l : list A) (a : A) :
  In a (firstn n l) -> In a l.
Proof.
  revert l; induction n as [|n IH]; intros [|b l]; simpl; try tauto.
  intros [->|H]; [now left | right; now apply IH].
Qed.

Lemma In_skipn {A} (n : nat) (l : list A) (a : A) :
  In a (skipn n l) -> In a l.
Proof.
  revert l; induction n as [|n IH]; intros [|b l]; simpl; try tauto.
  intros H. right. now apply IH.
Qed.

Lemma In_slice {A} (l : list A) (s e : number) (a : A) :
  In a (slice l s e) -> In a l.
Proof. unfold slice. intros H. apply In_firstn in H. now apply In_skipn in H. Qed.

Section Diameters.

Variable g : Global.
Variable L : Q.
Hypothesis Hstickout : stickout g = Fin L.
Hypothesis HL : 0 < L.

Variable pts : list (Q * Q).
Hypothesis Hascending : ascending pts.

Variables lo hi : Q.
Hypothesis Hwithin : Forall (fun p => lo <= fst p /\ fst p <= hi) pts.

Lemma sectionEnd_within (i : Z) :
  (exists p, In p pts /\ snd p < boundary L i) ->
  (exists p, In p pts /\ boundary L i <= snd p) ->
  exists x z,
    snd (sectionEnd g (map Fin (map fst pts)) (map Fin (map snd pts)) i)
    = (Fin x, z)
    /\ lo <= x /\ x <= hi.
Proof.
  intros Hlo Hhi. rewrite Forall_forall in Hwithin.
  destruct (boundary_cases pts (boundary L i) Hascending Hlo Hhi)
    as [(front & pp & r & above & E & Hfront & Hpp & Hr & Habove)
       |(low & r & above & E & Hlow & Hr)].
  - rewrite (sectionEnd_between g L Hstickout (map fst pts) (map snd pts) i
               (map fst front) (fst pp) (fst r) (map fst above)
               (map snd front) (snd pp) (snd r) (map snd above));
      [| rewrite E, map_app; reflexivity
       | rewrite E, map_app; reflexivity
       | now rewrite !length_map
       | now apply Forall_map
       | exact Hpp | exact Hr
       | now apply Forall_map ].
    cbn [snd]. eexists _, _. split; [reflexivity|].
    pose proof (fractionalIndex_facts (List.length (map snd front))
                  (boundary L i) (snd pp) (snd r) Hpp Hr)
      as (_ & _ & _ & Hfrac & _).
    assert (Ht0 : 0 < (boundary L i - snd pp) / (snd r - snd pp))
      by (apply Qlt_shift_div_l; lra).
    assert (Ht1 : (boundary L i - snd pp) / (snd r - snd pp) < 1)
      by (apply Qlt_shift_div_r; lra).
    rewrite <- Hfrac in Ht0, Ht1.
    assert (Hin1 : In pp pts) by (rewrite E; apply in_or_app; right; now left).
    assert (Hin2 : In r pts)
      by (rewrite E; apply in_or_app; right; right; now left).
    destruct (Hwithin pp Hin1) as [H1 H2]. destruct (Hwithin r Hin2) as [H3 H4].
    apply between_diameters; lra.
  - rewrite (sectionEnd_found g L Hstickout (map fst pts) (map snd pts) i
               (map fst low) (fst r) (map fst above)
               (map snd low) (snd r) (map snd above));
      [| rewrite E, map_app; reflexivity
       | rewrite E, map_app; reflexivity
       | now rewrite !length_map
       | now apply Forall_map
       | exact Hr ].
    cbn [snd]. eexists _, _. split; [reflexivity|].
    apply Hwithin. rewrite E. apply in_or_app. right. now left.
Qed.

Lemma includedPoints_within shift startIndex startPoint endIndex endPoint :
  (exists x z, startPoint = (Fin x, z) /\ lo <= x /\ x <= hi) ->
  (forall e, endPoint = Some e ->
             exists x z, e = (Fin x, z) /\ lo <= x /\ x <= hi) ->
  Forall (diameterWithin lo hi)
    (includedPoints (map pointQ pts) shift startIndex startPoint
       endIndex endPoint).
Proof.
  intros (xs & zs & -> & Hs1 & Hs2) Hend. unfold includedPoints.
  apply Forall_app. split; [|apply Forall_app; split].
  - destruct (truthy (rem1 startIndex)); [|constructor].
    constructor; [|constructor]. exists xs. now repeat split.
  - apply Forall_map, Forall_forall. intros d Hd. apply In_slice in Hd.
    apply in_map_iff in Hd. destruct Hd as (p & <- & Hp).
    rewrite Forall_forall in Hwithin. destruct (Hwithin p Hp) as [H1 H2].
    exists (fst p). now repeat split.
  - destruct endPoint as [e|]; [|constructor].
    destruct (Hend e eq_refl) as (xe & ze & -> & He1 & He2).
    destruct (truthy (rem1 endIndex)); [|constructor].
    constructor; [|constructor]. exists xe. now repeat split.
Qed.

Lemma sectionLoop_within (n : nat) :
  forall (i : Z) (startIndex : number) (startPoint : number * number),
    (exists x z, startPoint = (Fin x, z) /\ lo <= x /\ x <= hi) ->
    (forall j, (i <= j < i + Z.of_nat n)%Z ->
               (exists p, In p pts /\ snd p < boundary L j)
               /\ (exists p, In p pts /\ boundary L j <= snd p)) ->
    Forall (fun section =>
              section = newSection g (points section)
              /\ Forall (diameterWithin lo hi) (points section))
      (fst (sectionLoop g (map Fin (map fst pts)) (map Fin (map snd pts))
              (map (fun k => (i + Z.of_nat k)%Z) (seq 0 n))
              startIndex startPoint))
    /\ exists x z,
         snd (snd (sectionLoop g (map Fin (map fst pts)) (map Fin (map snd pts))
                     (map (fun k => (i + Z.of_nat k)%Z) (seq 0 n))
                     startIndex startPoint))
         = (Fin x, z)
         /\ lo <= x /\ x <= hi.
Proof.
  induction n as [|n IH]; intros i startIndex startPoint Hstart Hrange.
  - split; [constructor | exact Hstart].
  - rewrite indices_succ. cbn [sectionLoop].
    assert (Hi : (i <= i < i + Z.of_nat (S n))%Z) by lia.
    destruct (Hrange i Hi) as [Hlo Hhi].
    pose proof (sectionEnd_within i Hlo Hhi) as Hend.
    destruct (sectionEnd g (map Fin (map fst pts)) (map Fin (map snd pts)) i)
      as [endIndex endPoint].
    cbn [snd] in Hend.
    destruct (IH (i + 1)%Z endIndex endPoint Hend) as [Hsecs Hlast].
    { intros j Hj. apply Hrange. lia. }
    destruct (sectionLoop g (map Fin (map fst pts)) (map Fin (map snd pts))
                (map (fun k => (i + 1 + Z.of_nat k)%Z) (seq 0 n))
                endIndex endPoint) as [sections final].
    cbn [fst snd] in *. split; [|exact Hlast].
    constructor; [|exact Hsecs]. split; [reflexivity|].
    cbn [points newSection]. rewrite organize_pointQ.
    apply includedPoints_within; [exact Hstart|].
    intros e He. injection He as <-. exact Hend.
Qed.

End Diameters.

Lemma mathMax_within (lo hi : Q) (l : list number) :
  l <> [] ->
  Forall (fun v => exists x, v = Fin x /\ lo <= x /\ x <= hi) l ->
  exists m, mathMax l = Fin m /\ lo <= m /\ m <= hi.
Proof.
  induction l as [|a l IH]; [congruence|]. intros _ Hall.
  apply Forall_cons_iff in Hall. destruct Hall as [(x & -> & Hx1 & Hx2) Hall].
  destruct l as [|b l].
  - exists x. now repeat split.
  - destruct (IH ltac:(discriminate) Hall) as (m & Hm & Hm1 & Hm2).
    change (mathMax (Fin x :: b :: l)) with (max2 (Fin x) (mathMax (b :: l))).
    rewrite Hm, max2_Fin. exists (Qmax x m). split; [reflexivity|]. split.
    + eapply Qle_trans; [exact Hx1 | apply Q.le_max_l].
    + apply Q.max_lub; assumption.
Qed.

Lemma two_points_at_least (zs : list number) (b b' : Q) :
  b < b' ->
  eqb (hd NaN zs) (Fin 0) = true ->
  eqb (last zs NaN + Fin b)%js (Fin b') = true ->
  (2 <= List.length zs)%nat.
Proof.
  intros Hb Hhd Hlast. destruct zs as [|a [|c zs]]; [discriminate| |simpl; lia].
  exfalso. cbn [hd last] in *. destruct a as [q| | |]; try discriminate.
  cbn in Hhd, Hlast. apply Qeq_bool_iff in Hhd, Hlast. lra.
Qed.

Section Range.

Variable g : Global.
Variable L : Q.
Hypothesis Hstickout : stickout g = Fin L.
Hypothesis HL : 0 < L.

Variable pts : list (Q * Q).
Hypothesis Hascending : ascending pts.
Hypothesis Htwo : (2 <= List.length pts)%nat.
Hypothesis Hzero : exists first, hd_error pts = Some first /\ snd first == 0.

Variables lo hi : Q.
Hypothesis Hwithin : Forall (fun p => lo <= fst p /\ fst p <= hi) pts.

Lemma interpolatePoints_within :
  exists sections,
    interpolatePoints g (map Fin (map fst pts)) (map Fin (map snd pts))
    = Some sections
    /\ Forall (fun section =>
                 section = newSection g (points section)
                 /\ Forall (diameterWithin lo hi) (points section))
         sections.
Proof.
  pose proof (sections_positive L HL pts Hascending Htwo Hzero) as HN.
  set (N := Qceiling (maxZ pts / L)) in *.
  pose proof (maxZ_positive pts Hascending Htwo Hzero) as Hpos.
  destruct Hzero as (first & Hhd & Hz).
  assert (Hpts : exists rest, pts = first :: rest).
  { destruct pts as [|p0 rest]; [discriminate|]. injection Hhd as ->.
    now exists rest. }
  destruct Hpts as (rest & Epts).
  unfold interpolatePoints. rewrite Hstickout.
  assert (Hmax : mathMax (map Fin (map snd pts)) = Fin (maxZ pts)).
  { unfold maxZ. rewrite Epts. cbn [map]. apply mathMax_Fin. }
  rewrite Hmax, div_finite by (intros E; lra).
  change (ceil (Fin (maxZ pts / L))) with (ofZ N).
  change (ofZ N - Fin 1)%js with (Fin (inject_Z N + - (1))).
  unfold loopIndices. rewrite Qceiling_pred, Z.sub_0_r.
  set (n := Z.to_nat (N - 1)).
  assert (Hfirst : lo <= fst first /\ fst first <= hi).
  { rewrite Forall_forall in Hwithin. apply Hwithin. rewrite Epts. now left. }
  assert (Hstart : exists x z,
             (toNumber (hd_error (map Fin (map fst pts))),
              toNumber (hd_error (map Fin (map snd pts)))) = (Fin x, z)
             /\ lo <= x /\ x <= hi).
  { rewrite Epts. cbn. eexists _, _. split; [reflexivity | exact Hfirst]. }
  destruct (sectionLoop_within g L Hstickout pts Hascending lo hi Hwithin n
              0%Z (Fin 0) _ Hstart) as [Hsecs Hlast].
  { intros j Hj.
    destruct (boundary_inside L HL pts Htwo j) as [Hb0 Hb1]; [unfold n in Hj; fold N; lia|].
    split.
    - exists first. split; [rewrite Epts; now left | lra].
    - destruct (maxZ_in pts) as (p & Hp & Hpz); [rewrite Epts; discriminate|].
      exists p. split; [exact Hp | rewrite Hpz; lra]. }
  destruct (sectionLoop g (map Fin (map fst pts)) (map Fin (map snd pts))
              (map (fun k => (0 + Z.of_nat k)%Z) (seq 0 n)) (Fin 0) _)
    as [sections [startIndex startPoint]].
  cbn [fst snd] in Hsecs, Hlast.
  eexists. split; [reflexivity|].
  apply Forall_app. split; [exact Hsecs|].
  constructor; [|constructor]. split; [reflexivity|].
  cbn [points newSection]. rewrite organize_pointQ.
  apply includedPoints_within; [exact Hwithin | exact Hlast | discriminate].
Qed.

(** Segmentation never leaves the range of the measured diameters: every
    point of every section, the synthesized boundary points included, has
    a diameter between the smallest and the largest measured one, and so
    has the largest diameter of each section; each section has at least
    two points. *)
Lemma sections_within :
  exists sections,
    interpolatePoints g (map Fin (map fst pts)) (map Fin (map snd pts))
    = Some sections
    /\ sections <> []
    /\ Forall (fun section =>
                 section = newSection g (points section)
                 /\ (2 <= List.length (points section))%nat
                 /\ Forall (diameterWithin lo hi) (points section)
                 /\ exists m, maxDiameter section = Fin m /\ lo <= m /\ m <= hi)
         sections.
Proof.
  destruct interpolatePoints_within as (sections & Hrun & Hall).
  destruct (interpolatePoints_sections g L Hstickout HL pts Hascending Htwo Hzero)
    as (sections' & Hrun' & Hcount & Hok).
  rewrite Hrun in Hrun'. injection Hrun' as <-.
  exists sections. split; [exact Hrun|].
  pose proof (sections_positive L HL pts Hascending Htwo Hzero) as HN.
  split; [intros E; rewrite E in Hcount; simpl in Hcount; lia|].
  rewrite Forall_forall in Hall. apply Forall_forall. intros section Hin.
  destruct (Hall section Hin) as [Hnew Hpoints].
  destruct (In_nth_error _ _ Hin) as (k & Hk).
  assert (Hlt : (k < List.length sections)%nat)
    by (apply nth_error_Some; congruence).
  assert (Hlen : (2 <= List.length (points section))%nat).
  { destruct (section_facts pts (sectionLower L k)
                (sectionUpper L pts (List.length sections) k) section
                Hascending) as (_ & Hhd & Hlast & _).
    - now apply (lower_below_upper L HL pts Htwo (List.length sections) Hcount).
    - exact (Hok k section Hk).
    - rewrite <- (length_map DimensionPoint.z).
      apply (two_points_at_least _ (sectionLower L k)
               (sectionUpper L pts (List.length sections) k));
        [|assumption..].
      now apply (lower_below_upper L HL pts Htwo (List.length sections) Hcount). }
  split; [exact Hnew|]. split; [exact Hlen|]. split; [exact Hpoints|].
  rewrite Hnew. cbn [maxDiameter newSection].
  apply mathMax_within.
  - intros E. apply (f_equal (@List.length _)) in E.
    rewrite length_map in E. simpl in E. lia.
  - apply Forall_map. eapply Forall_impl; [|exact Hpoints].
    intros d (x & Hx & H1 & H2). exists x. now repeat split.
Qed.

End Range.

(** X13: Segmentation never leaves the range of the measured diameters: for
    measured points in strictly ascending position from 0, every point of
    every section, the synthesized boundary points included, has a diameter
    between the smallest and the largest measured one, and so has the
    largest diameter of each section. *)
Theorem segmentation_keeps_diameters_in_range (g : Global) (L : Q)
  (pts : list (Q * Q)) (lo hi : Q) :
  stickout g = Fin L ->
  0 < L ->
  ascending pts ->
  (2 <= List.length pts)%nat ->
  (exists first, hd_error pts = Some first /\ snd first == 0) ->
  Forall (fun p => lo <= fst p /\ fst p <= hi) pts ->
  exists sections,
    interpolatePoints g (map Fin (map fst pts)) (map Fin (map snd pts))
    = Some sections
    /\ sections <> []
    /\ Forall (fun section =>
                 section = newSection g (points section)
                 /\ Forall (diameterWithin lo hi) (points section)
                 /\ exists m, maxDiameter section = Fin m /\ lo <= m /\ m <= hi)
         sections.
Proof.
  intros Hstickout HL Hascending Htwo Hzero Hwithin.
  destruct (sections_within g L Hstickout HL pts Hascending Htwo Hzero lo hi
              Hwithin) as (sections & Hrun & Hne & Hall).
  exists sections. split; [exact Hrun|]. split; [exact Hne|].
  eapply Forall_impl; [|exact Hall].
  intros section (Hnew & _ & Hpoints & Hmax). now repeat split.
Qed.

(* ================================================================== *)
(** ** The text of a program                                           *)
(* ================================================================== *)

Lemma Permutation_insertBy {A} (cmp : A -> A -> number) (a : A) (l : list A) :
  Permutation (a :: l) (insertBy cmp a l).
Proof.
  induction l as [|b l IH]; [reflexivity|]. cbn [insertBy].
  destruct (Fin 0 <? cmp a b)%js; [|reflexivity].
  rewrite perm_swap. now constructor.
Qed.

Lemma Permutation_sortBy {A} (cmp : A -> A -> number) (l : list A) :
  Permutation l (sortBy cmp l).
Proof.
  induction l as [|a l IH]; [reflexivity|].
  change (sortBy cmp (a :: l)) with (insertBy cmp a (sortBy cmp l)).
  rewrite <- Permutation_insertBy. now constructor.
Qed.

Lemma machiningPoints_finite (g : Global) (lo hi : Q)
  (pts : list DimensionPoint.t) :
  Forall (diameterWithin lo hi) pts ->
  Forall (fun point => finite (DimensionPoint.x point))
    (machiningPoints (newSection g pts)).
Proof.
  intros Hall. unfold newSection. cbn [machiningPoints].
  apply Forall_map.
  eapply Permutation_Forall; [apply Permutation_sortBy|].
  apply Forall_map. eapply Forall_impl; [|exact Hall].
  intros d (x & Hx & _). cbn [DimensionPoint.x]. now rewrite Hx.
Qed.

Lemma Quiet_afterRapid st : Quiet st -> Quiet (afterRapid st).
Proof. intros [Hp _]. split; [exact Hp | discriminate]. Qed.

Section Program.

Variable numToString : number -> string.
Variable g : Global.

Lemma sectionsFrom_text stockDiameter (fd : Q) sections :
  feed g = Fin fd -> ~ fd == -1 ->
  Forall (machinable g stockDiameter) sections ->
  forall i codeText st,
    Quiet st ->
    sectionsFrom numToString g stockDiameter sections i codeText st
    = (Ret (codeText ++ sectionsText numToString g stockDiameter sections i),
       match sections with [] => st | _ :: _ => afterRapid st end).
Proof.
  intros Hfeed Hfd. induction 1 as [|section rest Hsec Hrest IH];
    intros i codeText st Hq.
  - cbn [sectionsFrom sectionsText]. now rewrite append_empty_r.
  - destruct Hsec as (Hover & Hne & Hcycle).
    cbn [sectionsFrom sectionsText]. unfold bind.
    rewrite (sectionCycle_prints numToString g stockDiameter section _ fd st
               Hq Hfeed Hfd Hover Hne Hcycle).
    rewrite (IH _ _ _ (Quiet_afterRapid st Hq)).
    f_equal; [|now destruct rest].
    f_equal. text_norm. reflexivity.
Qed.

(** The sections that the segmenter makes of well-formed measurements can
    all be cut from a stock that is no thinner than the largest
    measurement. *)
Lemma sections_machinable (L : Q) (pts : list (Q * Q)) (stock : Q) :
  stickout g = Fin L -> 0 < L ->
  (G75Functional g = true \/ exists d, depths_max g = Fin d /\ 0 < d) ->
  ascending pts ->
  (2 <= List.length pts)%nat ->
  (exists first, hd_error pts = Some first /\ snd first == 0) ->
  Forall (fun p => fst p <= stock) pts ->
  exists sections,
    interpolatePoints g (map Fin (map fst pts)) (map Fin (map snd pts))
    = Some sections
    /\ sections <> []
    /\ Forall (machinable g (Fin stock)) sections.
Proof.
  intros Hstickout HL Hcycle Hasc Htwo Hzero Hstock.
  destruct (map fst pts) as [|a l] eqn:Hxs.
  { destruct pts; [simpl in Htwo; lia | discriminate]. }
  assert (Hwithin : Forall (fun p => Qminl a l <= fst p /\ fst p <= stock) pts).
  { rewrite Forall_forall in Hstock. apply Forall_forall. intros p Hp.
    split; [|now apply Hstock].
    apply Qminl_le. rewrite <- Hxs. now apply in_map. }
  rewrite <- Hxs.
  destruct (sections_within g L Hstickout HL pts Hasc Htwo Hzero
              (Qminl a l) stock Hwithin) as (sections & Hrun & Hne & Hall).
  exists sections. split; [exact Hrun|]. split; [exact Hne|].
  eapply Forall_impl; [|exact Hall].
  intros section (Hnew & Hlen & Hpoints & m & Hm & _ & Hhi).
  split; [|split].
  - rewrite Hm. unfold gtb. now apply ltb_Fin_false.
  - rewrite Hnew. apply machiningPoints_nonempty.
    intros E. rewrite E in Hlen. simpl in Hlen. lia.
  - destruct Hcycle as [Hnative|(d & Hd & Hpos)]; [now left | right].
    rewrite Hd.
    change (Fin d / Fin 4)%js with (Fin (d / 4)).
    change (Fin d / Fin 2)%js with (Fin (d / 2)).
    apply simPasses_returns; [apply Qlt_shift_div_l; lra|].
    rewrite Hnew. now apply (machiningPoints_finite g (Qminl a l) stock).
Qed.

Lemma genCode_returns_program (L fd stock : Q) (pts : list (Q * Q))
  diameterList optLocationList diameterPoints locationPoints counts date st :
  Quiet st ->
  stickout g = Fin L -> 0 < L ->
  feed g = Fin fd -> ~ fd == -1 ->
  (G75Functional g = true \/ exists d, depths_max g = Fin d /\ 0 < d) ->
  cleanInput diameterList optLocationList
  = inr (diameterPoints, locationPoints, counts) ->
  orientPoints diameterPoints locationPoints
  = (map Fin (map fst pts), map Fin (map snd pts)) ->
  ascending pts ->
  (2 <= List.length pts)%nat ->
  (exists first, hd_error pts = Some first /\ snd first == 0) ->
  Forall (fun p => fst p <= stock) pts ->
  exists sections,
    interpolatePoints g (map Fin (map fst pts)) (map Fin (map snd pts))
    = Some sections
    /\ Z.of_nat (List.length sections) = Qceiling (maxZ pts / L)
    /\ genCode numToString g (Fin stock) diameterList optLocationList date st
       = (Ret (programText numToString g (Fin stock) sections counts date),
          afterRapid st).
Proof.
  intros Hq Hstickout HL Hfeed Hfd Hcycle Hclean Horient Hasc Htwo Hzero Hstock.
  destruct (sections_machinable L pts stock Hstickout HL Hcycle Hasc Htwo Hzero
              Hstock) as (sections & Hrun & Hne & Hall).
  exists sections. split; [exact Hrun|]. split.
  { destruct (interpolatePoints_sections g L Hstickout HL pts Hasc Htwo Hzero)
      as (sections' & Hrun' & Hcount & _).
    rewrite Hrun in Hrun'. injection Hrun' as <-. exact Hcount. }
  unfold genCode. rewrite Hclean, Horient, Hrun.
  unfold assemble, tryOrMessage.
  rewrite (sectionsFrom_text (Fin stock) fd sections Hfeed Hfd Hall _ _ st Hq).
  destruct sections as [|section rest]; [congruence|].
  f_equal. f_equal. unfold programText. text_norm. reflexivity.
Qed.


End Program.

(* ================================================================== *)
(** ** The input of the generator                                      *)
(* ================================================================== *)

Lemma numericCells_numbers (l : list Q) :
  numericCells (map (fun q => CNum (Fin q)) l) = map Fin l.
Proof.
  unfold numericCells. induction l as [|q l IH]; [reflexivity|].
  cbn [map flat_map]. now rewrite IH.
Qed.

Lemma numericCells_row (l : list Q) :
  numericCells (List.concat (row l)) = map Fin l.
Proof.
  unfold row. cbn [List.concat]. rewrite app_nil_r. apply numericCells_numbers.
Qed.

Lemma sortBy_map {A B} (cmp : B -> B -> number) (h : A -> B) (l : list A) :
  sortBy cmp (map h l) = map h (sortBy (fun a b => cmp (h a) (h b)) l).
Proof.
  induction l as [|a l IH]; [reflexivity|].
  change (sortBy cmp (map h (a :: l)))
    with (insertBy cmp (h a) (sortBy cmp (map h l))).
  change (sortBy (fun a b => cmp (h a) (h b)) (a :: l))
    with (insertBy (fun a b => cmp (h a) (h b)) a
            (sortBy (fun a b => cmp (h a) (h b)) l)).
  rewrite IH. generalize (sortBy (fun a b => cmp (h a) (h b)) l). intros s.
  induction s as [|b s IHs]; [reflexivity|].
  cbn [insertBy map]. destruct (Fin 0 <? cmp (h a) (h b))%js; [|reflexivity].
  cbn [map]. now rewrite IHs.
Qed.

Lemma combine_pointQ (ds zs : list Q) :
  map (fun dz => DimensionPoint.mk (fst dz) (snd dz))
      (combine (map Fin ds) (map Fin zs))
  = map pointQ (combine ds zs).
Proof.
  revert zs; induction ds as [|d ds IH]; intros [|z zs]; try reflexivity.
  cbn [map combine]. now rewrite IH.
Qed.

(** The comparator of the sort on finite positions: positive exactly when
    the first point lies beyond the second. *)
Lemma byZ_positive (p q : Q * Q) :
  (Fin 0 <? byZ (pointQ p) (pointQ q))%js = true <-> snd q < snd p.
Proof.
  unfold byZ, pointQ. cbn [DimensionPoint.z fst snd].
  destruct (Fin (snd p) <? Fin (snd q))%js eqn:Elt.
  - apply ltb_Fin in Elt. split; [discriminate | lra].
  - apply ltb_Fin_false in Elt. cbn [eqb].
    destruct (Qeq_bool (snd p) (snd q)) eqn:Eeq.
    + apply Qeq_bool_iff in Eeq. split; [discriminate | lra].
    + apply Qeq_bool_false_iff in Eeq. split; [intros _; lra | reflexivity].
Qed.

Lemma insertBy_sorted (a : Q * Q) (l : list (Q * Q)) :
  StronglySorted (fun p q => snd p <= snd q) l ->
  StronglySorted (fun p q => snd p <= snd q)
    (insertBy (fun p q => byZ (pointQ p) (pointQ q)) a l).
Proof.
  induction 1 as [|b l Hs IH Hall]; [repeat constructor|].
  cbn [insertBy].
  destruct (Fin 0 <? byZ (pointQ a) (pointQ b))%js eqn:E.
  - apply byZ_positive in E. constructor; [exact IH|].
    eapply Permutation_Forall; [apply Permutation_insertBy|].
    constructor; [lra | exact Hall].
  - assert (Hab : snd a <= snd b).
    { destruct (Qlt_le_dec (snd b) (snd a)) as [H|H]; [|exact H].
      apply byZ_positive in H. congruence. }
    constructor; [now constructor|].
    constructor; [exact Hab|].
    eapply Forall_impl; [|exact Hall]. intros c Hc. cbv beta in Hc. lra.
Qed.

Lemma sortBy_byZ_sorted (l : list (Q * Q)) :
  StronglySorted (fun p q => snd p <= snd q)
    (sortBy (fun p q => byZ (pointQ p) (pointQ q)) l).
Proof.
  induction l as [|a l IH]; [constructor|].
  change (sortBy (fun p q => byZ (pointQ p) (pointQ q)) (a :: l))
    with (insertBy (fun p q => byZ (pointQ p) (pointQ q)) a
            (sortBy (fun p q => byZ (pointQ p) (pointQ q)) l)).
  now apply insertBy_sorted.
Qed.

(** X15: Cleaning drops the non-numeric cells of each range on its own and
    pairs what is left by rank, then sorts by position keeping every
    diameter with the position it was paired with: for as many numeric
    diameters as numeric positions, the lists that leave the cleaning step
    are those pairs in another order, by ascending position, and the two
    counts are the numbers of cells dropped from each range. *)
Theorem cleanInput_sorts_pairs (ds zs : list Q)
  (diameterList locationList : list (list Cell)) :
  numericCells (List.concat diameterList) = map Fin ds ->
  numericCells (List.concat locationList) = map Fin zs ->
  List.length ds = List.length zs ->
  exists pts,
    cleanInput diameterList (Some locationList)
    = inr (map Fin (map fst pts), map Fin (map snd pts),
           ((Z.of_nat (List.length (List.concat diameterList))
             - Z.of_nat (List.length ds))%Z,
            (Z.of_nat (List.length (List.concat locationList))
             - Z.of_nat (List.length zs))%Z))
    /\ Permutation (combine ds zs) pts
    /\ StronglySorted (fun p q => snd p <= snd q) pts.
Proof.
  intros Hds Hzs Hlen.
  exists (sortBy (fun p q => byZ (pointQ p) (pointQ q)) (combine ds zs)).
  split; [|split; [apply Permutation_sortBy | apply sortBy_byZ_sorted]].
  unfold cleanInput. rewrite Hds, Hzs, !length_map, Hlen, Nat.eqb_refl.
  cbn [negb].
  rewrite combine_pointQ, sortBy_map, !map_map. reflexivity.
Qed.

Section Messages.

Variable numToString : number -> string.
Variable g : Global.

(** X16: Unequal numbers of numeric cells: the message comes back before any
    sorting, orientation, segmentation or diameter check, and the emitter
    state is untouched. *)
Theorem genCode_unequal_counts stockDiameter diameterList locationList date st :
  List.length (numericCells (List.concat locationList))
  <> List.length (numericCells (List.concat diameterList)) ->
  genCode numToString g stockDiameter diameterList (Some locationList) date st
  = (Ret unequalMessage, st).
Proof.
  intros Hne. unfold genCode, cleanInput.
  apply Nat.eqb_neq in Hne. rewrite Hne. reflexivity.
Qed.

(** X17: No numeric diameter at all (and no numeric position, if positions are
    given): the segmenter makes one section without a point, and what
    [genCode] returns is the message of the type error thrown on reading
    the first machining point of that section. *)
Theorem genCode_without_data (L : Q) stockDiameter diameterList optLocationList
  date st :
  stickout g = Fin L -> 0 <= L ->
  numericCells (List.concat diameterList) = [] ->
  match optLocationList with
  | None => True
  | Some locationList => numericCells (List.concat locationList) = []
  end ->
  interpolatePoints g [] [] = Some [newSection g []]
  /\ genCode numToString g stockDiameter diameterList optLocationList date st
     = (Ret typeErrorMessage, st).
Proof.
  intros Hstickout HL Hd Hl.
  assert (Hseg : interpolatePoints g [] [] = Some [newSection g []]).
  { unfold interpolatePoints. rewrite Hstickout. cbn [mathMax fold_right map].
    assert (Hdiv : (NegInf / Fin L)%js = NegInf).
    { cbn [div]. unfold signQ. destruct (L ?= 0)%Q eqn:E; try reflexivity.
      apply Qlt_alt in E. lra. }
    rewrite Hdiv. reflexivity. }
  split; [exact Hseg|].
  assert (Hclean : exists counts,
             cleanInput diameterList optLocationList = inr ([], [], counts)).
  { unfold cleanInput. rewrite Hd. destruct optLocationList as [locationList|].
    - rewrite Hl. eexists. reflexivity.
    - eexists. reflexivity. }
  destruct Hclean as (counts & Hclean).
  unfold genCode. rewrite Hclean. cbn [orientPoints hd_error rev toNumber].
  assert (Hor : orientPoints [] [] = ([], [])) by reflexivity.
  rewrite Hor, Hseg. unfold assemble, tryOrMessage.
  cbn [sectionsFrom]. unfold bind.
  rewrite sectionCycle_empty; [reflexivity | | reflexivity].
  cbn [maxDiameter newSection map mathMax fold_right]. now destruct stockDiameter.
Qed.

End Messages.

(** X18: The orientation step on finite diameters: the diameters come out as
    given or reversed, the first of them not greater than the last, and
    orienting them again changes nothing. *)
Theorem orientPoints_diameters (ds : list Q) (zs : list number) :
  exists ds',
    orientPoints (map Fin ds) zs = (map Fin ds', zs)
    /\ (ds' = ds \/ ds' = rev ds)
    /\ (forall first final,
          hd_error ds' = Some first -> hd_error (rev ds') = Some final ->
          first <= final)
    /\ orientPoints (map Fin ds') zs = (map Fin ds', zs).
Proof.
  assert (Hhd : forall l : list Q,
             toNumber (hd_error (map Fin l))
             = match hd_error l with Some a => Fin a | None => NaN end).
  { intros [|a l]; reflexivity. }
  assert (Hgt : forall l a b,
             hd_error l = Some a -> hd_error (rev l) = Some b ->
             (toNumber (hd_error (map Fin l))
              >? toNumber (hd_error (rev (map Fin l))))%js = true <-> b < a).
  { intros l a b Ha Hb. rewrite <- map_rev, !Hhd, Ha, Hb. apply ltb_Fin. }
  destruct (hd_error ds) as [a|] eqn:Ha.
  2:{ destruct ds; [|discriminate]. exists []. repeat split; try now left.
      intros first final H. discriminate. }
  destruct (hd_error (rev ds)) as [b|] eqn:Hb.
  2:{ destruct ds as [|d ds]; [discriminate|]. exfalso.
      destruct (rev (d :: ds)) eqn:E; [|discriminate].
      apply (f_equal (@List.length _)) in E. rewrite length_rev in E.
      discriminate. }
  unfold orientPoints at 1.
  destruct (toNumber (hd_error (map Fin ds))
            >? toNumber (hd_error (rev (map Fin ds))))%js eqn:E.
  - apply (Hgt ds a b Ha Hb) in E. exists (rev ds). rewrite <- map_rev.
    split; [reflexivity|]. split; [now right|]. split.
    + intros first final H1 H2. rewrite rev_involutive in H2.
      assert (first = b) by congruence. assert (final = a) by congruence.
      subst. lra.
    + unfold orientPoints.
      assert (Hfalse : (toNumber (hd_error (map Fin (rev ds)))
                        >? toNumber (hd_error (rev (map Fin (rev ds)))))%js
                       = false).
      { destruct (toNumber (hd_error (map Fin (rev ds)))
                  >? toNumber (hd_error (rev (map Fin (rev ds)))))%js eqn:E2;
          [|reflexivity].
        apply (Hgt (rev ds) b a) in E2; [lra | exact Hb|].
        now rewrite rev_involutive. }
      now rewrite Hfalse.
  - exists ds. split; [reflexivity|]. split; [now left|]. split.
    + intros first final H1 H2.
      assert (first = a) by congruence. assert (final = b) by congruence.
      subst. destruct (Qlt_le_dec b a) as [H|H]; [|exact H].
      apply (Hgt ds a b Ha Hb) in H. congruence.
    + unfold orientPoints. now rewrite E.
Qed.

(* ================================================================== *)
(** ** Diameters given without positions                               *)
(* ================================================================== *)

Lemma map_fst_combine_eq {A B} (l1 : list A) (l2 : list B) :
  List.length l1 = List.length l2 -> map fst (combine l1 l2) = l1.
Proof.
  revert l2; induction l1 as [|a l1 IH]; intros [|b l2] H; try discriminate.
  - reflexivity.
  - cbn [combine map fst]. f_equal. apply IH. now injection H.
Qed.

Lemma map_snd_combine_eq {A B} (l1 : list A) (l2 : list B) :
  List.length l1 = List.length l2 -> map snd (combine l1 l2) = l2.
Proof.
  revert l2; induction l1 as [|a l1 IH]; intros [|b l2] H; try discriminate.
  - reflexivity.
  - cbn [combine map snd]. f_equal. apply IH. now injection H.
Qed.

Lemma ascending_combine (xs zs : list Q) :
  List.length xs = List.length zs ->
  StronglySorted Qlt zs -> ascending (combine xs zs).
Proof.
  intros Hlen Hs. revert xs Hlen.
  induction Hs as [|z zs Hs IH Hall]; intros [|x xs] Hlen; try discriminate.
  - constructor.
  - cbn [combine]. constructor; [apply IH; now injection Hlen|].
    apply Forall_forall. intros [px pz] Hp. cbn [snd].
    rewrite Forall_forall in Hall. apply Hall.
    now apply in_combine_r in Hp.
Qed.

Lemma StronglySorted_seq (s n : nat) : StronglySorted lt (seq s n).
Proof.
  revert s; induction n as [|n IH]; intros s; [constructor|].
  cbn [seq]. constructor; [apply IH|].
  apply Forall_forall. intros k Hk. apply in_seq in Hk. lia.
Qed.

(** The positions assumed for diameters given alone: a quarter apart. *)
Lemma quarter_positions_sorted (n : nat) :
  StronglySorted Qlt
    (map (fun i => inject_Z (Z.of_nat i) * (25 # 100)) (seq 0 n)).
Proof.
  apply (StronglySorted_map lt); [|apply StronglySorted_seq].
  intros a b Hab. apply Qmult_lt_compat_r; [reflexivity|].
  rewrite <- Zlt_Qlt. lia.
Qed.

Lemma last_cons {A} (l : list A) (a b : A) : last (b :: l) a = last l b.
Proof.
  revert a b; induction l as [|c l IH]; intros a b; [reflexivity|].
  change (last (b :: c :: l) a) with (last (c :: l) a).
  now rewrite (IH a c), (IH b c).
Qed.

Lemma last_in_cons {A} (l : list A) (a : A) : In (last l a) (a :: l).
Proof.
  revert a; induction l as [|b l IH]; intros a; [now left|].
  rewrite last_cons. right. apply IH.
Qed.

Lemma Qmaxl_sorted (a : Q) (l : list Q) :
  StronglySorted Qlt (a :: l) -> Qmaxl a l == last l a.
Proof.
  revert a; induction l as [|b l IH]; intros a Hs; [reflexivity|].
  apply StronglySorted_inv in Hs. destruct Hs as [Hrest Hall].
  cbn [Qmaxl]. rewrite (IH b Hrest), last_cons.
  rewrite Forall_forall in Hall. specialize (Hall _ (last_in_cons l b)).
  apply Q.max_r. lra.
Qed.

Lemma last_map_seq {A} (f : nat -> A) (m s : nat) (d : A) :
  last (map f (seq s (S m))) d = f (s + m)%nat.
Proof.
  revert s d; induction m as [|m IH]; intros s d.
  - cbn. f_equal. lia.
  - change (seq s (S (S m))) with (s :: seq (S s) (S m)).
    cbn [map]. rewrite last_cons, IH. f_equal. lia.
Qed.

Lemma orientPoints_cases (ds : list Q) (zs : list number) :
  exists ds',
    orientPoints (map Fin ds) zs = (map Fin ds', zs)
    /\ (ds' = ds \/ ds' = rev ds).
Proof.
  unfold orientPoints. destruct (_ >? _)%js.
  - exists (rev ds). rewrite map_rev. split; [reflexivity | now right].
  - exists ds. split; [reflexivity | now left].
Qed.

Section DefaultSpacing.

Variable numToString : number -> string.
Variable g : Global.

(** X19: Diameters given without positions are taken a quarter apart from 0.
    Two or more finite diameters, none thicker than the stock, always give
    a whole program, of ceil(((n - 1) / 4) / stickout) sections. *)
Theorem genCode_default_spacing (L fd stock : Q) (ds : list Q) date st :
  Quiet st ->
  stickout g = Fin L -> 0 < L ->
  feed g = Fin fd -> ~ fd == -1 ->
  (G75Functional g = true \/ exists d, depths_max g = Fin d /\ 0 < d) ->
  (2 <= List.length ds)%nat ->
  Forall (fun d => d <= stock) ds ->
  exists sections,
    genCode numToString g (Fin stock) (row ds) None date st
    = (Ret (programText numToString g (Fin stock) sections (0%Z, (-1)%Z) date),
       afterRapid st)
    /\ Z.of_nat (List.length sections)
       = Qceiling (inject_Z (Z.of_nat (List.length ds) - 1) * (25 # 100) / L).
Proof.
  intros Hq Hstickout HL Hfeed Hfd Hcycle Htwo Hstock.
  set (n := List.length ds) in *.
  set (zs := map (fun i => inject_Z (Z.of_nat i) * (25 # 100)) (seq 0 n)).
  assert (Hzlen : List.length zs = n).
  { unfold zs. now rewrite length_map, length_seq. }
  assert (Hclean : cleanInput (row ds) None
                   = inr (map Fin ds, map Fin zs, (0%Z, (-1)%Z))).
  { unfold cleanInput. rewrite numericCells_row.
    unfold row. cbn [List.concat]. rewrite app_nil_r, !length_map.
    fold n. rewrite Z.sub_diag. unfold zs. rewrite map_map. reflexivity. }
  destruct (orientPoints_cases ds (map Fin zs)) as (ds' & Horient & Hds').
  assert (Hlen' : List.length ds' = n)
    by (destruct Hds' as [->| ->]; [reflexivity | apply length_rev]).
  set (pts := combine ds' zs).
  assert (Hfst : map fst pts = ds')
    by (apply map_fst_combine_eq; congruence).
  assert (Hsnd : map snd pts = zs)
    by (apply map_snd_combine_eq; congruence).
  assert (Hsorted : StronglySorted Qlt zs) by apply quarter_positions_sorted.
  assert (Hasc : ascending pts)
    by (apply ascending_combine; [congruence | exact Hsorted]).
  assert (Hptslen : List.length pts = n).
  { unfold pts. rewrite length_combine, Hlen', Hzlen. apply Nat.min_id. }
  assert (Hzero : exists first, hd_error pts = Some first /\ snd first == 0).
  { unfold pts, zs. destruct ds' as [|d0 ds'']; [simpl in Hlen'; lia|].
    destruct n as [|m]; [lia|]. cbn [seq map combine hd_error].
    eexists. split; [reflexivity|]. cbn [snd]. reflexivity. }
  assert (Hbound : Forall (fun p => fst p <= stock) pts).
  { apply Forall_forall. intros [d z] Hp. cbn [fst].
    apply in_combine_l in Hp. rewrite Forall_forall in Hstock. apply Hstock.
    destruct Hds' as [->| ->]; [exact Hp | now apply in_rev]. }
  assert (Horient' : orientPoints (map Fin ds) (map Fin zs)
                     = (map Fin (map fst pts), map Fin (map snd pts)))
    by (rewrite Hfst, Hsnd; exact Horient).
  destruct (genCode_returns_program numToString g L fd stock pts (row ds) None
              (map Fin ds) (map Fin zs) (0%Z, (-1)%Z) date st
              Hq Hstickout HL Hfeed Hfd Hcycle Hclean Horient' Hasc
              ltac:(lia) Hzero Hbound) as (sections & _ & Hcount & Hrun).
  exists sections. split; [exact Hrun|]. rewrite Hcount.
  assert (Hmax : maxZ pts == inject_Z (Z.of_nat n - 1) * (25 # 100)).
  { unfold maxZ. rewrite Hsnd. unfold zs in *.
    destruct n as [|m]; [lia|]. cbn [seq map] in *.
    rewrite (Qmaxl_sorted _ _ Hsorted).
    destruct m as [|k]; [lia|].
    rewrite (last_map_seq (fun i => inject_Z (Z.of_nat i) * (25 # 100)) k 1).
    replace (Z.of_nat (S (S k)) - 1)%Z with (Z.of_nat (1 + k)) by lia.
    reflexivity. }
  now rewrite Hmax.
Qed.

(** X20: One measurement alone: the number of sections computes to 0, the loop
    over the sections does not run, and the last section, which takes the
    offset (0 - 1) * stickout, is the only one: its single point stands at
    z = stickout. *)
Theorem single_measurement_section (L d : Q) :
  stickout g = Fin L -> 0 < L ->
  exists z,
    interpolatePoints g [Fin d] [Fin 0]
    = Some [newSection g [DimensionPoint.mk (Fin d) (Fin z)]]
    /\ z == L.
Proof.
  intros Hstickout HL. unfold interpolatePoints. rewrite Hstickout.
  cbn [mathMax fold_right max2 ltb].
  rewrite div_finite by (intros E; lra).
  assert (Hc : Qceiling (0 / L) = 0%Z).
  { assert (E : 0 / L == 0) by (field; intros E; lra).
    rewrite E. reflexivity. }
  cbn [ceil]. rewrite Hc.
  cbn [loopIndices sub add neg ofZ]. 
  eexists. split; [reflexivity|]. 
  change (inject_Z 0) with 0. change (inject_Z 1) with 1. ring.
Qed.

End DefaultSpacing.

(* ================================================================== *)
(** ** Positions that start beyond the first section                   *)
(* ================================================================== *)

Lemma slice_to_NaN {A} (l : list A) : slice l (ceil (Fin 0)) NaN = [].
Proof.
  unfold slice. cbn [ceil relIndex].
  assert (E : relIndex (Z.of_nat (List.length l)) (ofZ (Qceiling 0)) = 0%Z).
  { cbn. lia. }
  rewrite E. reflexivity.
Qed.

Section BeyondFirstSection.

Variable numToString : number -> string.
Variable g : Global.
Variable L : Q.
Hypothesis Hstickout : stickout g = Fin L.
Hypothesis HL : 0 < L.

Lemma sectionEnd_before_first (xs : list number) (z0 : Q) (zs : list Q) :
  Forall (fun z => L < z) (z0 :: zs) ->
  fst (sectionEnd g xs (map Fin (z0 :: zs)) 0) = NaN.
Proof.
  intros Hall. unfold sectionEnd. rewrite Hstickout.
  change (ofZ (0 + 1) * Fin L)%js with (Fin (boundary L 0)).
  assert (Hb : boundary L 0 == L).
  { unfold boundary. change (inject_Z (0 + 1)) with 1. ring. }
  rewrite indexOf_absent.
  2:{ eapply Forall_impl; [|exact Hall]. intros z Hz E. cbv beta in Hz. lra. }
  cbn [Z.eqb Pos.eqb].
  rewrite (findIndex_greater [] z0 zs);
    [| constructor | rewrite Hb; now inversion Hall].
  cbn [List.length Z.of_nat fst].
  assert (E : getNum (map Fin (z0 :: zs)) (ofZ 0 - Fin 1)%js = NaN) by reflexivity.
  rewrite E. cbn [sub neg add]. now destruct (getNum _ _).
Qed.

(** X21: Positions that all lie beyond the first stickout length: the first
    section comes out without a point, and [genCode] returns the message
    of the type error thrown on reading its first machining point, not a
    program. *)
Theorem genCode_positions_beyond_first_section (pts : list (Q * Q))
  stockDiameter diameterList optLocationList diameterPoints locationPoints
  counts date st :
  pts <> [] ->
  Forall (fun p => L < snd p) pts ->
  cleanInput diameterList optLocationList
  = inr (diameterPoints, locationPoints, counts) ->
  orientPoints diameterPoints locationPoints
  = (map Fin (map fst pts), map Fin (map snd pts)) ->
  (exists rest,
      interpolatePoints g (map Fin (map fst pts)) (map Fin (map snd pts))
      = Some (newSection g [] :: rest))
  /\ genCode numToString g stockDiameter diameterList optLocationList date st
     = (Ret typeErrorMessage, st).
Proof.
  intros Hne Hall Hclean Horient.
  destruct (map snd pts) as [|z0 zs] eqn:Hzs;
    [destruct pts; [congruence | discriminate]|].
  assert (Hall' : Forall (fun z => L < z) (z0 :: zs))
    by (rewrite <- Hzs; now apply Forall_map).
  assert (Hseg : exists rest,
             interpolatePoints g (map Fin (map fst pts)) (map Fin (z0 :: zs))
             = Some (newSection g [] :: rest)).
  { unfold interpolatePoints. rewrite Hstickout, mathMax_Fin.
    rewrite div_finite by (intros E; lra).
    set (N := Qceiling (Qmaxl z0 zs / L)).
    change (ceil (Fin (Qmaxl z0 zs / L))) with (ofZ N).
    change (ofZ N - Fin 1)%js with (Fin (inject_Z N + - (1))).
    unfold loopIndices. rewrite Qceiling_pred, Z.sub_0_r.
    assert (HN : (2 <= N)%Z).
    { assert (H0 : L < z0) by now inversion Hall'.
      pose proof (Qmaxl_ge z0 zs z0 (or_introl eq_refl)) as Hge.
      assert (H1 : 1 < Qmaxl z0 zs / L) by (apply Qlt_shift_div_l; lra).
      pose proof (Qle_ceiling (Qmaxl z0 zs / L)) as Hc. fold N in Hc.
      assert (H2 : (1 < N)%Z).
      { rewrite Zlt_Qlt. change (inject_Z 1) with 1. lra. }
      lia. }
    destruct (Z.to_nat (N - 1)) as [|n] eqn:En; [lia|].
    rewrite indices_succ. cbn [sectionLoop].
    pose proof (sectionEnd_before_first (map Fin (map fst pts)) z0 zs Hall')
      as Hend.
    destruct (sectionEnd g (map Fin (map fst pts)) (map Fin (z0 :: zs)) 0)
      as [endIndex endPoint].
    cbn [fst] in Hend. subst endIndex.
    destruct (sectionLoop g _ _ _ NaN endPoint) as [sections [si sp]].
    eexists. unfold includedPoints at 1.
    change (floor NaN + Fin 1)%js with NaN. rewrite slice_to_NaN.
    reflexivity. }
  destruct Hseg as (rest & Hseg). split; [now exists rest|].
  unfold genCode. rewrite Hclean, Horient, Hseg.
  unfold assemble, tryOrMessage. cbn [sectionsFrom]. unfold bind.
  rewrite sectionCycle_empty; [reflexivity | | reflexivity].
  cbn [maxDiameter newSection map mathMax fold_right]. now destruct stockDiameter.
Qed.

End BeyondFirstSection.

(* ================================================================== *)
(** ** Concrete runs                                                   *)
(* ================================================================== *)

Lemma motion_mode_word_witness :
  fst (rapidPosition showNumber global targetXZ None
         (snd (rapidPosition showNumber global targetX None state0)))
  = Ret ("X2Z3" ++ nl)
  /\ fst (rapidPosition showNumber global targetXZ None
            (snd (linearInterpolation showNumber global targetX
                    (Some (Fin 5)) None state0)))
     = Ret ("G00X2Z3" ++ nl)
  /\ fst (linearInterpolation showNumber global targetXZ (Some (Fin 5)) None
            (snd (rapidPosition showNumber global targetX None state0)))
     = Ret ("G01X2Z3F5" ++ nl)
  /\ fst (linearInterpolation showNumber global targetXZ (Some (Fin 5)) None
            (snd (linearInterpolation showNumber global targetX
                    (Some (Fin 5)) None state0)))
     = Ret ("X2Z3" ++ nl).
Proof.
  exact (motion_mode_word showNumber global targetX targetXZ
           (Some (Fin 5)) (Some (Fin 5)) None None state0 eq_refl eq_refl).
Defined.

Lemma feed_word_after_motion_witness :
  feedWord showNumber global (Some (Fin 5))
    (snd (rapidPosition showNumber global targetX None state0)) = "F5"
  /\ feedWord showNumber global (Some (Fin 5))
       (snd (linearInterpolation showNumber global targetX undefined None state0))
     = "F5"
  /\ feedWord showNumber global (Some (Fin 5))
       (snd (linearInterpolation showNumber global targetX (Some (Fin 4)) None
               state0))
     = "F5".
Proof.
  exact (feed_word_after_motion showNumber global targetX (Fin 4) (Fin 5)
           None state0 eq_refl eq_refl).
Defined.

Lemma motion_after_cycle_restates_mode_witness :
  fst (rapidPosition showNumber nativeGlobal targetXZ None
         (snd (boxCycle showNumber nativeGlobal
                 (DimensionPoint.mk (Fin 0.51) (Fin 0.1))
                 (DimensionPoint.mk (Fin 0.3) (Fin (-1)))
                 (Fin 0.01) (Fin 0.002) None state0)))
  = Ret ("G00X2Z3" ++ nl)
  /\ fst (linearInterpolation showNumber nativeGlobal targetXZ
            (Some (Fin 0.002)) None
            (snd (contourCycle showNumber nativeGlobal
                    (DimensionPoint.mk (Fin 0.51) (Fin 0.1))
                    (map pointQ taperedContour) (Fin 100)
                    (Fin 0.01) (Fin 0.002) None state0)))
     = Ret ("G01X2Z3" ++ nl).
Proof.
  destruct (motion_after_cycle_restates_mode showNumber nativeGlobal
              (DimensionPoint.mk (Fin 0.51) (Fin 0.1))
              (DimensionPoint.mk (Fin 0.3) (Fin (-1)))
              (map pointQ taperedContour) (Fin 100) (Fin 0.01) (Fin 0.002)
              None targetXZ (Some (Fin 0.002)) None state0 eq_refl)
    as [[Hbox _] Hnative].
  destruct (Hnative eq_refl) as [_ Hlinear].
  split; [exact Hbox | exact Hlinear].
Defined.

Lemma cycle_command_resets_mode_witness :
  lastGCode (snd (boxCycle showNumber nativeGlobal
                    (DimensionPoint.mk (Fin 0.51) (Fin 0.1))
                    (DimensionPoint.mk (Fin 0.3) (Fin (-1)))
                    (Fin 0.01) (Fin 0.002) None state0)) = "None"
  /\ lastGCode (snd (contourCycle showNumber nativeGlobal
                       (DimensionPoint.mk (Fin 0.51) (Fin 0.1))
                       (map pointQ taperedContour) (Fin 100)
                       (Fin 0.01) (Fin 0.002) None state0)) = "None"
  /\ fst (rapidPosition showNumber nativeGlobal targetXZ None
            (snd (boxCycle showNumber nativeGlobal
                    (DimensionPoint.mk (Fin 0.51) (Fin 0.1))
                    (DimensionPoint.mk (Fin 0.3) (Fin (-1)))
                    (Fin 0.01) (Fin 0.002) None state0)))
     = Ret ("G00X2Z3" ++ nl)
  /\ (exists line,
        fst (linearInterpolation showNumber global
               (DimensionPoint.getMovePoint
                  (DimensionPoint.mk (Fin 0.51) (Fin 0.1)))
               (Some (Fin 0.002)) (Some (simulatedComment None)) state0)
        = Ret line
        /\ (fst (contourCycle showNumber global
                   (DimensionPoint.mk (Fin 0.51) (Fin 0.1))
                   (map pointQ taperedContour) (Fin 100)
                   (Fin 0.01) (Fin 0.002) None state0)
            = Ret (line ++ "undefined")
            \/ fst (contourCycle showNumber global
                      (DimensionPoint.mk (Fin 0.51) (Fin 0.1))
                      (map pointQ taperedContour) (Fin 100)
                      (Fin 0.01) (Fin 0.002) None state0)
               = Diverge))
  /\ (exists before after,
        fst (sectionCycle showNumber global (Fin 0.5) testSection (Fin 100)
               state0)
        = Ret (before ++ cycleText showNumber global (Fin 0.5) testSection
               ++ "G01" ++ after)).
Proof.
  destruct (cycle_command_resets_mode showNumber nativeGlobal
              (DimensionPoint.mk (Fin 0.51) (Fin 0.1))
              (DimensionPoint.mk (Fin 0.3) (Fin (-1)))
              (map pointQ taperedContour) (Fin 100) (Fin 0.01) (Fin 0.002)
              None state0) as (Hbox & Hnative & Hmotion & _ & _).
  destruct (cycle_command_resets_mode showNumber global
              (DimensionPoint.mk (Fin 0.51) (Fin 0.1))
              (DimensionPoint.mk (Fin 0.3) (Fin (-1)))
              (map pointQ taperedContour) (Fin 100) (Fin 0.01) (Fin 0.002)
              None state0) as (_ & _ & _ & Hsimulated & Hsection).
  split; [exact Hbox|]. split; [exact (Hnative eq_refl)|].
  split; [exact (proj1 (Hmotion _ targetXZ None None Hbox eq_refl))|].
  split; [exact (Hsimulated eq_refl)|].
  eapply (Hsection (Fin 0.5) testSection (Fin 100) 0.002).
  - exact Quiet_state0.
  - reflexivity.
  - discriminate.
  - reflexivity.
  - vm_compute. reflexivity.
  - right. vm_compute. eexists. reflexivity.
Defined.

Lemma genMultiPassPoints_pass_shape_witness :
  exists first second,
    genMultiPassPoints (map pointQ taperedContour) (Fin 0.40) (Fin 0.02)
    = Some [first; second; map pointQ taperedContour]
    /\ map DimensionPoint.z first = [Fin 0; Fin (-0.5); Fin (-1)]
    /\ map DimensionPoint.z second = [Fin 0; Fin (-0.5); Fin (-1)].
Proof.
  destruct (genMultiPassPoints (map pointQ taperedContour) (Fin 0.40) (Fin 0.02))
    as [passes|] eqn:E; [|discriminate E].
  destruct (genMultiPassPoints_pass_shape _ _ _ passes E) as (_ & _ & Hall).
  vm_compute in E. injection E as <-.
  eexists _, _. split; [reflexivity|].
  apply Forall_cons_iff in Hall. destruct Hall as [H1 Hall].
  apply Forall_cons_iff in Hall. destruct Hall as [H2 _].
  split; [exact H1 | exact H2].
Defined.

Lemma zero_depth_never_returns_witness :
  fst (contourCycle showNumber
         {| depths_max := Fin 0; depths_min := depths_min global;
            xClearance := xClearance global; zClearance := zClearance global;
            colletShift := colletShift global; feed := feed global;
            rpm := rpm global; stickout := stickout global;
            decimals := decimals global; G75Functional := false |}
         (DimensionPoint.mk (Fin 0.51) (Fin 0.1))
         (map pointQ taperedContour) (Fin 100) (Fin 0) (Fin 0.002) None state0)
  = Diverge.
Proof.
  apply (zero_depth_never_returns showNumber _ _ taperedContour
           (0.30, 0) (0.35, -0.5) (Fin 100) 0 (Fin 0.002) None state0).
  - reflexivity.
  - reflexivity.
  - now left.
  - right. now left.
  - reflexivity.
Defined.

Lemma measuredPart_is_ascending : ascending measuredPart.
Proof.
  unfold ascending, measuredPart.
  repeat (constructor; [| repeat (constructor; [reflexivity|]); constructor]).
  constructor.
Qed.

Lemma testPoints_ascending : ascending testPoints.
Proof.
  unfold ascending, testPoints.
  cbn [combine testGenCode_diameterPoints testGenCode_locations].
  repeat (constructor; [| repeat (constructor; [reflexivity|]); constructor]).
  constructor.
Qed.

Lemma newSection_machining_order_witness :
  machiningPoints (newSection global (map pointQ measuredPart))
  = map (fun point =>
           DimensionPoint.mk (DimensionPoint.x point)
             (neg (DimensionPoint.z point)
              + length (newSection global (map pointQ measuredPart))
              - stickout global)%js)
        (points (newSection global (map pointQ measuredPart)))
  /\ StronglySorted (fun a b => (a <? b)%js = false)
       (map DimensionPoint.z
          (machiningPoints (newSection global (map pointQ measuredPart)))).
Proof.
  destruct (newSection_machining_order global measuredPart
              measuredPart_is_ascending) as [Horder Hdecreasing].
  split; [exact Horder | exact (Hdecreasing Logic.I)].
Defined.

Lemma nan_diameter_passes_the_check_witness :
  maxDiameter (newSection global
                 [DimensionPoint.mk (Fin 0.9) (Fin 0);
                  DimensionPoint.mk NaN (Fin 1)]) = NaN
  /\ fst (sectionCycle showNumber global (Fin 0.5)
            (newSection global
               [DimensionPoint.mk (Fin 0.9) (Fin 0);
                DimensionPoint.mk NaN (Fin 1)])
            (Fin 100) state0)
     <> Throw (RangeError rangeErrorMessage).
Proof.
  apply (nan_diameter_passes_the_check showNumber global
           [DimensionPoint.mk (Fin 0.9) (Fin 0); DimensionPoint.mk NaN (Fin 1)]
           (DimensionPoint.mk NaN (Fin 1))).
  - right. now left.
  - reflexivity.
Defined.

Lemma getLengthOffsetPoint_range_witness :
  (exists z',
      getLengthOffsetPoint (newSection global (map pointQ measuredPart))
        (ofZ (Z.of_nat 1))
      = Ret (DimensionPoint.mk (Fin 0.35) (Fin z'))
      /\ z' == 1.0 - maxZ measuredPart
      /\ z' <= 0
      /\ (0 <= 1.0 -> - maxZ measuredPart <= z'))
  /\ (forall j, (List.length measuredPart <= j)%nat ->
        getLengthOffsetPoint (newSection global (map pointQ measuredPart))
          (ofZ (Z.of_nat j))
        = Throw (TypeError typeErrorMessage)).
Proof.
  exact (getLengthOffsetPoint_range global measuredPart 1 (0.35, 1.0) eq_refl).
Defined.

Lemma basicTaper_text_witness :
  fst (basicTaper showNumber global
         (map DimensionPoint.getMovePoint (map pointQ taperedContour))
         (Fin 0.002) state0)
  = Ret ("G01X0.3Z0F0.002" ++ nl ++ "X0.35Z-0.5" ++ nl ++ "X0.4Z-1" ++ nl
         ++ "X0.41" ++ nl)
  /\ fst (basicTaper showNumber global [] (Fin 0.002) state0)
     = Ret ("G01X-Infinity" ++ nl).
Proof.
  destruct (basicTaper_text showNumber global (pointQ (0.30, 0))
              (map pointQ [(0.35, -0.5); (0.40, -1)]) (Fin 0.002) state0
              eq_refl ltac:(discriminate)) as [Hcontour Hempty].
  split.
  - change (map pointQ taperedContour)
      with (pointQ (0.30, 0) :: map pointQ [(0.35, -0.5); (0.40, -1)]).
    rewrite Hcontour. vm_compute. reflexivity.
  - rewrite Hempty. vm_compute. reflexivity.
Defined.

Lemma sectionCycle_text_witness :
  sectionCycle showNumber global (Fin 0.5) testSection (Fin 100) state0
  = (Ret (sectionText showNumber global (Fin 0.5) testSection),
     afterRapid state0)
  /\ sectionText showNumber global (Fin 0.5) testSection
     = "G94F3" ++ nl
       ++ "G01X0.345Z0" ++ nl
       ++ "M01(Move stock to appropriate position)" ++ nl
       ++ "X0.51Z0.1" ++ nl
       ++ "M03S1500" ++ nl
       ++ "G95F0.002" ++ nl
       ++ "X0.51Z0.1F0.002(Simulated G75 Contour cycle)" ++ nl
       ++ "undefined"
       ++ "G01X0.335Z0F0.002" ++ nl
       ++ "X0.34Z-0.25" ++ nl
       ++ "X0.345Z-0.5" ++ nl
       ++ "X0.348Z-0.75" ++ nl
       ++ "X0.35Z-1" ++ nl
       ++ "X0.36" ++ nl
       ++ "G00X0.51Z0.1" ++ nl
       ++ "M05" ++ nl.
Proof.
  split; [|vm_compute; reflexivity].
  apply (sectionCycle_text showNumber global (Fin 0.5) testSection (Fin 100)
           0.002 state0).
  - exact Quiet_state0.
  - reflexivity.
  - discriminate.
  - reflexivity.
  - discriminate.
  - right. vm_compute. eexists. reflexivity.
Defined.

Lemma segmentation_keeps_diameters_in_range_witness :
  exists sections,
    interpolatePoints global (map Fin (map fst measuredPart))
      (map Fin (map snd measuredPart)) = Some sections
    /\ sections <> []
    /\ Forall (fun section =>
                 section = newSection global (points section)
                 /\ Forall (diameterWithin 0.30 0.40) (points section)
                 /\ exists m, maxDiameter section = Fin m
                              /\ 0.30 <= m /\ m <= 0.40)
         sections.
Proof.
  apply (segmentation_keeps_diameters_in_range global 1.000 measuredPart
           0.30 0.40).
  - reflexivity.
  - reflexivity.
  - exact measuredPart_is_ascending.
  - simpl. lia.
  - exists (0.30, 0). split; reflexivity.
  - repeat constructor; discriminate.
Defined.


(** [testGenCode] in full: the program for its nine measurements has two
    sections. *)
Example testGenCode_run :
  fst (testGenCode showNumber global someDate state0) = Ret tt
  /\ fst (genCode showNumber global (Fin 0.5) (flat testGenCode_diameterPoints)
            (Some (flat testGenCode_locations)) someDate state0)
     = Ret ("(OMalley Brass)" ++ nl
            ++ "(1 inch part stickout)" ++ nl
            ++ "(0.5 inch diameter stock)" ++ nl
            ++ "(T1 OD Cutter)" ++ nl
            ++ "(Code generation by Jeremy Peplinski)" ++ nl
            ++ "(Executed 11.2.2026)" ++ nl
            ++ "G72G90G97G95F0.002" ++ nl
            ++ "T1" ++ nl
            ++ "(Section 1)" ++ nl
            ++ "G94F3" ++ nl
            ++ "G01X0.345Z0" ++ nl
            ++ "M01(Move stock to appropriate position)" ++ nl
            ++ "X0.51Z0.1" ++ nl
            ++ "M03S1500" ++ nl
            ++ "G95F0.002" ++ nl
            ++ "X0.51Z0.1F0.002(Simulated G75 Contour cycle)" ++ nl
            ++ "undefined"
            ++ "G01X0.335Z0F0.002" ++ nl
            ++ "X0.34Z-0.25" ++ nl
            ++ "X0.345Z-0.5" ++ nl
            ++ "X0.348Z-0.75" ++ nl
            ++ "X0.35Z-1" ++ nl
            ++ "X0.36" ++ nl
            ++ "G00X0.51Z0.1" ++ nl
            ++ "M05" ++ nl
            ++ "(Section 2)" ++ nl
            ++ "G94F3" ++ nl
            ++ "G01X0.36Z0" ++ nl
            ++ "M01(Move stock to appropriate position)" ++ nl
            ++ "X0.51Z0.1" ++ nl
            ++ "M03S1500" ++ nl
            ++ "G95F0.002" ++ nl
            ++ "X0.51Z0.1F0.002(Simulated G75 Contour cycle)" ++ nl
            ++ "undefined"
            ++ "G01X0.35Z0F0.002" ++ nl
            ++ "X0.353Z-0.25" ++ nl
            ++ "X0.355Z-0.5" ++ nl
            ++ "X0.36Z-0.75" ++ nl
            ++ "X0.366Z-1" ++ nl
            ++ "X0.376" ++ nl
            ++ "G00X0.51Z0.1" ++ nl
            ++ "M05" ++ nl
            ++ "M30" ++ nl).
Proof. split; vm_compute; reflexivity. Qed.

Lemma cleanInput_sorts_pairs_witness :
  exists pts,
    cleanInput [[CNum (Fin 0.40); CBlank; CNum (Fin 0.30)]]
      (Some [[CNum (Fin 1.0); CNum (Fin 0); CBlank]])
    = inr (map Fin (map fst pts), map Fin (map snd pts), (1%Z, 1%Z))
    /\ Permutation (combine [0.40; 0.30] [1.0; 0]) pts
    /\ StronglySorted (fun p q => snd p <= snd q) pts.
Proof.
  exact (cleanInput_sorts_pairs [0.40; 0.30] [1.0; 0]
           [[CNum (Fin 0.40); CBlank; CNum (Fin 0.30)]]
           [[CNum (Fin 1.0); CNum (Fin 0); CBlank]] eq_refl eq_refl eq_refl).
Defined.

Lemma genCode_unequal_counts_witness :
  genCode showNumber global (Fin 0.5) (row [0.3; 0.35; 0.4])
    (Some [[CNum (Fin 0); CBlank; CNum (Fin 1)]]) someDate state0
  = (Ret unequalMessage, state0).
Proof.
  apply (genCode_unequal_counts showNumber global (Fin 0.5)
           (row [0.3; 0.35; 0.4]) [[CNum (Fin 0); CBlank; CNum (Fin 1)]]).
  discriminate.
Defined.

Lemma genCode_without_data_witness :
  interpolatePoints global [] [] = Some [newSection global []]
  /\ genCode showNumber global (Fin 0.5) [[CBlank; CNum NaN]; [CBlank]] None
       someDate state0
     = (Ret typeErrorMessage, state0).
Proof.
  apply (genCode_without_data showNumber global 1.000 (Fin 0.5)
           [[CBlank; CNum NaN]; [CBlank]] None someDate state0).
  - reflexivity.
  - discriminate.
  - reflexivity.
  - exact Logic.I.
Defined.

Lemma genCode_default_spacing_witness :
  exists sections,
    genCode showNumber global (Fin 0.5) (row testGenCode_diameterPoints) None
      someDate state0
    = (Ret (programText showNumber global (Fin 0.5) sections
              (0%Z, (-1)%Z) someDate),
       afterRapid state0)
    /\ Z.of_nat (List.length sections) = 2%Z.
Proof.
  destruct (genCode_default_spacing showNumber global 1.000 0.002 0.5
              testGenCode_diameterPoints someDate state0)
    as (sections & Hrun & Hcount).
  - exact Quiet_state0.
  - reflexivity.
  - reflexivity.
  - reflexivity.
  - discriminate.
  - right. exists 0.040. split; reflexivity.
  - simpl. lia.
  - repeat constructor; discriminate.
  - exists sections. split; [exact Hrun | exact Hcount].
Defined.

Lemma single_measurement_section_witness :
  exists z,
    interpolatePoints global [Fin 0.3] [Fin 0]
    = Some [newSection global [DimensionPoint.mk (Fin 0.3) (Fin z)]]
    /\ z == 1.000.
Proof.
  apply (single_measurement_section global 1.000 0.3); reflexivity.
Defined.

Lemma genCode_positions_beyond_first_section_witness :
  (exists rest,
      interpolatePoints global (map Fin [0.30; 0.35; 0.40])
        (map Fin [1.5; 2.0; 2.5])
      = Some (newSection global [] :: rest))
  /\ genCode showNumber global (Fin 0.5) (row [0.30; 0.35; 0.40])
       (Some (row [1.5; 2.0; 2.5])) someDate state0
     = (Ret typeErrorMessage, state0).
Proof.
  apply (genCode_positions_beyond_first_section showNumber global 1.000
           eq_refl eq_refl [(0.30, 1.5); (0.35, 2.0); (0.40, 2.5)]
           (Fin 0.5) (row [0.30; 0.35; 0.40]) (Some (row [1.5; 2.0; 2.5]))
           (map Fin [0.30; 0.35; 0.40]) (map Fin [1.5; 2.0; 2.5]) (0%Z, 0%Z)).
  - discriminate.
  - repeat constructor.
  - reflexivity.
  - reflexivity.
Defined.

(* ================================================================== *)
(** ** The pass subdivision on doubles                                 *)
(* ================================================================== *)

Lemma loopIndices_integer (from : Z) (bound : Double.number) (N : Z) :
  Double.integer bound = Some N ->
  (N <= 2 ^ 53)%Z ->
  Double.loopIndices from bound
  = Some (map (fun k => (from + Z.of_nat k)%Z) (seq 0 (Z.to_nat (N - from)))).
Proof.
  unfold Double.integer, Double.loopIndices. intros H HN.
  destruct (Double.exact bound) as [q|]; [|discriminate].
  destruct (Qeq_bool q (inject_Z (Qceiling q))); [|discriminate].
  injection H as <-.
  destruct (2 ^ 53 <? Qceiling q)%Z eqn:E; [|reflexivity].
  apply Z.ltb_lt in E. lia.
Qed.

(** C4, as amended: let N be the number
    [Math.ceil((startX - min x) / (2 * depth))] as the code computes it, in
    double arithmetic, over the offset contour (every x increased by 2 U,
    startX its largest x).  When N is a finite number, at most 2^53, the
    pass subdivision of the simulated contour cycle returns max(N, 1)
    passes, and the last pass is exactly the offset contour. *)
Theorem simG75_pass_subdivision (pts : list Double.DimensionPoint.t)
  (U I : Double.number) (N : Z) :
  Double.integer (Double.numPasses U I pts) = Some N ->
  (N <= 2 ^ 53)%Z ->
  exists passes,
    Double.simPasses U I pts = Some passes
    /\ List.length passes = Z.to_nat (Z.max 1 N)
    /\ last passes [] = map (Double.finishSpaced U) pts.
Proof.
  intros HN Hsmall. unfold Double.simPasses, Double.genMultiPassPoints.
  fold (Double.numPasses U I pts).
  rewrite (loopIndices_integer 1 _ N HN Hsmall).
  eexists. split; [reflexivity|]. split.
  - rewrite length_app, !length_map, length_seq. simpl. lia.
  - apply last_last.
Qed.

(** Diameters 0.10 and 0.26 with the shipped allowance 0.01 and depth 0.02:
    the quotient 0.16000000000000003 / 0.04 exceeds 4, N is 5. *)
Lemma simG75_pass_subdivision_witness :
  Double.integer
    (Double.numPasses (Double.decimal 1 100) (Double.decimal 2 100)
       (contourOf 10 26)) = Some 5%Z
  /\ (5 <= 2 ^ 53)%Z
  /\ exists passes,
       Double.simPasses (Double.decimal 1 100) (Double.decimal 2 100)
         (contourOf 10 26) = Some passes
       /\ List.length passes = 5%nat
       /\ last passes []
          = map (Double.finishSpaced (Double.decimal 1 100)) (contourOf 10 26).
Proof.
  assert (HN : Double.integer
                 (Double.numPasses (Double.decimal 1 100) (Double.decimal 2 100)
                    (contourOf 10 26)) = Some 5%Z)
    by (vm_compute; reflexivity).
  assert (Hsmall : (5 <= 2 ^ 53)%Z) by (vm_compute; discriminate).
  split; [exact HN|]. split; [exact Hsmall|].
  exact (simG75_pass_subdivision (contourOf 10 26) (Double.decimal 1 100)
           (Double.decimal 2 100) 5 HN Hsmall).
Defined.

(** The number of passes follows the rounding of the quotient, not its
    exact value: for the diameters 0.10 and 0.26 the code makes 5 passes
    where the exact quotient 0.16 / 0.04 is 4. *)
Example pass_count_is_rounded :
  option_map (@List.length _)
    (Double.simPasses (Double.decimal 1 100) (Double.decimal 2 100)
       (contourOf 10 26)) = Some 5%nat
  /\ passCount 0.01 0.02 [(0.10, 0); (0.26, -1)] = 4%Z.
Proof. split; vm_compute; reflexivity. Qed.

(** The contour of constant diameter on doubles: N is 0, one pass. *)
Example flat_contour_on_doubles :
  Double.integer
    (Double.numPasses (Double.decimal 1 100) (Double.decimal 2 100)
       (contourOf 30 30)) = Some 0%Z
  /\ Double.simPasses (Double.decimal 1 100) (Double.decimal 2 100)
       (contourOf 30 30)
     = Some [map (Double.finishSpaced (Double.decimal 1 100)) (contourOf 30 30)].
Proof. split; vm_compute; reflexivity. Qed.

(* ================================================================== *)
(** ** The segmenter on doubles                                        *)
(* ================================================================== *)

(** C2: six diameters measured at 0, 0.1, 0.2, 0.3, 0.4 and
    1.0000000000000002, cut every 1.0.  No measured point stands on the
    boundary 1.0, so each of them should be in one section.  The code adds
    the fraction 0.6 / 0.6000000000000002 to the index 4 and gets 5
    exactly: no boundary point is synthesized, the first section is the
    six measured points, the last one beyond the section length, and the
    second section is that last measured point again, alone. *)
Theorem segmentation_repeats_a_point_off_boundary :
  Double.indexOf steppedPositions (Double.ofZ 1) = (-1)%Z
  /\ fst (Double.sectionEnd (Double.ofZ 1) steppedDiameters steppedPositions 0)
     = Double.ofZ 5
  /\ exists first second,
       Double.interpolatePoints (Double.ofZ 1) steppedDiameters steppedPositions
       = Some [first; second]
       /\ Double.points first
          = Double.organize steppedDiameters steppedPositions
       /\ last (Double.points first)
               (Double.DimensionPoint.mk Double.NaN Double.NaN)
          = Double.DimensionPoint.mk (Double.decimal 40 100)
              (PrimFloat.next_up (Double.ofZ 1))
       /\ Double.ltb (Double.length first) (Double.ofZ 1) = false
       /\ Double.eqb (Double.length first) (Double.ofZ 1) = false
       /\ Double.points second
          = [Double.DimensionPoint.mk (Double.decimal 40 100)
               (Double.sub (PrimFloat.next_up (Double.ofZ 1)) (Double.ofZ 1))].
Proof.
  split; [vm_compute; reflexivity|]. split; [vm_compute; reflexivity|].
  eexists _, _. split; [vm_compute; reflexivity|].
  repeat split; vm_compute; reflexivity.
Qed.

(** C3: diameters 0.30, 0.35, 0.40 measured at 0, 1.0 and 2.5, cut every
    1.0; the boundary 2.0 falls between the last two points.  The code
    adds the fraction (2 - 1) / (2.5 - 1) to the index 1 and takes [% 1] of
    the sum, which is no longer the fraction: the synthesized z is
    1.9999999999999998, the double next below the boundary, and the
    synthesized x is not [xp + fraction * (xn - xp)].  The second section
    ends short of its length and the third begins below zero.  On the
    two-point example, (0.30, 0) and (0.40, 2.0), the code does give the
    point (0.35, 1.0). *)
Theorem boundary_point_misses_the_boundary :
  (let boundary := Double.ofZ 2 in
   let fraction :=
     Double.div (Double.sub boundary (Double.ofZ 1))
                (Double.sub (Double.decimal 25 10) (Double.ofZ 1)) in
   exists endIndex x' z',
     Double.sectionEnd (Double.ofZ 1) measuredDiameters measuredPositions 1
     = (endIndex, (x', z'))
     /\ endIndex = Double.add (Double.ofZ 1) fraction
     /\ Double.eqb (Double.rem1 endIndex) fraction = false
     /\ z' = PrimFloat.next_down boundary
     /\ Double.ltb z' boundary = true
     /\ Double.eqb x'
          (Double.add (Double.decimal 35 100)
             (Double.mul fraction
                (Double.sub (Double.decimal 40 100) (Double.decimal 35 100))))
        = false)
  /\ (exists first second third,
        Double.interpolatePoints (Double.ofZ 1) measuredDiameters
          measuredPositions = Some [first; second; third]
        /\ map Double.DimensionPoint.z (Double.points second)
           = [Double.ofZ 0;
              Double.sub (PrimFloat.next_down (Double.ofZ 2)) (Double.ofZ 1)]
        /\ map Double.DimensionPoint.z (Double.points third)
           = [Double.sub (PrimFloat.next_down (Double.ofZ 2)) (Double.ofZ 2);
              Double.decimal 5 10]
        /\ Double.ltb
             (Double.sub (PrimFloat.next_down (Double.ofZ 2)) (Double.ofZ 2))
             (Double.ofZ 0) = true)
  /\ Double.sectionEnd (Double.ofZ 1)
       [Double.decimal 30 100; Double.decimal 40 100]
       [Double.ofZ 0; Double.ofZ 2] 0
     = (Double.decimal 5 10, (Double.decimal 35 100, Double.ofZ 1)).
Proof.
  split; [|split].
  - eexists _, _, _. split; [vm_compute; reflexivity|].
    repeat split; vm_compute; reflexivity.
  - eexists _, _, _. split; [vm_compute; reflexivity|].
    repeat split; vm_compute; reflexivity.
  - vm_compute. reflexivity.
Qed.
